(** * js-serializer: a shallow embedding of [serializer.js]

    The library converts between native JavaScript data and an element tree
    through an intermediate structure built from a template.  This file
    embeds the template classes ([TObject], [TArray], [TValue] and its four
    subclasses), the intermediate classes ([DObject], [DArray], [DValue]) and
    the parts of the host language their methods rely on, and proves or
    refutes the properties stated for them.

    Conventions of the embedding.

    - A JavaScript string is a [string]; every [ascii] stands for one code
      unit below 256.
    - A JavaScript number is [NaN], an infinity, a signed zero or a finite
      non-zero decimal [digits * 10 ^ exponent].  This is the decimal that
      [Number.prototype.toString] prints; reading a text gives the decimal
      written there and the rounding to binary64 that the host applies
      afterwards is left out, as is the overflow to an infinity; a
      statement that names the number read from a text keeps to integers
      that binary64 holds exactly, or holds of the rounded number as well.
    - Native data are [undefined], [null], booleans, numbers, strings, arrays
      and objects carrying the name of their constructor and their own
      enumerable properties in insertion order (the host lists keys that
      look like array indices first; a statement about the order of keys
      says which keys it is about).
      Function objects are not data: a computation that would hand one to
      the library ends in [Unmodelled].  Constructors define no methods of
      their own.
    - Property look-up on a plain object falls back on [Object.prototype]:
      the names it defines are found on every object.
    - [createElement] accepts the names of XML.  A host that follows a
      later edition of the DOM Standard accepts further names; the
      statements below use XML names as a sufficient condition only.
    - A method that can throw returns an [outcome]. *)

From Stdlib Require Import List String Ascii ZArith NArith PArith Bool Lia.
Import ListNotations.

Set Warnings "-register-all".

#[local] Arguments Ascii.eqb : simpl never.
#[local] Arguments String.eqb : simpl never.

Local Open Scope string_scope.
Local Open Scope list_scope.
Local Open Scope Z_scope.

(** ** Outcomes *)

Inductive exn : Type :=
| TypeError
| InvalidCharacterError
| InvalidStateError.

(** [Unmodelled] marks a computation that leaves the data model. *)
Inductive outcome (A : Type) : Type :=
| Ok (a : A)
| Throw (e : exn)
| Unmodelled.

Arguments Ok {A} a.
Arguments Throw {A} e.
Arguments Unmodelled {A}.

Definition bind {A B : Type} (m : outcome A) (k : A -> outcome B) : outcome B :=
  match m with
  | Ok a => k a
  | Throw e => Throw e
  | Unmodelled => Unmodelled
  end.

Notation "x <- m ;; k" := (bind m (fun x => k))
  (at level 61, m at next level, right associativity).

Section MapM.
Context {A B : Type} (f : A -> outcome B).

Fixpoint mapM (l : list A) : outcome (list B) :=
  match l with
  | [] => Ok []
  | a :: l' => b <- f a ;; bs <- mapM l' ;; Ok (b :: bs)
  end.
End MapM.

Definition returns {A : Type} (m : outcome A) : Prop := exists a, m = Ok a.

(** ** Code units *)

Definition chars := list ascii.

Definition code (c : ascii) : N := N_of_ascii c.

(** [StrWhiteSpaceChar] restricted to code units below 256: TAB, LF, VT, FF,
    CR, SP and NBSP. *)
Definition is_white (c : ascii) : bool :=
  let n := code c in
  ((9 <=? n) && (n <=? 13) || (n =? 32) || (n =? 160))%N.

Definition is_digit (c : ascii) : bool :=
  let n := code c in ((48 <=? n) && (n <=? 57))%N.

Definition digit_val (c : ascii) : N := (code c - 48)%N.

(** Value of a character as a digit in radix 16, if it is one. *)
Definition hex_val (c : ascii) : option N :=
  let n := code c in
  if ((48 <=? n) && (n <=? 57))%N then Some (n - 48)%N
  else if ((97 <=? n) && (n <=? 102))%N then Some (n - 87)%N
  else if ((65 <=? n) && (n <=? 70))%N then Some (n - 55)%N
  else None.

Definition radix_val (radix : N) (c : ascii) : option N :=
  if (radix =? 16)%N then hex_val c
  else if is_digit c then Some (digit_val c) else None.

Fixpoint trim_start (s : chars) : chars :=
  match s with
  | c :: s' => if is_white c then trim_start s' else s
  | [] => []
  end.

(** The longest prefix of digits of the given radix, read as an integer
    together with the number of digits read and the rest of the text. *)
Fixpoint read_digits (radix : N) (acc : N) (count : nat) (s : chars)
  : N * nat * chars :=
  match s with
  | c :: s' =>
      match radix_val radix c with
      | Some d => read_digits radix (acc * radix + d)%N (S count) s'
      | None => (acc, count, s)
      end
  | [] => (acc, count, [])
  end.

(** ** Numbers *)

Inductive number : Type :=
| NaN
| Infinity (negative : bool)
| Zero (negative : bool)
| Finite (negative : bool) (digits : positive) (exponent : Z).

(** A finite number is in canonical form when its digits do not end in 0. *)
Definition canonical (x : number) : Prop :=
  match x with
  | Finite _ m _ => (Npos m mod 10 <> 0)%N
  | _ => True
  end.

(** Enough steps to divide [n] by 10 until nothing is left. *)
Definition fuel_of (n : N) : nat := S (N.to_nat (N.log2 n)).

Fixpoint strip_zeros (fuel : nat) (m : positive) (e : Z) : positive * Z :=
  match fuel with
  | O => (m, e)
  | S fuel' =>
      if (Npos m mod 10 =? 0)%N
      then match (Npos m / 10)%N with
           | Npos m' => strip_zeros fuel' m' (e + 1)
           | N0 => (m, e)
           end
      else (m, e)
  end.

(** The number [(-1)^negative * m * 10^e], in canonical form. *)
Definition mk_number (negative : bool) (m : N) (e : Z) : number :=
  match m with
  | N0 => Zero negative
  | Npos p => let '(p', e') := strip_zeros (fuel_of m) p e in
              Finite negative p' e'
  end.

Definition of_Z (z : Z) : number :=
  match z with
  | Z0 => Zero false
  | Zpos p => mk_number false (Npos p) 0
  | Zneg p => mk_number true (Npos p) 0
  end.

Definition number_eqb (x y : number) : bool :=
  match x, y with
  | NaN, NaN => true
  | Infinity a, Infinity b => Bool.eqb a b
  | Zero a, Zero b => Bool.eqb a b
  | Finite a m e, Finite b n f => Bool.eqb a b && (m =? n)%positive && (e =? f)
  | _, _ => false
  end.

(** [x === y] on numbers: [NaN] differs from itself and the two zeros are
    equal. *)
Definition number_strict_eq (x y : number) : bool :=
  match x, y with
  | NaN, _ | _, NaN => false
  | Zero _, Zero _ => true
  | _, _ => number_eqb x y
  end.

(** ** Numbers and text *)

Definition digit_char (d : N) : ascii := ascii_of_N (48 + d).

Fixpoint digits_of (fuel : nat) (n : N) (acc : chars) : chars :=
  match fuel with
  | O => acc
  | S fuel' =>
      let acc' := digit_char (n mod 10) :: acc in
      if (n <? 10)%N then acc' else digits_of fuel' (n / 10) acc'
  end.

(** The decimal digits of a natural number, without leading zeros. *)
Definition decimal (n : N) : chars := digits_of (fuel_of n) n [].

Definition chr (s : string) : chars := list_ascii_of_string s.

Definition zeros (n : nat) : chars := repeat "0"%char n.

Definition sign_chars (negative : bool) : chars :=
  if negative then chr "-" else [].

(** [Number::toString] in radix 10.  For a finite number [k] is the number
    of digits and [n] the position of the decimal point. *)
Definition number_to_chars (x : number) : chars :=
  match x with
  | NaN => chr "NaN"
  | Infinity negative => sign_chars negative ++ chr "Infinity"
  | Zero _ => chr "0"
  | Finite negative m e =>
      let s := decimal (Npos m) in
      let k := Z.of_nat (List.length s) in
      let n := k + e in
      sign_chars negative ++
      (if (k <=? n) && (n <=? 21) then s ++ zeros (Z.to_nat (n - k))
       else if (0 <? n) && (n <=? 21)
            then firstn (Z.to_nat n) s ++ chr "." ++ skipn (Z.to_nat n) s
       else if (-6 <? n) && (n <=? 0)
            then chr "0." ++ zeros (Z.to_nat (- n)) ++ s
       else
         let expo := (if n - 1 <? 0 then chr "-" else chr "+")
                     ++ decimal (Z.to_N (Z.abs (n - 1))) in
         match s with
         | [d] => [d] ++ chr "e" ++ expo
         | d :: ds => [d] ++ chr "." ++ ds ++ chr "e" ++ expo
         | [] => []
         end)
  end.

Definition number_to_string (x : number) : string :=
  string_of_list_ascii (number_to_chars x).

(** An optional sign: whether it is a minus, and the text after it. *)
Definition read_sign (s : chars) : bool * chars :=
  match s with
  | c :: s' =>
      if Ascii.eqb c "-" then (true, s')
      else if Ascii.eqb c "+" then (false, s')
      else (false, s)
  | [] => (false, [])
  end.

Fixpoint starts_with (p s : chars) : bool :=
  match p, s with
  | [], _ => true
  | a :: p', b :: s' => Ascii.eqb a b && starts_with p' s'
  | _ :: _, [] => false
  end.

(** [parseInt] on a text, called with one argument: radix 10 unless the
    text announces radix 16. *)
Definition parse_int_chars (s : chars) : number :=
  let '(negative, s1) := read_sign (trim_start s) in
  let '(radix, s2) :=
    match s1 with
    | z :: x :: s' =>
        if Ascii.eqb z "0" && (Ascii.eqb x "x" || Ascii.eqb x "X")
        then (16%N, s') else (10%N, s1)
    | _ => (10%N, s1)
    end in
  let '(v, count, _) := read_digits radix 0 0 s2 in
  match count with
  | O => NaN
  | S _ => mk_number negative v 0
  end.

(** The exponent part of a decimal literal, when one is there. *)
Definition read_exponent (s : chars) : Z :=
  match s with
  | c :: s' =>
      if Ascii.eqb c "e" || Ascii.eqb c "E" then
        let '(negative, s1) := read_sign s' in
        let '(v, count, _) := read_digits 10 0 0 s1 in
        match count with
        | O => 0
        | S _ => if negative then - Z.of_N v else Z.of_N v
        end
      else 0
  | [] => 0
  end.

(** [parseFloat] on a text: the longest prefix that is a [StrDecimalLiteral]. *)
Definition parse_float_chars (s : chars) : number :=
  let '(negative, s1) := read_sign (trim_start s) in
  if starts_with (chr "Infinity") s1 then Infinity negative
  else
    let '(i, ci, r1) := read_digits 10 0 0 s1 in
    if starts_with (chr ".") r1 then
      let '(f, cf, r3) := read_digits 10 i 0 (tl r1) in
      match ci, cf with
      | O, O => NaN
      | _, _ => mk_number negative f (read_exponent r3 - Z.of_nat cf)
      end
    else
      match ci with
      | O => NaN
      | S _ => mk_number negative i (read_exponent r1)
      end.

Definition parse_int_string (s : string) : number := parse_int_chars (chr s).
Definition parse_float_string (s : string) : number := parse_float_chars (chr s).

(** ** Native data *)

Inductive value : Type :=
| VUndefined
| VNull
| VBool (b : bool)
| VNum (x : number)
| VStr (s : string)
| VArr (items : list value)
| VObj (constructor_name : string) (fields : list (string * value)).

(** Own properties of an object, kept in insertion order. *)
Section Fields.
Context {A : Type}.

Fixpoint own (fs : list (string * A)) (name : string) : option A :=
  match fs with
  | [] => None
  | (k, a) :: fs' => if String.eqb k name then Some a else own fs' name
  end.

Definition has_own (fs : list (string * A)) (name : string) : bool :=
  match own fs name with Some _ => true | None => false end.

Fixpoint assign (fs : list (string * A)) (name : string) (a : A)
  : list (string * A) :=
  match fs with
  | [] => [(name, a)]
  | (k, b) :: fs' =>
      if String.eqb k name then (k, a) :: fs' else (k, b) :: assign fs' name a
  end.

Definition keys (fs : list (string * A)) : list string := map fst fs.
End Fields.

(** The names every object inherits from [Object.prototype]. *)
Definition object_prototype_names : list string :=
  ["constructor"; "toString"; "toLocaleString"; "valueOf"; "hasOwnProperty";
   "isPrototypeOf"; "propertyIsEnumerable"; "__proto__"; "__defineGetter__";
   "__defineSetter__"; "__lookupGetter__"; "__lookupSetter__"].

Definition inherited (name : string) : bool :=
  existsb (String.eqb name) object_prototype_names.

(** [o[name] = a] on an object without setters of its own: the inherited
    [__proto__] setter does not create an own property. *)
Definition js_set {A : Type} (fs : list (string * A)) (name : string) (a : A)
  : list (string * A) :=
  if String.eqb name "__proto__" then fs else assign fs name a.

(** [value[name]] on native data.  An inherited name yields a function
    object; so do the properties of arrays and strings the model does not
    list. *)
Definition js_get (v : value) (name : string) : outcome value :=
  match v with
  | VUndefined | VNull => Throw TypeError
  | VObj _ fs =>
      match own fs name with
      | Some x => Ok x
      | None => if inherited name then Unmodelled else Ok VUndefined
      end
  | VArr _ | VStr _ => Unmodelled
  | VBool _ | VNum _ =>
      if inherited name
         || existsb (String.eqb name) ["toFixed"; "toExponential"; "toPrecision"]
      then Unmodelled else Ok VUndefined
  end.

Definition bool_to_string (b : bool) : string := if b then "true" else "false".

(** The abstract operation [ToString].  An array joins its elements with
    commas; an object answers through [Object.prototype.toString] unless an
    own [toString] property, which is data and cannot be called, hides it. *)
Fixpoint to_string (v : value) : outcome string :=
  match v with
  | VUndefined => Ok "undefined"
  | VNull => Ok "null"
  | VBool b => Ok (bool_to_string b)
  | VNum x => Ok (number_to_string x)
  | VStr s => Ok s
  | VArr l =>
      (fix join (l : list value) : outcome string :=
         match l with
         | [] => Ok ""
         | x :: l' =>
             a <- match x with
                  | VUndefined | VNull => Ok ""
                  | _ => to_string x
                  end ;;
             match l' with
             | [] => Ok a
             | _ :: _ => b <- join l' ;; Ok (a ++ "," ++ b)%string
             end
         end) l
  | VObj _ fs => if has_own fs "toString" then Throw TypeError
                 else Ok "[object Object]"
  end.

(** The method call [v.toString()]. *)
Definition call_toString (v : value) : outcome string :=
  match v with
  | VUndefined | VNull => Throw TypeError
  | _ => to_string v
  end.

Definition parseInt (v : value) : outcome number :=
  s <- to_string v ;; Ok (parse_int_string s).

Definition parseFloat (v : value) : outcome number :=
  s <- to_string v ;; Ok (parse_float_string s).

(** Constructors: [new c()] gives an object with the properties the
    constructor sets. *)
Record ctor : Type := {
  ctor_name : string;
  ctor_fields : list (string * value)
}.

Definition Object_ctor : ctor := {| ctor_name := "Object"; ctor_fields := [] |}.

Definition new (c : ctor) : value := VObj (ctor_name c) (ctor_fields c).

(** ** Element trees *)

Inductive node : Type :=
| Element (tagName : string) (childNodes : list node)
| Text (data : string).

(** [node.tagName]; a text node has none. *)
Definition tagName_of (n : node) : option string :=
  match n with
  | Element t _ => Some t
  | Text _ => None
  end.

(** A tag name used as a property key: [undefined] becomes ["undefined"]. *)
Definition key_of (n : node) : string :=
  match tagName_of n with
  | Some t => t
  | None => "undefined"
  end.

Definition childNodes_of (n : node) : list node :=
  match n with
  | Element _ cs => cs
  | Text _ => []
  end.

Fixpoint textContent (n : node) : string :=
  match n with
  | Text s => s
  | Element _ cs =>
      (fix cat (cs : list node) : string :=
         match cs with
         | [] => ""
         | c :: cs' => (textContent c ++ cat cs')%string
         end) cs
  end.

(** ** Templates *)

Inductive schema : Type :=
| TObject (properties : list (string * schema)) (objectType : ctor)
| TArray (itemName : string) (itemTemplate : schema)
| TBoolean
| TInteger
| TNumber
| TString.

(** [v === w] where one side is a primitive; two objects are compared by
    identity, which plain data do not have. *)
Definition strict_eq (v w : value) : bool :=
  match v, w with
  | VUndefined, VUndefined | VNull, VNull => true
  | VBool a, VBool b => Bool.eqb a b
  | VNum x, VNum y => number_strict_eq x y
  | VStr a, VStr b => String.eqb a b
  | _, _ => false
  end.

(** The [valueParser] of each value template; [None] for the other two. *)
Definition valueParser (t : schema) : option (value -> outcome value) :=
  match t with
  | TBoolean =>
      Some (fun v =>
        if strict_eq v (VStr "true") || strict_eq v (VBool true)
        then Ok (VBool true)
        else x <- parseInt v ;; Ok (VBool (number_strict_eq x (of_Z 1))))
  | TInteger => Some (fun v => x <- parseInt v ;; Ok (VNum x))
  | TNumber => Some (fun v => x <- parseFloat v ;; Ok (VNum x))
  | TString => Some (fun v => s <- call_toString v ;; Ok (VStr s))
  | TObject _ _ | TArray _ _ => None
  end.

(** [this.valueParser(v)]. *)
Definition coerce (t : schema) (v : value) : outcome value :=
  match valueParser t with
  | Some parse => parse v
  | None => Throw TypeError
  end.

(** ** Intermediate objects *)

Inductive dentity : Type :=
| DObject (template : schema) (properties : list (string * dentity))
| DArray (template : schema) (items : list dentity)
| DValue (template : schema) (value : value).

(** [TObject.fromJs], [TArray.fromJs] and [TValue.fromJs]. *)
Fixpoint fromJs (t : schema) (value : value) : outcome dentity :=
  match t with
  | TObject props _ =>
      ps <- (fix each (l : list (string * schema))
                      (properties : list (string * dentity))
               : outcome (list (string * dentity)) :=
               match l with
               | [] => Ok properties
               | (name, child) :: l' =>
                   x <- js_get value name ;;
                   d <- fromJs child x ;;
                   each l' (js_set properties name d)
               end) props [] ;;
      Ok (DObject t ps)
  | TArray _ item =>
      match value with
      | VArr l => ds <- mapM (fromJs item) l ;; Ok (DArray t ds)
      | _ => Throw TypeError
      end
  | TBoolean | TInteger | TNumber | TString =>
      x <- coerce t value ;; Ok (DValue t x)
  end.

(** [TObject.fromXml], [TArray.fromXml] and [TValue.fromXml].  In the object
    case both [properties] and [this.properties] are plain objects, so a
    look-up of an inherited name finds a function. *)
Fixpoint fromXml (t : schema) (value : node) : outcome dentity :=
  match t with
  | TObject props _ =>
      ps <- (fix each (l : list node) (properties : list (string * dentity))
               : outcome (list (string * dentity)) :=
               match l with
               | [] => Ok properties
               | n :: l' =>
                   let name := key_of n in
                   if negb (has_own properties name || inherited name) then
                     match (fix find (ps : list (string * schema))
                              : option (outcome dentity) :=
                              match ps with
                              | [] => None
                              | (k, child) :: ps' =>
                                  if String.eqb k name
                                  then Some (fromXml child n)
                                  else find ps'
                              end) props with
                     | Some r => d <- r ;; each l' (js_set properties name d)
                     | None =>
                         if inherited name then Throw TypeError
                         else each l' properties
                     end
                   else each l' properties
               end) (childNodes_of value) [] ;;
      Ok (DObject t ps)
  | TArray itemName item =>
      ds <- mapM (fromXml item)
              (filter (fun element =>
                         match tagName_of element with
                         | Some tag => String.eqb tag itemName
                         | None => false
                         end) (childNodes_of value)) ;;
      Ok (DArray t ds)
  | TBoolean | TInteger | TNumber | TString =>
      x <- coerce t (VStr (textContent value)) ;; Ok (DValue t x)
  end.

(** [DObject.toJs], [DArray.toJs] and [DValue.toJs]. *)
Fixpoint toJs (d : dentity) : outcome value :=
  match d with
  | DObject t props =>
      match t with
      | TObject _ objectType =>
          match new objectType with
          | VObj c fs =>
              fs' <- (fix each (l : list (string * dentity))
                               (result : list (string * value))
                        : outcome (list (string * value)) :=
                        match l with
                        | [] => Ok result
                        | (name, child) :: l' =>
                            x <- toJs child ;;
                            each l' (js_set result name x)
                        end) props fs ;;
              Ok (VObj c fs')
          | _ => Throw TypeError
          end
      | _ => Throw TypeError
      end
  | DArray _ items =>
      xs <- (fix each (l : list dentity) : outcome (list value) :=
               match l with
               | [] => Ok []
               | i :: l' => x <- toJs i ;; xs <- each l' ;; Ok (x :: xs)
               end) items ;;
      Ok (VArr xs)
  | DValue _ v => Ok v
  end.

(** ** Creating elements *)

(** The [Name] production of XML on code units below 256. *)
Definition is_name_start (c : ascii) : bool :=
  let n := code c in
  ((n =? 58) || (n =? 95)
   || ((65 <=? n) && (n <=? 90)) || ((97 <=? n) && (n <=? 122))
   || ((192 <=? n) && (n <=? 214)) || ((216 <=? n) && (n <=? 246))
   || (248 <=? n))%N.

Definition is_name_char (c : ascii) : bool :=
  let n := code c in
  (is_name_start c || (n =? 45) || (n =? 46) || (n =? 183)
   || ((48 <=? n) && (n <=? 57)))%N.

Definition is_name (s : string) : bool :=
  match chr s with
  | c :: cs => is_name_start c && forallb is_name_char cs
  | [] => false
  end.

(** [document.createElement(name)]: an element without children. *)
Definition createElement (name : string) : outcome node :=
  if is_name name then Ok (Element name []) else Throw InvalidCharacterError.

Definition appendChild (parent child : node) : node :=
  match parent with
  | Element t cs => Element t (cs ++ [child])
  | Text s => Text s
  end.

(** [element.textContent = s]: the children are replaced by one text node,
    or by none when [s] is empty. *)
Definition set_textContent (element : node) (s : string) : node :=
  match element with
  | Element t _ => Element t (if String.eqb s "" then [] else [Text s])
  | Text _ => Text s
  end.

(** [DObject.toXml], [DArray.toXml] and [DValue.toXml]. *)
Fixpoint toXml (d : dentity) (name : string) : outcome node :=
  match d with
  | DObject _ props =>
      element <- createElement name ;;
      (fix each (l : list (string * dentity)) (element : node) : outcome node :=
         match l with
         | [] => Ok element
         | (name, child) :: l' =>
             c <- toXml child name ;; each l' (appendChild element c)
         end) props element
  | DArray t items =>
      element <- createElement name ;;
      (fix each (l : list dentity) (element : node) : outcome node :=
         match l with
         | [] => Ok element
         | item :: l' =>
             match t with
             | TArray itemName _ =>
                 c <- toXml item itemName ;; each l' (appendChild element c)
             | _ => Throw TypeError
             end
         end) items element
  | DValue _ v =>
      element <- createElement name ;;
      s <- call_toString v ;;
      Ok (set_textContent element s)
  end.

(** ** Worked examples *)

Definition el (t : string) (cs : list node) : node := Element t cs.
Definition txt (s : string) : node := Text s.

Definition readme_template : schema :=
  TObject [("a", TNumber); ("b", TBoolean); ("c", TArray "number" TNumber)]
          Object_ctor.

Definition readme_data : value :=
  VObj "Object" [("a", VNum (of_Z 15)); ("b", VBool true);
                 ("c", VArr [VNum (of_Z 3); VNum (of_Z 5)])].

(** ** Trees as text

    [innerHTML] of an element of an XML document and [DOMParser] are taken
    on the fragment of XML that the first one writes: elements without
    attributes, text, and references to the predefined entities.  Reading
    any other text is [Unmodelled]. *)

(** The [Char] production on code units below 256. *)
Definition is_xml_char (c : ascii) : bool :=
  let n := code c in ((n =? 9) || (n =? 10) || (n =? 13) || (32 <=? n))%N.

Definition no_colon (s : chars) : bool := negb (existsb (Ascii.eqb ":") s).

(** A local name that can be written out: a [Name] without colon. *)
Definition is_tag_name (s : string) : bool := is_name s && no_colon (chr s).

Definition escape_char (c : ascii) : chars :=
  if Ascii.eqb c "&" then chr "&amp;"
  else if Ascii.eqb c "<" then chr "&lt;"
  else if Ascii.eqb c ">" then chr "&gt;"
  else [c].

Definition escape (s : chars) : chars := flat_map escape_char s.

(** The XML serialization of a node, well-formedness required. *)
Fixpoint serialize (n : node) : outcome chars :=
  match n with
  | Text s =>
      if forallb is_xml_char (chr s) then Ok (escape (chr s))
      else Throw InvalidStateError
  | Element tag cs =>
      if is_tag_name tag then
        match cs with
        | [] => Ok (chr "<" ++ chr tag ++ chr "/>")
        | _ :: _ =>
            inner <- (fix all (cs : list node) : outcome chars :=
                        match cs with
                        | [] => Ok []
                        | c :: cs' =>
                            a <- serialize c ;; b <- all cs' ;; Ok (a ++ b)
                        end) cs ;;
            Ok (chr "<" ++ chr tag ++ chr ">" ++ inner
                ++ chr "</" ++ chr tag ++ chr ">")
        end
      else Throw InvalidStateError
  end.

(** [DEntity.toXmlString]: the markup of the one child of a fresh root. *)
Definition toXmlString (d : dentity) (rootName : string) : outcome string :=
  rootElement <- createElement "root" ;;
  e <- toXml d rootName ;;
  inner <- serialize e ;;
  Ok (string_of_list_ascii inner).

Definition CR : ascii := ascii_of_N 13.
Definition LF : ascii := ascii_of_N 10.

(** End-of-line handling of an XML processor. *)
Fixpoint normalize_newlines (s : chars) : chars :=
  match s with
  | [] => []
  | c :: s' =>
      if Ascii.eqb c CR then
        LF :: match s' with
              | d :: s'' =>
                  if Ascii.eqb d LF then normalize_newlines s''
                  else normalize_newlines s'
              | [] => []
              end
      else c :: normalize_newlines s'
  end.

Inductive token : Type :=
| TOpen (name : string)
| TClose (name : string)
| TEmpty (name : string)
| TChars (text : string).

(** Where the reader is; what it has collected is kept in reverse. *)
Inductive mode : Type :=
| Content (text : chars)
| Reference (text : chars) (name : chars)
| TagStart
| OpenName (name : chars)
| OpenSlash (name : chars)
| CloseName (name : chars).

Definition flush (text : chars) (ts : list token) : list token :=
  match text with
  | [] => ts
  | _ :: _ => TChars (string_of_list_ascii (rev text)) :: ts
  end.

Definition entity (name : string) : option ascii :=
  if String.eqb name "lt" then Some "<"%char
  else if String.eqb name "gt" then Some ">"%char
  else if String.eqb name "amp" then Some "&"%char
  else if String.eqb name "quot" then Some (ascii_of_N 34)
  else if String.eqb name "apos" then Some "'"%char
  else None.

Definition local_start (c : ascii) : bool :=
  is_name_start c && negb (Ascii.eqb c ":").

Definition local_char (c : ascii) : bool :=
  is_name_char c && negb (Ascii.eqb c ":").

Fixpoint tokenize (m : mode) (s : chars) : outcome (list token) :=
  match s with
  | [] =>
      match m with
      | Content text => Ok (flush text [])
      | _ => Unmodelled
      end
  | c :: s' =>
      match m with
      | Content text =>
          if Ascii.eqb c "<" then
            ts <- tokenize TagStart s' ;; Ok (flush text ts)
          else if Ascii.eqb c "&" then tokenize (Reference text []) s'
          else if Ascii.eqb c ">" && starts_with (chr "]]") text then Unmodelled
          else if is_xml_char c then tokenize (Content (c :: text)) s'
          else Unmodelled
      | Reference text name =>
          if Ascii.eqb c ";" then
            match entity (string_of_list_ascii (rev name)) with
            | Some x => tokenize (Content (x :: text)) s'
            | None => Unmodelled
            end
          else tokenize (Reference text (c :: name)) s'
      | TagStart =>
          if Ascii.eqb c "/" then tokenize (CloseName []) s'
          else if local_start c then tokenize (OpenName [c]) s'
          else Unmodelled
      | OpenName name =>
          if Ascii.eqb c ">" then
            ts <- tokenize (Content []) s' ;;
            Ok (TOpen (string_of_list_ascii (rev name)) :: ts)
          else if Ascii.eqb c "/" then tokenize (OpenSlash name) s'
          else if local_char c then tokenize (OpenName (c :: name)) s'
          else Unmodelled
      | OpenSlash name =>
          if Ascii.eqb c ">" then
            ts <- tokenize (Content []) s' ;;
            Ok (TEmpty (string_of_list_ascii (rev name)) :: ts)
          else Unmodelled
      | CloseName name =>
          if Ascii.eqb c ">" then
            if is_tag_name (string_of_list_ascii (rev name)) then
              ts <- tokenize (Content []) s' ;;
              Ok (TClose (string_of_list_ascii (rev name)) :: ts)
            else Unmodelled
          else if local_char c then tokenize (CloseName (c :: name)) s'
          else Unmodelled
      end
  end.

(** The nodes of a token list; [stack] holds the open elements with the
    children read before each, [cur] the children of the innermost one. *)
Fixpoint build (ts : list token) (stack : list (string * list node))
    (cur : list node) : outcome (list node) :=
  match ts with
  | [] =>
      match stack with
      | [] => Ok cur
      | _ :: _ => Unmodelled
      end
  | TOpen n :: ts' => build ts' ((n, cur) :: stack) []
  | TEmpty n :: ts' => build ts' stack (cur ++ [Element n []])
  | TChars s :: ts' => build ts' stack (cur ++ [Text s])
  | TClose n :: ts' =>
      match stack with
      | (m, parent) :: stack' =>
          if String.eqb m n then build ts' stack' (parent ++ [Element n cur])
          else Unmodelled
      | [] => Unmodelled
      end
  end.

(** [new DOMParser().parseFromString(string, "text/xml").childNodes[0]]
    for a document that consists of its root element. *)
Definition parseFromString (s : string) : outcome node :=
  ts <- tokenize (Content []) (normalize_newlines (chr s)) ;;
  ns <- build ts [] [] ;;
  match ns with
  | [Element t cs] => Ok (Element t cs)
  | _ => Unmodelled
  end.

(** [TType.fromXmlString]. *)
Definition fromXmlString (t : schema) (s : string) : outcome dentity :=
  n <- parseFromString s ;; fromXml t n.

(** Text that comes back from the parser as it went in: characters of XML
    other than the carriage return. *)
Definition clean_char (c : ascii) : bool :=
  is_xml_char c && negb (Ascii.eqb c CR).

Definition clean_string (s : string) : bool := forallb clean_char (chr s).

(** The trees [toXml] makes: an element has no child, or one non-empty
    text, or elements only. *)
Fixpoint rendered (n : node) : Prop :=
  match n with
  | Text _ => False
  | Element tag cs =>
      is_tag_name tag = true /\
      match cs with
      | [Text s] => s <> "" /\ clean_string s = true
      | _ =>
          (fix all (cs : list node) : Prop :=
             match cs with
             | [] => True
             | c :: cs' => rendered c /\ all cs'
             end) cs
      end
  end.

Fixpoint tokens (n : node) : list token :=
  match n with
  | Text s => [TChars s]
  | Element tag [] => [TEmpty tag]
  | Element tag cs =>
      TOpen tag ::
      (fix all (cs : list node) : list token :=
         match cs with
         | [] => []
         | c :: cs' => tokens c ++ all cs'
         end) cs ++ [TClose tag]
  end.

Definition no_cr (s : chars) : bool :=
  forallb (fun c => negb (Ascii.eqb c CR)) s.

(** ** Rendering in a store

    To speak of the identity of what rendering creates, [toJs] and [toXml]
    are given a second time over a store of cells.  Objects, arrays,
    documents and tree nodes live in cells and are held by reference;
    primitives are held by value.  A constructor builds its initial
    properties afresh at each call. *)

Definition addr : Type := nat.

Inductive ref : Type :=
| RUndefined
| RNull
| RBool (b : bool)
| RNum (x : number)
| RStr (s : string)
| RObj (a : addr).

Inductive cell : Type :=
| CObject (constructor_name : string) (fields : list (string * ref))
| CArray (items : list ref)
| CDocument
| CElement (document : addr) (tagName : string) (childNodes : list addr)
| CText (document : addr) (data : string)
| CDObject (template : schema) (properties : list (string * addr))
| CDArray (template : schema) (items : list addr)
| CDValue (template : schema) (value : ref).

Definition store : Type := list cell.

Fixpoint store_set (h : store) (a : addr) (c : cell) : store :=
  match h, a with
  | [], _ => []
  | _ :: h', O => c :: h'
  | x :: h', S a' => x :: store_set h' a' c
  end.

(** Fresh cells for native data, the parts before the whole. *)
Fixpoint alloc_value (v : value) (h : store) {struct v} : ref * store :=
  match v with
  | VUndefined => (RUndefined, h)
  | VNull => (RNull, h)
  | VBool b => (RBool b, h)
  | VNum x => (RNum x, h)
  | VStr s => (RStr s, h)
  | VArr vs =>
      let '(rs, h') :=
        (fix all (vs : list value) (h : store) {struct vs}
           : list ref * store :=
           match vs with
           | [] => ([], h)
           | v :: vs' =>
               let '(r, h1) := alloc_value v h in
               let '(rs, h2) := all vs' h1 in (r :: rs, h2)
           end) vs h in
      (RObj (List.length h'), h' ++ [CArray rs])
  | VObj cn fs =>
      let '(frs, h') :=
        (fix all (fs : list (string * value)) (h : store) {struct fs}
           : list (string * ref) * store :=
           match fs with
           | [] => ([], h)
           | (k, v) :: fs' =>
               let '(r, h1) := alloc_value v h in
               let '(frs, h2) := all fs' h1 in ((k, r) :: frs, h2)
           end) fs h in
      (RObj (List.length h'), h' ++ [CObject cn frs])
  end.

(** [DObject.toJs], [DArray.toJs] and [DValue.toJs] over a store.  A value
    node holds a primitive; were it to hold an object, both results would
    hold the same one. *)
Fixpoint toJs_store (d : dentity) (h : store) : outcome (ref * store) :=
  match d with
  | DObject t props =>
      match t with
      | TObject _ objectType =>
          match alloc_value (new objectType) h with
          | (RObj result, h0) =>
              (fix each (l : list (string * dentity)) (h : store)
                 : outcome (ref * store) :=
                 match l with
                 | [] => Ok (RObj result, h)
                 | (name, child) :: l' =>
                     xh <- toJs_store child h ;;
                     match nth_error (snd xh) result with
                     | Some (CObject cn fs) =>
                         each l' (store_set (snd xh) result
                                    (CObject cn (js_set fs name (fst xh))))
                     | _ => Throw TypeError
                     end
                 end) props h0
          | _ => Throw TypeError
          end
      | _ => Throw TypeError
      end
  | DArray _ items =>
      let result := List.length h in
      (fix each (l : list dentity) (h : store) : outcome (ref * store) :=
         match l with
         | [] => Ok (RObj result, h)
         | i :: l' =>
             xh <- toJs_store i h ;;
             match nth_error (snd xh) result with
             | Some (CArray rs) =>
                 each l' (store_set (snd xh) result (CArray (rs ++ [fst xh])))
             | _ => Throw TypeError
             end
         end) items (h ++ [CArray []])
  | DValue _ v =>
      match v with
      | VArr _ | VObj _ _ => Unmodelled
      | _ => Ok (fst (alloc_value v h), h)
      end
  end.

(** [document = document || new Document()] followed by
    [document.createElement(name)]. *)
Definition createElement_store (name : string) (document : option addr)
    (h : store) : outcome (addr * addr * store) :=
  let '(doc, h0) :=
    match document with
    | Some a => (a, h)
    | None => (List.length h, h ++ [CDocument])
    end in
  if is_name name
  then Ok (doc, List.length h0, h0 ++ [CElement doc name []])
  else Throw InvalidCharacterError.

Definition appendChild_store (h : store) (parent child : addr) : outcome store :=
  match nth_error h parent with
  | Some (CElement doc t kids) =>
      Ok (store_set h parent (CElement doc t (kids ++ [child])))
  | _ => Throw TypeError
  end.

(** [DObject.toXml], [DArray.toXml] and [DValue.toXml] over a store. *)
Fixpoint toXml_store (d : dentity) (name : string) (document : option addr)
    (h : store) : outcome (addr * store) :=
  match d with
  | DObject _ props =>
      deh <- createElement_store name document h ;;
      let '(doc, element, h0) := deh in
      (fix each (l : list (string * dentity)) (h : store)
         : outcome (addr * store) :=
         match l with
         | [] => Ok (element, h)
         | (name, child) :: l' =>
             ch <- toXml_store child name (Some doc) h ;;
             h' <- appendChild_store (snd ch) element (fst ch) ;;
             each l' h'
         end) props h0
  | DArray t items =>
      deh <- createElement_store name document h ;;
      let '(doc, element, h0) := deh in
      (fix each (l : list dentity) (h : store) : outcome (addr * store) :=
         match l with
         | [] => Ok (element, h)
         | item :: l' =>
             match t with
             | TArray itemName _ =>
                 ch <- toXml_store item itemName (Some doc) h ;;
                 h' <- appendChild_store (snd ch) element (fst ch) ;;
                 each l' h'
             | _ => Throw TypeError
             end
         end) items h0
  | DValue _ v =>
      deh <- createElement_store name document h ;;
      let '(doc, element, h0) := deh in
      s <- call_toString v ;;
      if String.eqb s "" then Ok (element, h0)
      else
        Ok (element,
            store_set (h0 ++ [CText doc s]) element
              (CElement doc name [List.length h0]))
  end.

(** [denotes_on P h r v]: in the store [h] the reference [r] stands for the
    data [v], and every cell this reading visits has its address in [P]. *)
Fixpoint denotes_on (P : addr -> Prop) (h : store) (r : ref) (v : value) : Prop :=
  match v with
  | VUndefined => r = RUndefined
  | VNull => r = RNull
  | VBool b => r = RBool b
  | VNum x => r = RNum x
  | VStr s => r = RStr s
  | VArr vs =>
      exists a rs, r = RObj a /\ P a /\ nth_error h a = Some (CArray rs) /\
        (fix all (rs : list ref) (vs : list value) {struct vs} : Prop :=
           match rs, vs with
           | [], [] => True
           | r :: rs', v :: vs' => denotes_on P h r v /\ all rs' vs'
           | _, _ => False
           end) rs vs
  | VObj cn fs =>
      exists a frs, r = RObj a /\ P a /\ nth_error h a = Some (CObject cn frs) /\
        (fix all (frs : list (string * ref)) (fs : list (string * value))
                 {struct fs} : Prop :=
           match frs, fs with
           | [], [] => True
           | (k, r) :: frs', (k', v) :: fs' =>
               k = k' /\ denotes_on P h r v /\ all frs' fs'
           | _, _ => False
           end) frs fs
  end.

(** [node_on P doc h a n]: the cell at [a] is the root of the tree [n],
    made of cells with addresses in [P] that belong to the document [doc]. *)
Fixpoint node_on (P : addr -> Prop) (doc : addr) (h : store) (a : addr)
    (n : node) : Prop :=
  match n with
  | Text s => P a /\ nth_error h a = Some (CText doc s)
  | Element tag cs =>
      P a /\ exists kids, nth_error h a = Some (CElement doc tag kids) /\
        (fix all (kids : list addr) (cs : list node) {struct cs} : Prop :=
           match kids, cs with
           | [], [] => True
           | k :: kids', c :: cs' => node_on P doc h k c /\ all kids' cs'
           | _, _ => False
           end) kids cs
  end.

Definition between (lo hi : nat) (a : addr) : Prop := (lo <= a < hi)%nat.

(** The second store keeps every cell of the first. *)
Definition extends (h h' : store) : Prop := exists ext, h' = h ++ ext.

(** Every value node holds a primitive. *)
Fixpoint scalars (d : dentity) : Prop :=
  match d with
  | DObject _ props =>
      (fix all (l : list (string * dentity)) : Prop :=
         match l with
         | [] => True
         | (_, child) :: l' => scalars child /\ all l'
         end) props
  | DArray _ items =>
      (fix all (l : list dentity) : Prop :=
         match l with
         | [] => True
         | i :: l' => scalars i /\ all l'
         end) items
  | DValue _ v =>
      match v with
      | VArr _ | VObj _ _ => False
      | _ => True
      end
  end.

Fixpoint alloc_values (vs : list value) (h : store) {struct vs}
  : list ref * store :=
  match vs with
  | [] => ([], h)
  | v :: vs' =>
      let '(r, h1) := alloc_value v h in
      let '(rs, h2) := alloc_values vs' h1 in (r :: rs, h2)
  end.

Fixpoint alloc_fields (fs : list (string * value)) (h : store) {struct fs}
  : list (string * ref) * store :=
  match fs with
  | [] => ([], h)
  | (k, v) :: fs' =>
      let '(r, h1) := alloc_value v h in
      let '(frs, h2) := alloc_fields fs' h1 in ((k, r) :: frs, h2)
  end.

Section StoreLoops.
Variable result : addr.

Fixpoint toJs_store_each (l : list (string * dentity)) (h : store)
  : outcome (ref * store) :=
  match l with
  | [] => Ok (RObj result, h)
  | (name, child) :: l' =>
      xh <- toJs_store child h ;;
      match nth_error (snd xh) result with
      | Some (CObject cn fs) =>
          toJs_store_each l' (store_set (snd xh) result
                                (CObject cn (js_set fs name (fst xh))))
      | _ => Throw TypeError
      end
  end.

Fixpoint toJs_store_items (l : list dentity) (h : store) : outcome (ref * store) :=
  match l with
  | [] => Ok (RObj result, h)
  | i :: l' =>
      xh <- toJs_store i h ;;
      match nth_error (snd xh) result with
      | Some (CArray rs) =>
          toJs_store_items l' (store_set (snd xh) result (CArray (rs ++ [fst xh])))
      | _ => Throw TypeError
      end
  end.
End StoreLoops.

(** Rendering in the store gives a fresh copy of what [toJs] gives. *)
Definition store_faithful (d : dentity) : Prop :=
  scalars d -> forall v, toJs d = Ok v ->
  forall h, exists r h',
    toJs_store d h = Ok (r, h') /\ extends h h' /\
    denotes_on (between (List.length h) (List.length h')) h' r v.

Section XmlLoops.
Variables (doc element : addr) (t : schema).

Fixpoint toXml_store_props (l : list (string * dentity)) (h : store)
  : outcome (addr * store) :=
  match l with
  | [] => Ok (element, h)
  | (name, child) :: l' =>
      ch <- toXml_store child name (Some doc) h ;;
      h' <- appendChild_store (snd ch) element (fst ch) ;;
      toXml_store_props l' h'
  end.

Fixpoint toXml_store_items (l : list dentity) (h : store)
  : outcome (addr * store) :=
  match l with
  | [] => Ok (element, h)
  | item :: l' =>
      match t with
      | TArray itemName _ =>
          ch <- toXml_store item itemName (Some doc) h ;;
          h' <- appendChild_store (snd ch) element (fst ch) ;;
          toXml_store_items l' h'
      | _ => Throw TypeError
      end
  end.
End XmlLoops.

(** The document an element is created in. *)
Definition document_of (document : option addr) (h : store) : addr :=
  match document with
  | Some a => a
  | None => List.length h
  end.

(** Rendering a tree in the store gives a fresh copy of what [toXml]
    gives, in the given document or in a new one. *)
Definition xml_faithful (d : dentity) : Prop :=
  forall name n, toXml d name = Ok n ->
  forall document h, exists a h',
    toXml_store d name document h = Ok (a, h') /\ extends h h' /\
    node_on (between (List.length h) (List.length h')) (document_of document h)
            h' a n /\
    (document = None -> nth_error h' (List.length h) = Some CDocument).

(** Field lists that stand for one another, key by key. *)
Definition fields_on (P : addr -> Prop) (h : store)
    (frs : list (string * ref)) (fs : list (string * value)) : Prop :=
  Forall2 (fun kr kv => fst kr = fst kv /\ denotes_on P h (snd kr) (snd kv))
          frs fs.

(** ** Intermediate objects in the store

    The methods once more, on intermediate objects that live in the store
    themselves: a [DObject], a [DArray] or a [DValue] is a cell that records
    its template and holds its entries or items by address; a value node
    holds its primitive.  The plain object a [DObject] keeps its properties
    in, and the array a [DArray] keeps its items in, are taken into the cell
    of the node.  A method finds its receiver by address, and reads it from
    the store each time the code reads [this]. *)

Definition scalar_ref (v : value) : option ref :=
  match v with
  | VUndefined => Some RUndefined
  | VNull => Some RNull
  | VBool b => Some (RBool b)
  | VNum x => Some (RNum x)
  | VStr s => Some (RStr s)
  | VArr _ | VObj _ _ => None
  end.

(** [held_at h a d]: the cells of [h] reached from [a] are the
    intermediate object [d]. *)
Fixpoint held_at (h : store) (a : addr) (d : dentity) : Prop :=
  match d with
  | DObject t ps =>
      exists kas, nth_error h a = Some (CDObject t kas) /\
        (fix all (kas : list (string * addr)) (ps : list (string * dentity))
                 {struct ps} : Prop :=
           match kas, ps with
           | [], [] => True
           | (k, c) :: kas', (k', d') :: ps' =>
               k = k' /\ held_at h c d' /\ all kas' ps'
           | _, _ => False
           end) kas ps
  | DArray t ds =>
      exists cs, nth_error h a = Some (CDArray t cs) /\
        (fix all (cs : list addr) (ds : list dentity) {struct ds} : Prop :=
           match cs, ds with
           | [], [] => True
           | c :: cs', d' :: ds' => held_at h c d' /\ all cs' ds'
           | _, _ => False
           end) cs ds
  | DValue t v =>
      exists r, nth_error h a = Some (CDValue t r) /\ scalar_ref v = Some r
  end.

(** Every object node holds each key once, as the properties of an object
    do. *)
Fixpoint distinct_keys (d : dentity) : Prop :=
  match d with
  | DObject _ ps =>
      NoDup (keys ps) /\
      (fix all (l : list (string * dentity)) : Prop :=
         match l with
         | [] => True
         | (_, child) :: l' => distinct_keys child /\ all l'
         end) ps
  | DArray _ ds =>
      (fix all (l : list dentity) : Prop :=
         match l with
         | [] => True
         | i :: l' => distinct_keys i /\ all l'
         end) ds
  | DValue _ _ => True
  end.

(** The number of method calls nested in one rendering. *)
Fixpoint depth (d : dentity) : nat :=
  match d with
  | DObject _ ps =>
      S ((fix most (l : list (string * dentity)) : nat :=
            match l with
            | [] => O
            | (_, child) :: l' => Nat.max (depth child) (most l')
            end) ps)
  | DArray _ ds =>
      S ((fix most (l : list dentity) : nat :=
            match l with
            | [] => O
            | i :: l' => Nat.max (depth i) (most l')
            end) ds)
  | DValue _ _ => 1%nat
  end.

Section ToJsAt.
Variable render : addr -> store -> outcome (ref * store).
Variables (self result : addr).

(** [Object.keys(this.properties).forEach(name => result[name] =
    this.properties[name].toJs())]: the keys are listed once, and each entry
    is read from the node when its turn comes. *)
Fixpoint toJs_at_each (names : list string) (h : store)
  : outcome (ref * store) :=
  match names with
  | [] => Ok (RObj result, h)
  | name :: names' =>
      match nth_error h self with
      | Some (CDObject _ properties) =>
          match own properties name with
          | Some child =>
              xh <- render child h ;;
              match nth_error (snd xh) result with
              | Some (CObject cn fs) =>
                  toJs_at_each names'
                    (store_set (snd xh) result
                       (CObject cn (js_set fs name (fst xh))))
              | _ => Throw TypeError
              end
          | None => Throw TypeError
          end
      | _ => Throw TypeError
      end
  end.

(** [this.items.map(i => i.toJs())], an index at a time. *)
Fixpoint toJs_at_items (indices : list nat) (h : store)
  : outcome (ref * store) :=
  match indices with
  | [] => Ok (RObj result, h)
  | i :: indices' =>
      match nth_error h self with
      | Some (CDArray _ items) =>
          match nth_error items i with
          | Some child =>
              xh <- render child h ;;
              match nth_error (snd xh) result with
              | Some (CArray rs) =>
                  toJs_at_items indices'
                    (store_set (snd xh) result (CArray (rs ++ [fst xh])))
              | _ => Throw TypeError
              end
          | None => Throw TypeError
          end
      | _ => Throw TypeError
      end
  end.
End ToJsAt.

(** [node.toJs()] for the node at [a].  The fuel bounds the nesting of the
    calls; [Unmodelled] is the answer when it runs out. *)
Fixpoint toJs_at (fuel : nat) (a : addr) (h : store) : outcome (ref * store) :=
  match fuel with
  | O => Unmodelled
  | S fuel' =>
      match nth_error h a with
      | Some (CDObject t _) =>
          match t with
          | TObject _ objectType =>
              match alloc_value (new objectType) h with
              | (RObj result, h0) =>
                  match nth_error h0 a with
                  | Some (CDObject _ properties) =>
                      toJs_at_each (toJs_at fuel') a result (keys properties) h0
                  | _ => Throw TypeError
                  end
              | _ => Throw TypeError
              end
          | _ => Throw TypeError
          end
      | Some (CDArray _ items) =>
          toJs_at_items (toJs_at fuel') a (List.length h)
                        (seq 0 (List.length items)) (h ++ [CArray []])
      | Some (CDValue _ r) => Ok (r, h)
      | _ => Throw TypeError
      end
  end.

(** [r.toString()] on what a value node holds. *)
Definition ref_toString (r : ref) : outcome string :=
  match r with
  | RUndefined | RNull => Throw TypeError
  | RBool b => Ok (bool_to_string b)
  | RNum x => Ok (number_to_string x)
  | RStr s => Ok s
  | RObj _ => Unmodelled
  end.

Section ToXmlAt.
Variable render : addr -> string -> option addr -> store -> outcome (addr * store).
Variables (self doc element : addr).

(** [Object.keys(this.properties).forEach(name =>
    element.appendChild(this.properties[name].toXml(name, document)))]. *)
Fixpoint toXml_at_props (names : list string) (h : store)
  : outcome (addr * store) :=
  match names with
  | [] => Ok (element, h)
  | name :: names' =>
      match nth_error h self with
      | Some (CDObject _ properties) =>
          match own properties name with
          | Some child =>
              ch <- render child name (Some doc) h ;;
              h' <- appendChild_store (snd ch) element (fst ch) ;;
              toXml_at_props names' h'
          | None => Throw TypeError
          end
      | _ => Throw TypeError
      end
  end.

(** [this.items.forEach(item =>
    element.appendChild(item.toXml(this.template.item.name, document)))]. *)
Fixpoint toXml_at_items (indices : list nat) (h : store)
  : outcome (addr * store) :=
  match indices with
  | [] => Ok (element, h)
  | i :: indices' =>
      match nth_error h self with
      | Some (CDArray t items) =>
          match nth_error items i with
          | Some child =>
              match t with
              | TArray itemName _ =>
                  ch <- render child itemName (Some doc) h ;;
                  h' <- appendChild_store (snd ch) element (fst ch) ;;
                  toXml_at_items indices' h'
              | _ => Throw TypeError
              end
          | None => Throw TypeError
          end
      | _ => Throw TypeError
      end
  end.
End ToXmlAt.

(** [node.toXml(name, document)] for the node at [a]. *)
Fixpoint toXml_at (fuel : nat) (a : addr) (name : string)
    (document : option addr) (h : store) : outcome (addr * store) :=
  match fuel with
  | O => Unmodelled
  | S fuel' =>
      match nth_error h a with
      | Some (CDObject _ _) =>
          deh <- createElement_store name document h ;;
          let '(doc, element, h0) := deh in
          match nth_error h0 a with
          | Some (CDObject _ properties) =>
              toXml_at_props (toXml_at fuel') a doc element (keys properties) h0
          | _ => Throw TypeError
          end
      | Some (CDArray _ _) =>
          deh <- createElement_store name document h ;;
          let '(doc, element, h0) := deh in
          match nth_error h0 a with
          | Some (CDArray _ items) =>
              toXml_at_items (toXml_at fuel') a doc element
                             (seq 0 (List.length items)) h0
          | _ => Throw TypeError
          end
      | Some (CDValue _ _) =>
          deh <- createElement_store name document h ;;
          let '(doc, element, h0) := deh in
          match nth_error h0 a with
          | Some (CDValue _ r) =>
              s <- ref_toString r ;;
              if String.eqb s "" then Ok (element, h0)
              else
                Ok (element,
                    store_set (h0 ++ [CText doc s]) element
                      (CElement doc name [List.length h0]))
          | _ => Throw TypeError
          end
      | _ => Throw TypeError
      end
  end.

(** ** The loops of the methods, by name

    Each function below is the body of one [forEach] or [map] of the
    methods above; the unfolding lemmas of the next part relate them. *)

Fixpoint fromJs_each (value : value) (l : list (string * schema))
    (properties : list (string * dentity)) : outcome (list (string * dentity)) :=
  match l with
  | [] => Ok properties
  | (name, child) :: l' =>
      x <- js_get value name ;;
      d <- fromJs child x ;;
      fromJs_each value l' (js_set properties name d)
  end.

Fixpoint toJs_each (l : list (string * dentity)) (result : list (string * value))
  : outcome (list (string * value)) :=
  match l with
  | [] => Ok result
  | (name, child) :: l' => x <- toJs child ;; toJs_each l' (js_set result name x)
  end.

Fixpoint fromXml_find (name : string) (n : node) (ps : list (string * schema))
  : option (outcome dentity) :=
  match ps with
  | [] => None
  | (k, child) :: ps' =>
      if String.eqb k name then Some (fromXml child n)
      else fromXml_find name n ps'
  end.

Fixpoint fromXml_each (props : list (string * schema)) (l : list node)
    (properties : list (string * dentity)) : outcome (list (string * dentity)) :=
  match l with
  | [] => Ok properties
  | n :: l' =>
      let name := key_of n in
      if negb (has_own properties name || inherited name) then
        match fromXml_find name n props with
        | Some r => d <- r ;; fromXml_each props l' (js_set properties name d)
        | None =>
            if inherited name then Throw TypeError
            else fromXml_each props l' properties
        end
      else fromXml_each props l' properties
  end.

Definition has_tag (name : string) (element : node) : bool :=
  match tagName_of element with
  | Some tag => String.eqb tag name
  | None => false
  end.

Fixpoint toXml_props (l : list (string * dentity)) (element : node) : outcome node :=
  match l with
  | [] => Ok element
  | (name, child) :: l' =>
      c <- toXml child name ;; toXml_props l' (appendChild element c)
  end.

Fixpoint toXml_items (t : schema) (l : list dentity) (element : node)
  : outcome node :=
  match l with
  | [] => Ok element
  | item :: l' =>
      match t with
      | TArray itemName _ =>
          c <- toXml item itemName ;; toXml_items t l' (appendChild element c)
      | _ => Throw TypeError
      end
  end.

(** ** Templates written as literals; templates and [undefined] *)

Definition plain_name (name : string) : Prop := name <> "__proto__".

(** A template as an object literal writes it: every key once, and none of
    them [__proto__], which a literal does not turn into a property. *)
Fixpoint literal (t : schema) : Prop :=
  match t with
  | TObject props _ =>
      NoDup (keys props) /\ Forall plain_name (keys props) /\
      (fix all (l : list (string * schema)) : Prop :=
         match l with
         | [] => True
         | (_, child) :: l' => literal child /\ all l'
         end) props
  | TArray _ item => literal item
  | TBoolean | TInteger | TNumber | TString => True
  end.



(** ** Digits and integers *)

(** The value of a text of decimal digits, continuing from [acc]. *)
Definition value_from (acc : N) (s : chars) : N :=
  fold_left (fun a c => (a * 10 + digit_val c)%N) s acc.

(** What comes after a run of digits: the end of the text or another
    character. *)
Definition ends_digits (rest : chars) : Prop :=
  match rest with
  | [] => True
  | c :: _ => is_digit c = false
  end.

(** Integers among the numbers, and those below [10 ^ 21] in magnitude,
    which [toString] prints without an exponent. *)
Definition is_integer (x : number) : Prop :=
  match x with
  | Zero _ => True
  | Finite _ _ e => 0 <= e
  | NaN | Infinity _ => False
  end.

Definition below_1e21 (x : number) : Prop :=
  match x with
  | Finite _ m e => Z.pos m * 10 ^ e < 10 ^ 21
  | _ => True
  end.

(** Printing forgets the sign of zero. *)
Definition positive_zero (x : number) : number :=
  match x with
  | Zero _ => Zero false
  | _ => x
  end.

(** ** Shapes and agreement

    [shaped int str t v]: the native value [v] has exactly the shape the
    template [t] describes, the numbers under an Integer template satisfying
    [int] and the strings under a String template [str]. *)
Section Shaped.
Variable int : number -> Prop.
Variable str : string -> Prop.

Fixpoint shaped (t : schema) (v : value) : Prop :=
  match t with
  | TObject props _ =>
      match v with
      | VObj _ fs =>
          (fix all (l : list (string * schema)) : Prop :=
             match l with
             | [] => True
             | (k, child) :: l' =>
                 match own fs k with
                 | Some x => shaped child x
                 | None => False
                 end /\ all l'
             end) props
      | _ => False
      end
  | TArray _ item =>
      match v with
      | VArr xs =>
          (fix all (l : list value) : Prop :=
             match l with
             | [] => True
             | x :: l' => shaped item x /\ all l'
             end) xs
      | _ => False
      end
  | TBoolean => exists b, v = VBool b
  | TInteger => exists x, v = VNum x /\ canonical x /\ int x
  | TNumber => exists x, v = VNum x /\ canonical x
  | TString => exists s, v = VStr s /\ str s
  end.
End Shaped.

Definition any_string (s : string) : Prop := True.

(** The numbers an Integer template produces: the integers and [NaN]. *)
Definition integer_or_nan (x : number) : Prop := x = NaN \/ is_integer x.

Definition printable_integer (x : number) : Prop :=
  x = NaN \/ (is_integer x /\ below_1e21 x).

(** Equality of numbers that takes the two zeros for one. *)
Definition same_number (x y : number) : Prop :=
  positive_zero x = positive_zero y.

Definition same_value (v r : value) : Prop :=
  match v, r with
  | VNum x, VNum y => same_number x y
  | _, _ => v = r
  end.

(** [agrees t v r]: [r] equals [v] field for field along [t], where every
    object of [r] bears the name of the constructor its template declares
    and, beside the declared fields, has what that constructor sets. *)
Fixpoint agrees (t : schema) (v r : value) : Prop :=
  match t with
  | TObject props c =>
      match v, r with
      | VObj _ fs, VObj cn gs =>
          cn = ctor_name c /\
          (fix all (l : list (string * schema)) : Prop :=
             match l with
             | [] => True
             | (k, child) :: l' =>
                 match own fs k, own gs k with
                 | Some x, Some y => agrees child x y
                 | _, _ => False
                 end /\ all l'
             end) props /\
          (forall k, ~ In k (keys props) -> own gs k = own (ctor_fields c) k)
      | _, _ => False
      end
  | TArray _ item =>
      match v, r with
      | VArr xs, VArr ys =>
          (fix all (l : list value) (m : list value) : Prop :=
             match l, m with
             | [], [] => True
             | x :: l', y :: m' => agrees item x y /\ all l' m'
             | _, _ => False
             end) xs ys
      | _, _ => False
      end
  | TBoolean | TInteger | TNumber | TString => same_value v r
  end.


(** A template whose names can be used as tags: every key and item name
    is a local name, no key is a name inherited from [Object.prototype],
    and every object declares each key once. *)
Fixpoint tree_template (t : schema) : Prop :=
  match t with
  | TObject props _ =>
      NoDup (keys props) /\
      (fix all (l : list (string * schema)) : Prop :=
         match l with
         | [] => True
         | (k, child) :: l' =>
             (is_tag_name k = true /\ inherited k = false /\
              tree_template child) /\ all l'
         end) props
  | TArray itemName item => is_tag_name itemName = true /\ tree_template item
  | TBoolean | TInteger | TNumber | TString => True
  end.

Definition clean (s : string) : Prop := clean_string s = true.

(** What [fromJs] builds is rendered by [toXml] as a tree from which
    [fromXml] builds it again. *)
Definition tree_stable (t : schema) : Prop :=
  forall v d name,
    shaped printable_integer clean t v -> fromJs t v = Ok d ->
    is_tag_name name = true ->
    exists e, toXml d name = Ok e /\ rendered e /\ fromXml t e = Ok d.

(** The text round trip, for given readings of "integer" and "string". *)
Definition text_round_trip (int : number -> Prop) (str : string -> Prop) : Prop :=
  forall t v, literal t -> shaped int str t v ->
    exists d s d' r,
      fromJs t v = Ok d /\ toXmlString d "root" = Ok s /\
      fromXmlString t s = Ok d' /\ toJs d' = Ok r /\ agrees t v r.

(** ** Inputs of the coercion rules *)

(** Texts in which no number starts after the white space and the sign. *)
Definition unparsable_integer (s : string) : bool :=
  match snd (read_sign (trim_start (chr s))) with
  | c :: _ => negb (is_digit c)
  | [] => true
  end.

Definition unparsable_number (s : string) : bool :=
  let s1 := snd (read_sign (trim_start (chr s))) in
  negb (starts_with (chr "Infinity") s1) &&
  match s1 with
  | c :: r =>
      negb (is_digit c) &&
      negb (Ascii.eqb c "." &&
            match r with d :: _ => is_digit d | [] => false end)
  | [] => true
  end.

Definition is_value_template (t : schema) : bool :=
  match t with
  | TBoolean | TInteger | TNumber | TString => true
  | TObject _ _ | TArray _ _ => false
  end.


(** ** Induction principles, and two statements that fail *)

Section SchemaInduction.
Variable P : schema -> Prop.
Hypothesis P_object : forall props c,
  Forall (fun kt => P (snd kt)) props -> P (TObject props c).
Hypothesis P_array : forall name item, P item -> P (TArray name item).
Hypothesis P_boolean : P TBoolean.
Hypothesis P_integer : P TInteger.
Hypothesis P_number : P TNumber.
Hypothesis P_string : P TString.

Fixpoint schema_induction (t : schema) : P t :=
  match t with
  | TObject props c =>
      P_object props c
        ((fix all (l : list (string * schema))
            : Forall (fun kt => P (snd kt)) l :=
            match l with
            | [] => Forall_nil _
            | kt :: l' => Forall_cons kt (schema_induction (snd kt)) (all l')
            end) props)
  | TArray name item => P_array name item (schema_induction item)
  | TBoolean => P_boolean
  | TInteger => P_integer
  | TNumber => P_number
  | TString => P_string
  end.
End SchemaInduction.

Section NodeInduction.
Variable P : node -> Prop.
Hypothesis P_element : forall tag cs, Forall P cs -> P (Element tag cs).
Hypothesis P_text : forall s, P (Text s).

Fixpoint node_induction (n : node) : P n :=
  match n with
  | Element tag cs =>
      P_element tag cs
        ((fix all (l : list node) : Forall P l :=
            match l with
            | [] => Forall_nil _
            | c :: l' => Forall_cons c (node_induction c) (all l')
            end) cs)
  | Text s => P_text s
  end.
End NodeInduction.

Section ValueInduction.
Variable P : value -> Prop.
Hypothesis P_undefined : P VUndefined.
Hypothesis P_null : P VNull.
Hypothesis P_bool : forall b, P (VBool b).
Hypothesis P_num : forall x, P (VNum x).
Hypothesis P_str : forall s, P (VStr s).
Hypothesis P_arr : forall vs, Forall P vs -> P (VArr vs).
Hypothesis P_obj : forall cn fs, Forall (fun kv => P (snd kv)) fs -> P (VObj cn fs).

Fixpoint value_induction (v : value) : P v :=
  match v with
  | VUndefined => P_undefined
  | VNull => P_null
  | VBool b => P_bool b
  | VNum x => P_num x
  | VStr s => P_str s
  | VArr vs =>
      P_arr vs ((fix all (l : list value) : Forall P l :=
                   match l with
                   | [] => Forall_nil _
                   | x :: l' => Forall_cons x (value_induction x) (all l')
                   end) vs)
  | VObj cn fs =>
      P_obj cn fs
        ((fix all (l : list (string * value)) : Forall (fun kv => P (snd kv)) l :=
            match l with
            | [] => Forall_nil _
            | kv :: l' => Forall_cons kv (value_induction (snd kv)) (all l')
            end) fs)
  end.
End ValueInduction.

Section DentityInduction.
Variable P : dentity -> Prop.
Hypothesis P_object : forall t props,
  Forall (fun kd => P (snd kd)) props -> P (DObject t props).
Hypothesis P_array : forall t items, Forall P items -> P (DArray t items).
Hypothesis P_value : forall t v, P (DValue t v).

Fixpoint dentity_induction (d : dentity) : P d :=
  match d with
  | DObject t props =>
      P_object t props
        ((fix all (l : list (string * dentity)) : Forall (fun kd => P (snd kd)) l :=
            match l with
            | [] => Forall_nil _
            | kd :: l' => Forall_cons kd (dentity_induction (snd kd)) (all l')
            end) props)
  | DArray t items =>
      P_array t items
        ((fix all (l : list dentity) : Forall P l :=
            match l with
            | [] => Forall_nil _
            | x :: l' => Forall_cons x (dentity_induction x) (all l')
            end) items)
  | DValue t v => P_value t v
  end.
End DentityInduction.

(** The statement of C4 as it is written: every rule returns on every
    input. *)
Definition coercion_is_total : Prop :=
  forall t v, is_value_template t = true -> returns (coerce t v).


(** ** Conformance, relevance and renderability *)

(** [conforms t d]: the intermediate object [d] records the template [t]
    and mirrors it.  An object node holds each key once, every key is
    declared and holds a node that conforms to the declared child; an array
    node holds nodes that conform to the item template; a value node holds a
    primitive of the type of its rule. *)
Fixpoint conforms (t : schema) (d : dentity) : Prop :=
  match d with
  | DObject t' ps =>
      t' = t /\
      match t with
      | TObject props _ =>
          NoDup (keys ps) /\ Forall plain_name (keys ps) /\
          (fix all (l : list (string * dentity)) : Prop :=
             match l with
             | [] => True
             | (k, d') :: l' =>
                 match own props k with
                 | Some child => conforms child d'
                 | None => False
                 end /\ all l'
             end) ps
      | _ => False
      end
  | DArray t' ds =>
      t' = t /\
      match t with
      | TArray _ item =>
          (fix all (l : list dentity) : Prop :=
             match l with
             | [] => True
             | d' :: l' => conforms item d' /\ all l'
             end) ds
      | _ => False
      end
  | DValue t' x =>
      t' = t /\
      match t, x with
      | TBoolean, VBool _ | TInteger, VNum _ | TNumber, VNum _
      | TString, VStr _ => True
      | _, _ => False
      end
  end.

(** The children of a tree node that [TObject.fromXml] can use: those whose
    key is declared and is not a name every object inherits. *)
Definition relevant (props : list (string * schema)) (n : node) : bool :=
  has_own props (key_of n) && negb (inherited (key_of n)).

(** [renderable d name]: every name [toXml] passes to [createElement] is a
    name, every value has a string form, and an array node with items
    records an array template. *)
Fixpoint renderable (d : dentity) (name : string) : Prop :=
  is_name name = true /\
  match d with
  | DObject _ ps =>
      (fix all (l : list (string * dentity)) : Prop :=
         match l with
         | [] => True
         | (k, child) :: l' => renderable child k /\ all l'
         end) ps
  | DArray t ds =>
      match ds with
      | [] => True
      | _ :: _ =>
          match t with
          | TArray itemName _ =>
              (fix all (l : list dentity) : Prop :=
                 match l with
                 | [] => True
                 | item :: l' => renderable item itemName /\ all l'
                 end) ds
          | _ => False
          end
      end
  | DValue _ v => returns (call_toString v)
  end.

(** A text that [parseInt] does not take for a hexadecimal literal. *)
Definition not_hex (s : chars) : bool :=
  match s with
  | z :: x :: _ =>
      negb (Ascii.eqb z "0" && (Ascii.eqb x "x" || Ascii.eqb x "X"))
  | _ => true
  end.

(** The documents of a store. *)
Definition is_document (c : cell) : bool :=
  match c with
  | CDocument => true
  | _ => false
  end.

Definition documents (h : store) : nat := List.length (filter is_document h).

(** A rendering that creates one document when it is given none, and
    none when it is given one. *)
Definition keeps_documents (d : dentity) : Prop :=
  forall name document h a h',
    toXml_store d name document h = Ok (a, h') ->
    documents h'
    = (documents h + match document with None => 1 | Some _ => 0 end)%nat.

(** [new TObject(properties, objectType)]: the constructor of the template
    is [objectType || Object]. *)
Definition TObject_new (properties : list (string * schema))
    (objectType : option ctor) : schema :=
  TObject properties
    (match objectType with
     | Some c => c
     | None => Object_ctor
     end).

(** Keys that start with a digit.  Among them are the keys the host takes
    for array indices, which it lists before the other keys of an object
    whenever they were set; the field lists of this development keep the
    order of assignment, which is the order of the host apart from them. *)
Definition leading_digit (k : string) : bool :=
  match chr k with
  | c :: _ => is_digit c
  | [] => false
  end.

(** Trees whose elements all bear names, and templates whose keys and item
    names are all names. *)
Fixpoint named (n : node) : Prop :=
  match n with
  | Text _ => True
  | Element tag cs =>
      is_name tag = true /\
      (fix all (cs : list node) : Prop :=
         match cs with
         | [] => True
         | c :: cs' => named c /\ all cs'
         end) cs
  end.

Fixpoint names_ok (t : schema) : Prop :=
  match t with
  | TObject props _ =>
      (fix all (l : list (string * schema)) : Prop :=
         match l with
         | [] => True
         | (k, child) :: l' => (is_name k = true /\ names_ok child) /\ all l'
         end) props
  | TArray itemName item => is_name itemName = true /\ names_ok item
  | TBoolean | TInteger | TNumber | TString => True
  end.

(** The keys of the children [TObject.fromXml] can use, each at its first
    occurrence, [seen] being the keys met before. *)
Fixpoint first_keys (props : list (string * schema)) (l : list node)
    (seen : list string) : list string :=
  match l with
  | [] => []
  | n :: l' =>
      if relevant props n && negb (existsb (String.eqb (key_of n)) seen)
      then key_of n :: first_keys props l' (key_of n :: seen)
      else first_keys props l' seen
  end.


(** The statement of C6 as it is written: a declared property for which
    the node has no child element is left out of the mapping. *)
Definition omission_is_absence : Prop :=
  forall props c node name,
    In name (keys props) ->
    Forall (fun n => tagName_of n <> Some name) (childNodes_of node) ->
    exists ps,
      fromXml (TObject props c) node = Ok (DObject (TObject props c) ps) /\
      own ps name = None.

(** The statement of C10 as it is written: when [fromJs] returns, the
    mapping holds every declared key. *)
Definition every_declared_key_is_filled : Prop :=
  forall props c v d,
    fromJs (TObject props c) v = Ok d ->
    exists ps,
      d = DObject (TObject props c) ps /\
      forall k, In k (keys props) -> has_own ps k = true.

(** The loop of [TObject.fromJs] with its right-hand side left open:
    [ingest name child] stands for [this.properties[name].fromJs(value[name])],
    whatever the host reads under [name] and whatever the child makes of
    it. *)
Section FromJsWith.
Variable ingest : string -> schema -> outcome dentity.

Fixpoint fromJs_each_with (l : list (string * schema))
    (properties : list (string * dentity)) : outcome (list (string * dentity)) :=
  match l with
  | [] => Ok properties
  | (name, child) :: l' =>
      d <- ingest name child ;;
      fromJs_each_with l' (js_set properties name d)
  end.
End FromJsWith.

(** The children that are elements. *)
Definition is_element (n : node) : bool :=
  match n with
  | Element _ _ => true
  | Text _ => false
  end.

(** * Properties *)

(** ** Outcomes and own properties *)

Lemma bind_Ok {A B : Type} (m : outcome A) (k : A -> outcome B) (b : B) :
  bind m k = Ok b -> exists a, m = Ok a /\ k a = Ok b.
Proof.
  destruct m as [a| |]; simpl; intros H; try discriminate.
  exists a; split; [reflexivity | exact H].
Qed.

Lemma Ok_inj {A : Type} (a b : A) : Ok a = Ok b -> a = b.
Proof. congruence. Qed.

Lemma returns_Ok {A : Type} (a : A) : returns (Ok a).
Proof. exists a; reflexivity. Qed.

Section FieldFacts.
Context {A : Type}.
Implicit Types (fs : list (string * A)) (k name : string).

Lemma own_assign_same fs name a : own (assign fs name a) name = Some a.
Proof.
  induction fs as [|[k b] fs IH]; simpl.
  - rewrite String.eqb_refl; reflexivity.
  - destruct (String.eqb k name) eqn:E; simpl; rewrite E; auto.
Qed.

Lemma own_assign_other fs name k a :
  k <> name -> own (assign fs name a) k = own fs k.
Proof.
  intros Hne; induction fs as [|[k' b] fs IH]; simpl.
  - destruct (String.eqb name k) eqn:E; [|reflexivity].
    apply String.eqb_eq in E; congruence.
  - destruct (String.eqb k' name) eqn:E; simpl.
    + apply String.eqb_eq in E; subst k'.
      destruct (String.eqb name k) eqn:E'; [|reflexivity].
      apply String.eqb_eq in E'; congruence.
    + destruct (String.eqb k' k); auto.
Qed.

Lemma own_js_set_same fs name a :
  name <> "__proto__" -> own (js_set fs name a) name = Some a.
Proof.
  intros Hne; unfold js_set.
  destruct (String.eqb name "__proto__") eqn:E.
  - apply String.eqb_eq in E; contradiction.
  - apply own_assign_same.
Qed.

Lemma own_js_set_other fs name k a :
  k <> name -> own (js_set fs name a) k = own fs k.
Proof.
  intros Hne; unfold js_set.
  destruct (String.eqb name "__proto__"); [reflexivity|].
  now apply own_assign_other.
Qed.

Lemma own_None_iff fs name : own fs name = None <-> ~ In name (keys fs).
Proof.
  induction fs as [|[k b] fs IH]; simpl; [tauto|].
  destruct (String.eqb k name) eqn:E.
  - apply String.eqb_eq in E; split; [discriminate | tauto].
  - apply String.eqb_neq in E; rewrite IH; tauto.
Qed.
End FieldFacts.

(** ** The Boolean rule *)




Lemma coerce_boolean_is_bool (v r : value) :
  coerce TBoolean v = Ok r -> exists b, r = VBool b.
Proof.
  unfold coerce; simpl.
  destruct (strict_eq v (VStr "true") || strict_eq v (VBool true)).
  - intros H; injection H as <-; eauto.
  - intros H; apply bind_Ok in H as (x & _ & H); injection H as <-; eauto.
Qed.

(** ** Primitive coercion *)

Lemma read_digits_no_digit (acc : N) (count : nat) (c : ascii) (s : chars) :
  is_digit c = false ->
  read_digits 10 acc count (c :: s) = (acc, count, c :: s).
Proof.
  intros H; simpl. unfold radix_val; simpl. rewrite H. reflexivity.
Qed.

Lemma digit_zero (c : ascii) : Ascii.eqb c "0" = true -> is_digit c = true.
Proof. intros H; apply Ascii.eqb_eq in H; subst; reflexivity. Qed.

Lemma starts_with_dot (r : chars) :
  starts_with (chr ".") r
  = match r with c :: _ => Ascii.eqb c "." | [] => false end.
Proof.
  destruct r as [|c r]; [reflexivity|].
  change (starts_with (chr ".") (c :: r)) with (Ascii.eqb "." c && true).
  rewrite andb_true_r. apply Ascii.eqb_sym.
Qed.

Lemma parse_int_unparsable (s : string) :
  unparsable_integer s = true -> parse_int_string s = NaN.
Proof.
  unfold unparsable_integer, parse_int_string, parse_int_chars.
  destruct (read_sign (trim_start (chr s))) as [negative s1]; simpl.
  destruct s1 as [|c s1]; [reflexivity|].
  intros H; apply negb_true_iff in H.
  assert (E : Ascii.eqb c "0" = false).
  { destruct (Ascii.eqb c "0") eqn:E; [|reflexivity].
    apply digit_zero in E; congruence. }
  destruct s1 as [|x s1]; rewrite ?E; simpl andb; cbv iota;
    rewrite read_digits_no_digit by assumption; reflexivity.
Qed.

Lemma parse_float_unparsable (s : string) :
  unparsable_number s = true -> parse_float_string s = NaN.
Proof.
  unfold unparsable_number, parse_float_string, parse_float_chars.
  destruct (read_sign (trim_start (chr s))) as [negative s1]; simpl snd.
  intros H; apply andb_prop in H as [Hinf H].
  apply negb_true_iff in Hinf; rewrite Hinf.
  destruct s1 as [|c r]; [reflexivity|].
  apply andb_prop in H as [Hc Hd].
  apply negb_true_iff in Hc. apply negb_true_iff in Hd.
  rewrite read_digits_no_digit by assumption.
  rewrite starts_with_dot.
  destruct (Ascii.eqb c ".") eqn:E; [|reflexivity].
  simpl in Hd. simpl tl.
  destruct r as [|d r]; [reflexivity|].
  rewrite read_digits_no_digit by assumption. reflexivity.
Qed.

Lemma coerce_text_returns (t : schema) (s : string) :
  is_value_template t = true -> returns (coerce t (VStr s)).
Proof.
  destruct t; try discriminate; intros _; unfold coerce, valueParser.
  - destruct (strict_eq _ _ || strict_eq _ _); apply returns_Ok.
  - apply returns_Ok.
  - apply returns_Ok.
  - apply returns_Ok.
Qed.

Lemma coerce_native_returns (t : schema) (v : value) (s : string) :
  is_value_template t = true -> t <> TString -> to_string v = Ok s ->
  returns (coerce t v).
Proof.
  destruct t; try discriminate; intros _ Hne Hs;
    unfold coerce, valueParser, parseInt, parseFloat; rewrite ?Hs.
  - destruct (strict_eq _ _ || strict_eq _ _); apply returns_Ok.
  - apply returns_Ok.
  - apply returns_Ok.
  - congruence.
Qed.

Lemma coerce_string_native (v : value) (s : string) :
  v <> VUndefined -> v <> VNull -> to_string v = Ok s ->
  coerce TString v = Ok (VStr s).
Proof.
  intros Hu Hn Hs. unfold coerce, valueParser, call_toString.
  destruct v; try congruence; rewrite Hs; reflexivity.
Qed.

(** C4, counterexample.  The String rule calls [toString] on its input,
    which throws on [undefined]. *)
Lemma C4_string_coercion_throws_on_undefined :
  coerce TString VUndefined = Throw TypeError /\ ~ coercion_is_total.
Proof.
  split; [reflexivity|].
  intros H. destruct (H TString VUndefined eq_refl) as [a Ha]. discriminate.
Qed.

(** C4, amended.  On text every rule returns.  On native input the Boolean,
    Integer and Number rules return whenever the input has a string form,
    and the String rule returns whenever, in addition, the input is neither
    [undefined] nor [null], on which it throws.  A text in which no number
    starts yields [NaN] under Integer and Number and [false] under Boolean
    unless it is ["true"]. *)
Theorem C4_coercion_total_on_text :
  forall t s, is_value_template t = true ->
    returns (coerce t (VStr s)) /\
    (forall v sv, t <> TString -> to_string v = Ok sv -> returns (coerce t v)) /\
    (forall v sv, v <> VUndefined -> v <> VNull -> to_string v = Ok sv ->
                  coerce TString v = Ok (VStr sv)) /\
    coerce TString VUndefined = Throw TypeError /\
    coerce TString VNull = Throw TypeError /\
    (unparsable_integer s = true -> coerce TInteger (VStr s) = Ok (VNum NaN)) /\
    (unparsable_number s = true -> coerce TNumber (VStr s) = Ok (VNum NaN)) /\
    (unparsable_integer s = true -> s <> "true" ->
     coerce TBoolean (VStr s) = Ok (VBool false)).
Proof.
  intros t s Ht.
  split; [now apply coerce_text_returns|].
  split; [intros v sv Hne Hs; now apply (coerce_native_returns t v sv)|].
  split; [exact coerce_string_native|].
  split; [reflexivity|].
  split; [reflexivity|].
  split.
  { intros H. unfold coerce, valueParser, parseInt; simpl.
    now rewrite (parse_int_unparsable s H). }
  split.
  { intros H. unfold coerce, valueParser, parseFloat; simpl.
    now rewrite (parse_float_unparsable s H). }
  intros H Hne. unfold coerce, valueParser, parseInt; simpl.
  rewrite orb_false_r.
  destruct (String.eqb s "true") eqn:E.
  - apply String.eqb_eq in E; contradiction.
  - now rewrite (parse_int_unparsable s H).
Qed.

Lemma C4_coercion_total_on_text_witness :
  is_value_template TBoolean = true /\
  returns (coerce TBoolean (VStr "banana")) /\
  coerce TBoolean (VStr "banana") = Ok (VBool false).
Proof.
  split; [reflexivity|].
  destruct (C4_coercion_total_on_text TBoolean "banana" eq_refl)
    as (Hr & _ & _ & _ & _ & _ & _ & Hb).
  split; [exact Hr|].
  apply Hb; [reflexivity | discriminate].
Defined.

(** ** Induction on templates and unfolding of the loops *)

Lemma fromJs_object (props : list (string * schema)) (c : ctor) (v : value) :
  fromJs (TObject props c) v
  = (ps <- fromJs_each v props [] ;; Ok (DObject (TObject props c) ps)).
Proof.
  simpl. f_equal.
  match goal with
  | |- ?f props [] = _ =>
      assert (H : forall l acc, f l acc = fromJs_each v l acc); [|apply H]
  end.
  induction l as [|[name child] l IH]; intros acc; simpl; [reflexivity|].
  destruct (js_get v name) as [x| |]; simpl; try reflexivity.
  destruct (fromJs child x) as [d| |]; simpl; try reflexivity.
  apply IH.
Qed.

Lemma toJs_object (props : list (string * schema)) (c : ctor)
    (ps : list (string * dentity)) :
  toJs (DObject (TObject props c) ps)
  = (fs <- toJs_each ps (ctor_fields c) ;; Ok (VObj (ctor_name c) fs)).
Proof.
  reflexivity.
Qed.

(** ** Native ingestion fills every declared key *)

Lemma has_own_true {A : Type} (fs : list (string * A)) (k : string) :
  has_own fs k = true <-> exists a, own fs k = Some a.
Proof.
  unfold has_own. destruct (own fs k) as [a|].
  - split; eauto.
  - split; [discriminate | intros [a Ha]; discriminate].
Qed.

Lemma has_own_js_set {A : Type} (fs : list (string * A)) (name k : string) (a : A) :
  plain_name name ->
  has_own (js_set fs name a) k = has_own fs k || String.eqb name k.
Proof.
  intros Hp. unfold has_own.
  destruct (String.eqb name k) eqn:E.
  - apply String.eqb_eq in E; subst k.
    rewrite own_js_set_same by exact Hp. now rewrite orb_true_r.
  - apply String.eqb_neq in E.
    rewrite own_js_set_other by congruence. now rewrite orb_false_r.
Qed.

Lemma has_own_js_set_mono {A : Type} (fs : list (string * A)) (name k : string)
    (a : A) :
  has_own fs k = true -> has_own (js_set fs name a) k = true.
Proof.
  intros H. unfold has_own in *.
  destruct (String.eqb name "__proto__") eqn:Ep.
  - unfold js_set; now rewrite Ep.
  - apply String.eqb_neq in Ep.
    destruct (String.eqb name k) eqn:E.
    + apply String.eqb_eq in E; subst k. now rewrite own_js_set_same.
    + apply String.eqb_neq in E. rewrite own_js_set_other by congruence.
      exact H.
Qed.

Lemma fromJs_each_keys (v : value) (l : list (string * schema)) :
  forall acc ps, fromJs_each v l acc = Ok ps ->
  forall k, has_own acc k = true \/ (In k (keys l) /\ plain_name k) ->
            has_own ps k = true.
Proof.
  induction l as [|[name child] l IH]; simpl; intros acc ps H k Hk.
  - injection H as <-. destruct Hk as [Hk|[[] _]]; exact Hk.
  - apply bind_Ok in H as (x & _ & H). apply bind_Ok in H as (d & _ & H).
    apply (IH _ _ H). destruct Hk as [Hk|[[Hk|Hk] Hp]].
    + left. now apply has_own_js_set_mono.
    + subst k. left. apply has_own_true; exists d. now apply own_js_set_same.
    + right; auto.
Qed.

Lemma toJs_each_keys (l : list (string * dentity)) :
  forall acc fs, toJs_each l acc = Ok fs ->
  forall k, has_own acc k = true \/ (In k (keys l) /\ plain_name k) ->
            has_own fs k = true.
Proof.
  induction l as [|[name child] l IH]; simpl; intros acc fs H k Hk.
  - injection H as <-. destruct Hk as [Hk|[[] _]]; exact Hk.
  - apply bind_Ok in H as (x & _ & H).
    apply (IH _ _ H). destruct Hk as [Hk|[[Hk|Hk] Hp]].
    + left. now apply has_own_js_set_mono.
    + subst k. left. apply has_own_true; exists x. now apply own_js_set_same.
    + right; auto.
Qed.

Lemma has_own_In {A : Type} (fs : list (string * A)) (k : string) :
  has_own fs k = true <-> In k (keys fs).
Proof.
  unfold has_own. destruct (own fs k) as [a|] eqn:E.
  - split; [intros _|reflexivity].
    destruct (in_dec string_dec k (keys fs)) as [H|H]; [exact H|].
    apply own_None_iff in H; congruence.
  - apply own_None_iff in E. split; [discriminate | contradiction].
Qed.

Lemma mapM_Forall2 {A B : Type} (f : A -> outcome B) (l : list A) (bs : list B) :
  mapM f l = Ok bs <-> Forall2 (fun a b => f a = Ok b) l bs.
Proof.
  revert bs; induction l as [|a l IH]; intros bs; simpl.
  - split.
    + intros H; injection H as <-; constructor.
    + intros H; inversion H; reflexivity.
  - split.
    + intros H. apply bind_Ok in H as (b & Hb & H).
      apply bind_Ok in H as (bs' & Hbs & H). injection H as <-.
      constructor; [exact Hb | now apply IH].
    + intros H; inversion H as [|a' b l' bs' Hb Hbs]; subst.
      rewrite Hb; simpl. apply IH in Hbs. rewrite Hbs; reflexivity.
Qed.

Lemma mapM_returns {A B : Type} (f : A -> outcome B) (l : list A) :
  Forall (fun a => returns (f a)) l -> returns (mapM f l).
Proof.
  induction 1 as [|a l [b Hb] _ [bs Hbs]]; simpl.
  - apply returns_Ok.
  - rewrite Hb; simpl. rewrite Hbs; simpl. apply returns_Ok.
Qed.

Lemma toJs_array (t : schema) (ds : list dentity) :
  toJs (DArray t ds) = (xs <- mapM toJs ds ;; Ok (VArr xs)).
Proof. reflexivity. Qed.

Lemma Forall_js_set {A : Type} (R : A -> Prop) (fs : list (string * A))
    (name : string) (a : A) :
  Forall (fun kd => R (snd kd)) fs -> R a ->
  Forall (fun kd => R (snd kd)) (js_set fs name a).
Proof.
  intros Hfs Ha. unfold js_set.
  destruct (String.eqb name "__proto__"); [exact Hfs|].
  induction Hfs as [|[k b] fs Hb Hfs IH]; simpl.
  - constructor; [exact Ha | constructor].
  - destruct (String.eqb k name); constructor; auto.
Qed.

Lemma toJs_each_returns (l : list (string * dentity)) :
  Forall (fun kd => returns (toJs (snd kd))) l ->
  forall acc, returns (toJs_each l acc).
Proof.
  induction 1 as [|[k d] l [x Hx] _ IH]; intros acc; simpl.
  - apply returns_Ok.
  - simpl in Hx. rewrite Hx; simpl. apply IH.
Qed.

Lemma fromJs_each_Forall (R : dentity -> Prop) (v : value)
    (l : list (string * schema)) :
  Forall (fun kt => forall x d, fromJs (snd kt) x = Ok d -> R d) l ->
  forall acc ps, fromJs_each v l acc = Ok ps ->
  Forall (fun kd => R (snd kd)) acc -> Forall (fun kd => R (snd kd)) ps.
Proof.
  induction 1 as [|[name child] l Hc _ IH]; simpl; intros acc ps H Hacc.
  - now injection H as <-.
  - apply bind_Ok in H as (x & _ & H). apply bind_Ok in H as (d & Hd & H).
    apply (IH _ _ H). apply Forall_js_set; [exact Hacc|].
    exact (Hc x d Hd).
Qed.

(** A value node, built by either ingestion, renders to what it holds. *)
Ltac value_node_returns H :=
  cbn [fromJs fromXml] in H;
  let x := fresh "x" in
  apply bind_Ok in H as (x & _ & H); injection H as <-; apply returns_Ok.

(** What native ingestion builds can always be rendered natively. *)
Lemma fromJs_toJs_returns (t : schema) :
  forall v d, fromJs t v = Ok d -> returns (toJs d).
Proof.
  induction t as [props c IH|name item IH| | | |] using schema_induction;
    intros v d H.
  - rewrite fromJs_object in H. apply bind_Ok in H as (ps & Hps & H).
    injection H as <-. rewrite toJs_object.
    destruct (toJs_each_returns ps) with (acc := ctor_fields c) as [fs Hfs].
    + apply (fromJs_each_Forall (fun d => returns (toJs d)) v props IH [] ps Hps).
      constructor.
    + rewrite Hfs; apply returns_Ok.
  - simpl in H. destruct v as [| | | | |l|]; try discriminate.
    apply bind_Ok in H as (ds & Hds & H). injection H as <-.
    rewrite toJs_array.
    destruct (mapM_returns toJs ds) as [xs Hxs].
    + apply mapM_Forall2 in Hds.
      induction Hds as [|x d l ds Hd _ IHds]; constructor; eauto.
    + rewrite Hxs; apply returns_Ok.
  - value_node_returns H.
  - value_node_returns H.
  - value_node_returns H.
  - value_node_returns H.
Qed.

Lemma fromJs_each_with_read (v : value) (l : list (string * schema)) :
  forall acc,
    fromJs_each v l acc
    = fromJs_each_with (fun name child => x <- js_get v name ;; fromJs child x)
                       l acc.
Proof.
  induction l as [|[name child] l IH]; intros acc; [reflexivity|].
  cbn [fromJs_each fromJs_each_with].
  destruct (js_get v name) as [x| |]; cbn [bind]; try reflexivity.
  destruct (fromJs child x) as [d| |]; cbn [bind]; try reflexivity.
  apply IH.
Qed.

Lemma fromJs_each_with_keys (ingest : string -> schema -> outcome dentity)
    (l : list (string * schema)) :
  forall acc ps, fromJs_each_with ingest l acc = Ok ps ->
  forall k, has_own acc k = true \/ (In k (keys l) /\ plain_name k) ->
            has_own ps k = true.
Proof.
  induction l as [|[name child] l IH]; simpl; intros acc ps H k Hk.
  - injection H as <-. destruct Hk as [Hk|[[] _]]; exact Hk.
  - apply bind_Ok in H as (d & _ & H).
    apply (IH _ _ H). destruct Hk as [Hk|[[Hk|Hk] Hp]].
    + left. now apply has_own_js_set_mono.
    + subst k. left. apply has_own_true; exists d. now apply own_js_set_same.
    + right; auto.
Qed.

(** C10, counterexample.  Assigning to [__proto__] on a plain object calls
    the inherited setter and creates no property: under a template with an
    own key of that name [fromJs] returns an intermediate object that lacks
    the declared key. *)
Lemma C10_proto_key_is_left_out :
  fromJs (TObject [("__proto__", TNumber)] Object_ctor)
         (VObj "Object" [("__proto__", VNum (of_Z 1))])
  = Ok (DObject (TObject [("__proto__", TNumber)] Object_ctor) []) /\
  ~ every_declared_key_is_filled.
Proof.
  split; [reflexivity|]. intros H.
  destruct (H [("__proto__", TNumber)] Object_ctor
              (VObj "Object" [("__proto__", VNum (of_Z 1))])
              (DObject (TObject [("__proto__", TNumber)] Object_ctor) []))
    as (ps & Hd & Hk); [reflexivity|].
  injection Hd as <-. specialize (Hk "__proto__" (or_introl eq_refl)).
  discriminate.
Qed.

(** C10, amended.  Under an object template none of whose keys is
    [__proto__]: when [fromJs] returns, the intermediate object has an entry
    for every declared key, and [toJs] then assigns every declared key on
    the constructed object; a field the native value lacks still yields an
    entry, here a [NaN] node under a Number template.  The entries are there
    whatever the reads [value[name]] yield and whatever the children make of
    them: [fromJs] is its loop run on those reads, and the loop, run on any
    right-hand sides that return, fills every declared key. *)
Theorem C10_native_ingestion_fills_every_key :
  (forall props c v d,
     Forall plain_name (keys props) ->
     fromJs (TObject props c) v = Ok d ->
     exists ps fs,
       d = DObject (TObject props c) ps /\
       (forall k, In k (keys props) -> has_own ps k = true) /\
       toJs d = Ok (VObj (ctor_name c) fs) /\
       (forall k, In k (keys props) -> has_own fs k = true) /\
       fromJs (TObject [("a", TNumber)] Object_ctor) (VObj "Object" [])
       = Ok (DObject (TObject [("a", TNumber)] Object_ctor)
               [("a", DValue TNumber (VNum NaN))])) /\
  (forall props c v,
     fromJs (TObject props c) v
     = (ps <- fromJs_each_with
                (fun name child => x <- js_get v name ;; fromJs child x)
                props [] ;;
        Ok (DObject (TObject props c) ps))) /\
  (forall ingest props ps,
     Forall plain_name (keys props) ->
     fromJs_each_with ingest props [] = Ok ps ->
     forall k, In k (keys props) -> has_own ps k = true).
Proof.
  split; [|split].
  2: { intros props c v. rewrite fromJs_object.
       now rewrite (fromJs_each_with_read v props []). }
  2: { intros ingest props ps Hplain H k Hk.
       apply (fromJs_each_with_keys ingest props [] ps H). right.
       split; [exact Hk|]. rewrite Forall_forall in Hplain; auto. }
  intros props c v d Hplain H.
  destruct (fromJs_toJs_returns _ _ _ H) as [r Hr].
  rewrite fromJs_object in H. apply bind_Ok in H as (ps & Hps & H).
  injection H as <-. rewrite toJs_object in Hr.
  apply bind_Ok in Hr as (fs & Hfs & Hr). injection Hr as <-.
  exists ps, fs.
  assert (Hkeys : forall k, In k (keys props) -> has_own ps k = true).
  { intros k Hk. apply (fromJs_each_keys v props [] ps Hps). right.
    split; [exact Hk|]. rewrite Forall_forall in Hplain; auto. }
  split; [reflexivity|]. split; [exact Hkeys|].
  split; [rewrite toJs_object, Hfs; reflexivity|].
  split; [|reflexivity].
  intros k Hk. apply (toJs_each_keys ps _ fs Hfs). right. split.
  - apply has_own_In. auto.
  - rewrite Forall_forall in Hplain; auto.
Qed.

Lemma C10_native_ingestion_fills_every_key_witness :
  exists ps (fs : list (string * value)),
    DObject (TObject [("a", TNumber); ("b", TBoolean)] Object_ctor)
      [("a", DValue TNumber (VNum NaN)); ("b", DValue TBoolean (VBool true))]
    = DObject (TObject [("a", TNumber); ("b", TBoolean)] Object_ctor) ps /\
    has_own ps "a" = true /\ has_own fs "b" = true.
Proof.
  destruct (proj1 C10_native_ingestion_fills_every_key
              [("a", TNumber); ("b", TBoolean)] Object_ctor
              (VObj "Object" [("b", VBool true)])
              (DObject (TObject [("a", TNumber); ("b", TBoolean)] Object_ctor)
                 [("a", DValue TNumber (VNum NaN));
                  ("b", DValue TBoolean (VBool true))]))
    as (ps & fs & Hd & Hps & _ & Hfs & _).
  - repeat constructor; discriminate.
  - reflexivity.
  - exists ps, fs. split; [exact Hd|]. split.
    + apply Hps; simpl; auto.
    + apply Hfs; simpl; auto.
Defined.

(** ** Native values that lack a declared field *)

Lemma inherited_plain (name : string) : inherited name = false -> plain_name name.
Proof. intros H E; subst; discriminate. Qed.






(** ** Tree ingestion *)

Lemma fromXml_object (props : list (string * schema)) (c : ctor) (n : node) :
  fromXml (TObject props c) n
  = (ps <- fromXml_each props (childNodes_of n) [] ;;
     Ok (DObject (TObject props c) ps)).
Proof.
  simpl. f_equal.
  match goal with
  | |- ?f _ [] = _ =>
      assert (H : forall l acc, f l acc = fromXml_each props l acc); [|apply H]
  end.
  induction l as [|k l IH]; intros acc; simpl; [reflexivity|].
  destruct (negb (has_own acc (key_of k) || inherited (key_of k))); [|apply IH].
  match goal with
  | |- match ?f props with _ => _ end = _ =>
      assert (E : forall ps, f ps = fromXml_find (key_of k) k ps)
  end.
  { induction ps as [|[k' child] ps IHps]; simpl; [reflexivity|].
    destruct (String.eqb k' (key_of k)); [reflexivity | apply IHps]. }
  rewrite E. destruct (fromXml_find (key_of k) k props) as [r|].
  - destruct r as [d| |]; simpl; try reflexivity. apply IH.
  - destruct (inherited (key_of k)); [reflexivity | apply IH].
Qed.

Lemma fromXml_array (itemName : string) (item : schema) (n : node) :
  fromXml (TArray itemName item) n
  = (ds <- mapM (fromXml item) (filter (has_tag itemName) (childNodes_of n)) ;;
     Ok (DArray (TArray itemName item) ds)).
Proof. reflexivity. Qed.

Lemma fromXml_find_own (name : string) (n : node) (ps : list (string * schema)) :
  fromXml_find name n ps
  = match own ps name with
    | Some child => Some (fromXml child n)
    | None => None
    end.
Proof.
  induction ps as [|[k child] ps IH]; simpl; [reflexivity|].
  destruct (String.eqb k name); [reflexivity | exact IH].
Qed.

Lemma own_In {A : Type} (fs : list (string * A)) (k : string) (a : A) :
  own fs k = Some a -> In (k, a) fs.
Proof.
  induction fs as [|[k' b] fs IH]; simpl; [discriminate|].
  destruct (String.eqb k' k) eqn:E.
  - apply String.eqb_eq in E; subst. intros H; injection H as ->; auto.
  - auto.
Qed.

Lemma coerce_text_Ok (t : schema) (s : string) :
  is_value_template t = true -> exists x, coerce t (VStr s) = Ok x.
Proof. intros H; exact (coerce_text_returns t s H). Qed.

Lemma fromXml_each_returns (props : list (string * schema)) :
  Forall (fun kt => forall n, returns (fromXml (snd kt) n)) props ->
  forall l acc, returns (fromXml_each props l acc).
Proof.
  intros Hprops. induction l as [|n l IH]; intros acc; simpl.
  - apply returns_Ok.
  - destruct (has_own acc (key_of n)); simpl; [apply IH|].
    destruct (inherited (key_of n)) eqn:Ei; simpl; [apply IH|].
    rewrite fromXml_find_own.
    destruct (own props (key_of n)) as [child|] eqn:Eo; [|apply IH].
    apply own_In in Eo. rewrite Forall_forall in Hprops.
    destruct (Hprops _ Eo n) as [d Hd]. simpl in Hd. rewrite Hd; simpl.
    apply IH.
Qed.

(** Tree ingestion never throws. *)
Lemma fromXml_returns (t : schema) : forall n, returns (fromXml t n).
Proof.
  induction t as [props c IH|name item IH| | | |] using schema_induction;
    intros n.
  - rewrite fromXml_object.
    destruct (fromXml_each_returns props IH (childNodes_of n) []) as [ps Hps].
    rewrite Hps; apply returns_Ok.
  - rewrite fromXml_array.
    destruct (mapM_returns (fromXml item)
                (filter (has_tag name) (childNodes_of n))) as [ds Hds].
    + apply Forall_forall; intros x _; apply IH.
    + rewrite Hds; apply returns_Ok.
  - simpl. destruct (coerce_text_Ok TBoolean (textContent n) eq_refl) as [x ->].
    apply returns_Ok.
  - apply returns_Ok.
  - apply returns_Ok.
  - apply returns_Ok.
Qed.

Lemma has_own_false {A : Type} (fs : list (string * A)) (k : string) :
  has_own fs k = false <-> own fs k = None.
Proof.
  unfold has_own. destruct (own fs k); split; congruence.
Qed.

Lemma fromXml_each_cons (props : list (string * schema)) (n : node)
    (l : list node) (acc : list (string * dentity)) :
  fromXml_each props (n :: l) acc
  = match own acc (key_of n), inherited (key_of n), own props (key_of n) with
    | None, false, Some child =>
        d <- fromXml child n ;; fromXml_each props l (js_set acc (key_of n) d)
    | _, _, _ => fromXml_each props l acc
    end.
Proof.
  simpl. unfold has_own. rewrite fromXml_find_own.
  destruct (own acc (key_of n)); simpl; [reflexivity|].
  destruct (inherited (key_of n)); simpl; [reflexivity|].
  destruct (own props (key_of n)); reflexivity.
Qed.

Lemma fromXml_each_step (props : list (string * schema)) (n : node)
    (l : list node) (acc ps : list (string * dentity)) :
  fromXml_each props (n :: l) acc = Ok ps ->
  (fromXml_each props l acc = Ok ps) \/
  (exists child d,
     own acc (key_of n) = None /\ inherited (key_of n) = false /\
     own props (key_of n) = Some child /\ fromXml child n = Ok d /\
     fromXml_each props l (js_set acc (key_of n) d) = Ok ps).
Proof.
  rewrite fromXml_each_cons.
  destruct (own acc (key_of n)) eqn:Eh; [auto|].
  destruct (inherited (key_of n)) eqn:Ei; [auto|].
  destruct (own props (key_of n)) as [child|]; [|auto].
  intros H. apply bind_Ok in H as (d & Hd & H).
  right. exists child, d. auto.
Qed.

Lemma fromXml_each_keeps (props : list (string * schema)) (k : string)
    (d : dentity) (l : list node) :
  forall acc ps, fromXml_each props l acc = Ok ps ->
  own acc k = Some d -> own ps k = Some d.
Proof.
  induction l as [|n l IH]; intros acc ps H Hk.
  - simpl in H. now injection H as <-.
  - apply fromXml_each_step in H as [H|(child & d' & Hn & _ & _ & _ & H)].
    + eapply IH; eauto.
    + eapply IH; [exact H|]. rewrite own_js_set_other; [exact Hk|].
      intros E; subst; congruence.
Qed.

Lemma fromXml_each_frame (props : list (string * schema)) (k : string)
    (l : list node) :
  Forall (fun n => key_of n <> k) l ->
  forall acc ps, fromXml_each props l acc = Ok ps -> own ps k = own acc k.
Proof.
  induction 1 as [|n l Hn _ IH]; intros acc ps H.
  - simpl in H. now injection H as <-.
  - apply fromXml_each_step in H as [H|(child & d' & _ & _ & _ & _ & H)].
    + now apply IH.
    + rewrite (IH _ _ H). apply own_js_set_other. congruence.
Qed.

(** Among children that answer to a declared name not inherited from
    [Object.prototype], the first one fills the property and the later ones
    are dropped. *)
Lemma first_match_wins (props : list (string * schema)) (c : ctor)
    (tag name : string) (child : schema) (before after : list node)
    (first : node) :
  own props name = Some child -> inherited name = false ->
  Forall (fun n => key_of n <> name) before -> key_of first = name ->
  exists ps d,
    fromXml (TObject props c) (Element tag (before ++ first :: after))
    = Ok (DObject (TObject props c) ps) /\
    fromXml child first = Ok d /\ own ps name = Some d.
Proof.
  intros Hchild Hinh Hbefore Hfirst.
  destruct (fromXml_returns (TObject props c)
              (Element tag (before ++ first :: after))) as [r Hr].
  rewrite fromXml_object in Hr. apply bind_Ok in Hr as (ps & Hps & Hr).
  injection Hr as <-. simpl in Hps.
  destruct (fromXml_returns child first) as [d Hd].
  exists ps, d. rewrite fromXml_object; simpl. rewrite Hps.
  split; [reflexivity|]. split; [exact Hd|].
  assert (Hacc : own (@nil (string * dentity)) name = None) by reflexivity.
  revert Hps Hacc. generalize (@nil (string * dentity)).
  induction Hbefore as [|b before Hb _ IH]; intros acc Hps Hacc.
  - simpl app in Hps. rewrite fromXml_each_cons in Hps.
    rewrite Hfirst, Hacc, Hinh, Hchild, Hd in Hps. simpl in Hps.
    eapply fromXml_each_keeps; [exact Hps|].
    apply own_js_set_same. now apply inherited_plain.
  - simpl app in Hps.
    apply fromXml_each_step in Hps as [H|(child' & d' & _ & _ & _ & _ & H)].
    + now apply (IH acc).
    + apply (IH _ H). rewrite own_js_set_other; [exact Hacc|]. congruence.
Qed.

Lemma fromXml_each_Forall (R : dentity -> Prop) (props : list (string * schema)) :
  Forall (fun kt => forall n d, fromXml (snd kt) n = Ok d -> R d) props ->
  forall l acc ps, fromXml_each props l acc = Ok ps ->
  Forall (fun kd => R (snd kd)) acc -> Forall (fun kd => R (snd kd)) ps.
Proof.
  intros Hprops. induction l as [|n l IH]; intros acc ps H Hacc.
  - simpl in H. now injection H as <-.
  - apply fromXml_each_step in H as [H|(child & d & _ & _ & Hc & Hd & H)].
    + now apply (IH acc).
    + apply (IH _ _ H). apply Forall_js_set; [exact Hacc|].
      apply own_In in Hc. rewrite Forall_forall in Hprops.
      exact (Hprops _ Hc n d Hd).
Qed.

(** What tree ingestion builds can always be rendered natively. *)
Lemma fromXml_toJs_returns (t : schema) :
  forall n d, fromXml t n = Ok d -> returns (toJs d).
Proof.
  induction t as [props c IH|name item IH| | | |] using schema_induction;
    intros n d H.
  - rewrite fromXml_object in H. apply bind_Ok in H as (ps & Hps & H).
    injection H as <-. rewrite toJs_object.
    destruct (toJs_each_returns ps) with (acc := ctor_fields c) as [fs Hfs].
    + apply (fromXml_each_Forall (fun d => returns (toJs d)) props IH _ [] ps Hps).
      constructor.
    + rewrite Hfs; apply returns_Ok.
  - rewrite fromXml_array in H.
    apply bind_Ok in H as (ds & Hds & H). injection H as <-.
    rewrite toJs_array.
    destruct (mapM_returns toJs ds) as [xs Hxs].
    + apply mapM_Forall2 in Hds.
      induction Hds as [|x d l ds Hd _ IHds]; constructor; eauto.
    + rewrite Hxs; apply returns_Ok.
  - value_node_returns H.
  - value_node_returns H.
  - value_node_returns H.
  - value_node_returns H.
Qed.

Lemma toJs_each_frame (k : string) (l : list (string * dentity)) :
  ~ In k (keys l) ->
  forall acc fs, toJs_each l acc = Ok fs -> own fs k = own acc k.
Proof.
  induction l as [|[name child] l IH]; simpl; intros Hk acc fs H.
  - now injection H as <-.
  - apply bind_Ok in H as (x & _ & H). rewrite (IH (fun E => Hk (or_intror E)) _ _ H).
    apply own_js_set_other. intros E; subst; tauto.
Qed.

Lemma fromXml_each_inherited (props : list (string * schema)) (k : string)
    (l : list node) :
  inherited k = true ->
  forall acc ps, fromXml_each props l acc = Ok ps -> own ps k = own acc k.
Proof.
  intros Hk. induction l as [|n l IH]; intros acc ps H.
  - simpl in H. now injection H as <-.
  - apply fromXml_each_step in H as [H|(child & d' & _ & Hi & _ & _ & H)].
    + now apply IH.
    + rewrite (IH _ _ H). apply own_js_set_other. congruence.
Qed.

(** C3.  A declared property whose name every object inherits from
    [Object.prototype] is never filled by [fromXml], whatever the tree holds:
    with the template [{constructor: Number}] and two [constructor] children
    the first child does not win, the property stays absent.  For every
    other declared name the first child that carries it fills the property
    and the later ones are dropped; the example of the claim, with the name
    [a], gives [a = 1]. *)
Theorem C3_inherited_name_is_never_filled :
  (forall props c node name ps,
     inherited name = true ->
     fromXml (TObject props c) node = Ok (DObject (TObject props c) ps) ->
     own ps name = None) /\
  (forall props c tag name child before first after,
     own props name = Some child -> inherited name = false ->
     Forall (fun n => key_of n <> name) before -> key_of first = name ->
     exists ps d,
       fromXml (TObject props c) (Element tag (before ++ first :: after))
       = Ok (DObject (TObject props c) ps) /\
       fromXml child first = Ok d /\ own ps name = Some d) /\
  fromXml (TObject [("constructor", TNumber)] Object_ctor)
    (el "x" [el "constructor" [txt "1"]; el "constructor" [txt "2"]])
  = Ok (DObject (TObject [("constructor", TNumber)] Object_ctor) []) /\
  fromXml (TObject [("a", TNumber)] Object_ctor)
    (el "x" [el "a" [txt "1"]; el "a" [txt "2"]])
  = Ok (DObject (TObject [("a", TNumber)] Object_ctor)
          [("a", DValue TNumber (VNum (of_Z 1)))]).
Proof.
  split; [|split; [|split; reflexivity]].
  - intros props c node name ps Hi H.
    rewrite fromXml_object in H. apply bind_Ok in H as (ps' & Hps & H).
    injection H as <-.
    now rewrite (fromXml_each_inherited props name _ Hi _ _ Hps).
  - intros props c tag name child before first after.
    apply first_match_wins.
Qed.

Lemma C3_inherited_name_is_never_filled_witness :
  (inherited "toString" = true /\
   own (@nil (string * dentity)) "toString" = None) /\
  (inherited "a" = false /\
   exists ps d,
     fromXml (TObject [("a", TNumber)] Object_ctor)
       (Element "x" ([txt "t"] ++ el "a" [txt "1"] :: [el "a" [txt "2"]]))
     = Ok (DObject (TObject [("a", TNumber)] Object_ctor) ps) /\
     fromXml TNumber (el "a" [txt "1"]) = Ok d /\ own ps "a" = Some d).
Proof.
  split.
  - split; [reflexivity|].
    exact (proj1 C3_inherited_name_is_never_filled
             [("toString", TString)] Object_ctor
             (el "x" [el "toString" [txt "a"]]) "toString" []
             eq_refl eq_refl).
  - split; [reflexivity|].
    apply (proj1 (proj2 C3_inherited_name_is_never_filled)
             [("a", TNumber)] Object_ctor "x" "a" TNumber
             [txt "t"] (el "a" [txt "1"]) [el "a" [txt "2"]]).
    + reflexivity.
    + reflexivity.
    + repeat constructor. discriminate.
    + reflexivity.
Defined.

(** C6, counterexample.  A text node has no tag name, and the code uses
    that [undefined] as a property key: under a template that declares a
    property named [undefined], a text child fills it, though the node has
    no child element at all. *)
Lemma C6_text_child_fills_undefined :
  fromXml (TObject [("undefined", TString)] Object_ctor) (el "x" [txt "hello"])
  = Ok (DObject (TObject [("undefined", TString)] Object_ctor)
          [("undefined", DValue TString (VStr "hello"))]) /\
  ~ omission_is_absence.
Proof.
  split; [reflexivity|]. intros H.
  destruct (H [("undefined", TString)] Object_ctor (el "x" [txt "hello"])
              "undefined") as (ps & Hps & Hnone).
  - now left.
  - repeat constructor. discriminate.
  - assert (E : fromXml (TObject [("undefined", TString)] Object_ctor)
                        (el "x" [txt "hello"])
                = Ok (DObject (TObject [("undefined", TString)] Object_ctor)
                        [("undefined", DValue TString (VStr "hello"))]))
      by reflexivity.
    rewrite E in Hps. apply Ok_inj in Hps. injection Hps as <-.
    discriminate.
Qed.

(** C6, amended.  When the tree node has no child element with the tag
    [name] and, should [name] be ["undefined"], no child without a tag name
    either, [fromXml] leaves that key out of the intermediate object, and
    [toJs] leaves the property as the constructor made it; with the
    template [{a: Number, b: String}] and the tree [<x></x>] the native
    object has no property at all. *)
Theorem C6_omission_is_absence :
  forall props c node name,
    Forall (fun n => tagName_of n <> Some name) (childNodes_of node) ->
    (name = "undefined" ->
     Forall (fun n => tagName_of n <> None) (childNodes_of node)) ->
    exists ps fs,
      fromXml (TObject props c) node = Ok (DObject (TObject props c) ps) /\
      own ps name = None /\
      toJs (DObject (TObject props c) ps) = Ok (VObj (ctor_name c) fs) /\
      own fs name = own (ctor_fields c) name /\
      (d <- fromXml (TObject [("a", TNumber); ("b", TString)] Object_ctor)
              (el "x" []) ;; toJs d) = Ok (VObj "Object" []).
Proof.
  intros props c node name Htag Htext.
  assert (Hno : Forall (fun n => key_of n <> name) (childNodes_of node)).
  { rewrite Forall_forall in *. intros n Hin. unfold key_of.
    destruct (tagName_of n) as [tag|] eqn:E.
    - intros ->. apply (Htag n Hin). exact E.
    - intros <-. apply (Htext eq_refl n Hin). exact E. }
  destruct (fromXml_returns (TObject props c) node) as [d Hd].
  destruct (fromXml_toJs_returns _ _ _ Hd) as [r Hr].
  rewrite fromXml_object in Hd. apply bind_Ok in Hd as (ps & Hps & Hd).
  injection Hd as <-. rewrite toJs_object in Hr.
  apply bind_Ok in Hr as (fs & Hfs & Hr). injection Hr as <-.
  assert (Hnone : own ps name = None).
  { now rewrite (fromXml_each_frame props name _ Hno _ _ Hps). }
  exists ps, fs. rewrite fromXml_object, Hps, toJs_object, Hfs.
  repeat split; try reflexivity; [exact Hnone|].
  apply (toJs_each_frame name ps); [|exact Hfs].
  now apply own_None_iff.
Qed.

Lemma C6_omission_is_absence_witness :
  exists ps fs,
    fromXml (TObject [("a", TNumber); ("b", TString)] Object_ctor)
            (el "x" [txt " "; el "b" [txt "t"]])
    = Ok (DObject (TObject [("a", TNumber); ("b", TString)] Object_ctor) ps) /\
    own ps "a" = None /\
    toJs (DObject (TObject [("a", TNumber); ("b", TString)] Object_ctor) ps)
    = Ok (VObj "Object" fs) /\
    own fs "a" = None.
Proof.
  destruct (C6_omission_is_absence
              [("a", TNumber); ("b", TString)] Object_ctor
              (el "x" [txt " "; el "b" [txt "t"]]) "a")
    as (ps & fs & H1 & H2 & H3 & H4 & _).
  - repeat constructor; simpl; discriminate.
  - discriminate.
  - exists ps, fs. auto.
Defined.

(** ** Tree rendering *)

Lemma createElement_Ok (name : string) (e : node) :
  createElement name = Ok e -> e = Element name [].
Proof.
  unfold createElement. destruct (is_name name); [|discriminate].
  intros H; now injection H as <-.
Qed.

Lemma toXml_object (t : schema) (ps : list (string * dentity)) (name : string) :
  toXml (DObject t ps) name
  = (element <- createElement name ;; toXml_props ps element).
Proof. reflexivity. Qed.

Lemma toXml_array (t : schema) (ds : list dentity) (name : string) :
  toXml (DArray t ds) name
  = (element <- createElement name ;; toXml_items t ds element).
Proof.
  simpl. destruct (createElement name) as [e| |]; simpl; try reflexivity.
  match goal with
  | |- ?f ds e = _ =>
      assert (H : forall l x, f l x = toXml_items t l x); [|apply H]
  end.
  induction l as [|d l IH]; intros x; simpl; [reflexivity|].
  destruct t; try reflexivity.
  destruct (toXml d itemName) as [c| |]; simpl; try reflexivity.
  apply IH.
Qed.

Lemma toXml_props_children (l : list (string * dentity)) :
  forall tag cs0 e, toXml_props l (Element tag cs0) = Ok e ->
  exists cs, e = Element tag (cs0 ++ cs) /\
             Forall2 (fun kd c => toXml (snd kd) (fst kd) = Ok c) l cs.
Proof.
  induction l as [|[k d] l IH]; simpl; intros tag cs0 e H.
  - injection H as <-. exists []. rewrite app_nil_r. split; constructor.
  - apply bind_Ok in H as (c & Hc & H). simpl in H.
    destruct (IH _ _ _ H) as (cs & -> & Hcs).
    exists (c :: cs). rewrite <- app_assoc. split; [reflexivity|].
    constructor; assumption.
Qed.

Lemma toXml_items_children (itemName : string) (item : schema) (l : list dentity) :
  forall tag cs0 e,
    toXml_items (TArray itemName item) l (Element tag cs0) = Ok e ->
    exists cs, e = Element tag (cs0 ++ cs) /\
               Forall2 (fun d c => toXml d itemName = Ok c) l cs.
Proof.
  induction l as [|d l IH]; simpl; intros tag cs0 e H.
  - injection H as <-. exists []. rewrite app_nil_r. split; constructor.
  - apply bind_Ok in H as (c & Hc & H). simpl in H.
    destruct (IH _ _ _ H) as (cs & -> & Hcs).
    exists (c :: cs). rewrite <- app_assoc. split; [reflexivity|].
    constructor; assumption.
Qed.

(** Every rendered element carries the name it was asked for. *)
Lemma toXml_tagName (d : dentity) (name : string) (e : node) :
  toXml d name = Ok e -> tagName_of e = Some name.
Proof.
  destruct d as [t ps|t ds|t v].
  - rewrite toXml_object. intros H. apply bind_Ok in H as (e0 & He0 & H).
    apply createElement_Ok in He0; subst e0.
    apply toXml_props_children in H as (cs & -> & _). reflexivity.
  - rewrite toXml_array. intros H. apply bind_Ok in H as (e0 & He0 & H).
    apply createElement_Ok in He0; subst e0.
    destruct ds as [|d ds]; [simpl in H; now injection H as <-|].
    destruct t; try discriminate.
    apply toXml_items_children in H as (cs & -> & _). reflexivity.
  - simpl. intros H. apply bind_Ok in H as (e0 & He0 & H).
    apply createElement_Ok in He0; subst e0.
    apply bind_Ok in H as (s & _ & H). injection H as <-. reflexivity.
Qed.

(** C7.  [fromXml] of an array template ingests, with the item template and
    in document order, exactly the children that carry the item name; and
    [toXml] renders every item, in order, under that one name.  On
    [<c><n>3</n><other>9</other><n>5</n></c>] with [Array("n", Integer)] this
    gives [[3, 5]] and, rendered with the name [c],
    [<c><n>3</n><n>5</n></c>]. *)
Theorem C7_array_tag_filtering :
  forall itemName item,
    (forall node, exists ds,
       fromXml (TArray itemName item) node
       = Ok (DArray (TArray itemName item) ds) /\
       Forall2 (fun c d => fromXml item c = Ok d)
               (filter (has_tag itemName) (childNodes_of node)) ds) /\
    (forall ds name e,
       toXml (DArray (TArray itemName item) ds) name = Ok e ->
       exists cs, e = Element name cs /\
         Forall2 (fun d c => toXml d itemName = Ok c /\
                             tagName_of c = Some itemName) ds cs) /\
    (d <- fromXml (TArray "n" TInteger)
            (el "c" [el "n" [txt "3"]; el "other" [txt "9"]; el "n" [txt "5"]]) ;;
     toJs d) = Ok (VArr [VNum (of_Z 3); VNum (of_Z 5)]) /\
    (d <- fromXml (TArray "n" TInteger)
            (el "c" [el "n" [txt "3"]; el "other" [txt "9"]; el "n" [txt "5"]]) ;;
     toXml d "c") = Ok (el "c" [el "n" [txt "3"]; el "n" [txt "5"]]).
Proof.
  intros itemName item. split; [|split; [|split; reflexivity]].
  - intros node.
    destruct (fromXml_returns (TArray itemName item) node) as [d Hd].
    rewrite fromXml_array in Hd. apply bind_Ok in Hd as (ds & Hds & Hd).
    exists ds. rewrite fromXml_array, Hds. split; [reflexivity|].
    now apply mapM_Forall2.
  - intros ds name e H. rewrite toXml_array in H.
    apply bind_Ok in H as (e0 & He0 & H).
    apply createElement_Ok in He0; subst e0.
    apply toXml_items_children in H as (cs & -> & Hcs).
    exists cs. split; [reflexivity|].
    induction Hcs as [|d c ds cs Hc _ IH]; constructor; [|exact IH].
    split; [exact Hc | exact (toXml_tagName _ _ _ Hc)].
Qed.

Lemma C7_array_tag_filtering_witness :
  exists cs,
    el "c" [el "n" [txt "3"]; el "n" [txt "5"]] = Element "c" cs /\
    Forall2 (fun d c => toXml d "n" = Ok c /\ tagName_of c = Some "n")
      [DValue TInteger (VNum (of_Z 3)); DValue TInteger (VNum (of_Z 5))] cs.
Proof.
  exact (proj1 (proj2 (C7_array_tag_filtering "n" TInteger))
           [DValue TInteger (VNum (of_Z 3)); DValue TInteger (VNum (of_Z 5))]
           "c" (el "c" [el "n" [txt "3"]; el "n" [txt "5"]]) eq_refl).
Defined.

(** ** Decimal digits *)

Lemma fuel_of_bound (n : N) : (n < 10 * 2 ^ N.of_nat (N.to_nat (N.log2 n)))%N.
Proof.
  rewrite N2Nat.id. destruct n as [|p]; [reflexivity|].
  assert (H := N.log2_spec (Npos p) eq_refl).
  rewrite N.pow_succ_r' in H. lia.
Qed.

Lemma digits_of_fuel (f1 : nat) :
  forall f2 n acc,
    (n < 10 * 2 ^ N.of_nat f1)%N -> (n < 10 * 2 ^ N.of_nat f2)%N ->
    digits_of (S f1) n acc = digits_of (S f2) n acc.
Proof.
  induction f1 as [|f1 IH]; intros f2 n acc H1 H2.
  - simpl in H1. simpl. destruct (n <? 10)%N eqn:E; [reflexivity|].
    apply N.ltb_ge in E. lia.
  - cbn [digits_of]. destruct (n <? 10)%N eqn:E; [reflexivity|].
    apply N.ltb_ge in E.
    destruct f2 as [|f2].
    { simpl in H2. lia. }
    apply IH.
    + rewrite Nat2N.inj_succ, N.pow_succ_r' in H1.
      apply N.Div0.div_lt_upper_bound. lia.
    + rewrite Nat2N.inj_succ, N.pow_succ_r' in H2.
      apply N.Div0.div_lt_upper_bound. lia.
Qed.

Lemma digits_of_acc (f : nat) :
  forall n acc, digits_of f n acc = digits_of f n [] ++ acc.
Proof.
  induction f as [|f IH]; intros n acc; [reflexivity|].
  cbn [digits_of]. destruct (n <? 10)%N; [reflexivity|].
  rewrite IH. rewrite (IH _ [_]). rewrite <- app_assoc. reflexivity.
Qed.

Lemma decimal_small (n : N) : (n < 10)%N -> decimal n = [digit_char n].
Proof.
  intros H. unfold decimal, fuel_of. cbn [digits_of].
  apply N.ltb_lt in H. rewrite H. apply N.ltb_lt in H.
  now rewrite N.mod_small.
Qed.

Lemma decimal_step (n : N) :
  (10 <= n)%N -> decimal n = decimal (n / 10) ++ [digit_char (n mod 10)].
Proof.
  intros H. unfold decimal, fuel_of. cbn [digits_of].
  destruct (n <? 10)%N eqn:E; [apply N.ltb_lt in E; lia|].
  rewrite digits_of_acc. f_equal.
  assert (Hn := fuel_of_bound n).
  destruct (N.to_nat (N.log2 n)) as [|f] eqn:Ef.
  { simpl in Hn. lia. }
  apply digits_of_fuel.
  - rewrite Nat2N.inj_succ, N.pow_succ_r' in Hn.
    apply N.Div0.div_lt_upper_bound. lia.
  - apply fuel_of_bound.
Qed.

Lemma decimal_induction (P : N -> Prop) :
  (forall n, (n < 10)%N -> P n) ->
  (forall n, (10 <= n)%N -> P (n / 10)%N -> P n) ->
  forall n, P n.
Proof.
  intros Hsmall Hstep n.
  induction n as [n IH] using (well_founded_induction N.lt_wf_0).
  destruct (N.lt_ge_cases n 10) as [H|H]; [now apply Hsmall|].
  apply Hstep; [exact H|]. apply IH.
  apply N.Div0.div_lt_upper_bound. lia.
Qed.

Lemma digit_char_spec (d : N) :
  (d < 10)%N -> is_digit (digit_char d) = true /\ digit_val (digit_char d) = d.
Proof.
  intros H.
  assert (E : (d = 0 \/ d = 1 \/ d = 2 \/ d = 3 \/ d = 4 \/ d = 5 \/ d = 6
               \/ d = 7 \/ d = 8 \/ d = 9)%N) by lia.
  repeat (destruct E as [->|E]; [split; reflexivity|]). subst; split; reflexivity.
Qed.

Lemma is_digit_radix (c : ascii) :
  radix_val 10 c = if is_digit c then Some (digit_val c) else None.
Proof. reflexivity. Qed.

Lemma value_from_app (acc : N) (s t : chars) :
  value_from acc (s ++ t) = value_from (value_from acc s) t.
Proof. apply fold_left_app. Qed.

Lemma value_from_shift (s : chars) :
  forall acc, value_from acc s
              = (acc * 10 ^ N.of_nat (List.length s) + value_from 0 s)%N.
Proof.
  unfold value_from.
  induction s as [|c s IH]; intros acc.
  - simpl. lia.
  - cbn [fold_left List.length]. rewrite IH. rewrite (IH (0 * 10 + _)%N).
    rewrite Nat2N.inj_succ, N.pow_succ_r'. lia.
Qed.

Lemma value_from_zeros (j : nat) (acc : N) :
  value_from acc (zeros j) = (acc * 10 ^ N.of_nat j)%N.
Proof.
  revert acc; induction j as [|j IH]; intros acc.
  - simpl. lia.
  - change (zeros (S j)) with ("0"%char :: zeros j).
    change (value_from acc ("0"%char :: zeros j))
      with (value_from (acc * 10 + 0) (zeros j)).
    rewrite IH, Nat2N.inj_succ, N.pow_succ_r'. lia.
Qed.

Lemma zeros_digits (j : nat) : forallb is_digit (zeros j) = true.
Proof. induction j; [reflexivity | exact IHj]. Qed.

Lemma zeros_length (j : nat) : List.length (zeros j) = j.
Proof. apply repeat_length. Qed.

Lemma read_digits_run (s : chars) :
  forall acc count rest,
    forallb is_digit s = true -> ends_digits rest ->
    read_digits 10 acc count (s ++ rest)
    = (value_from acc s, (count + List.length s)%nat, rest).
Proof.
  induction s as [|c s IH]; intros acc count rest Hs Hrest.
  - simpl. rewrite Nat.add_0_r. destruct rest as [|c rest]; [reflexivity|].
    simpl in Hrest. now rewrite read_digits_no_digit.
  - simpl in Hs. apply andb_prop in Hs as [Hc Hs].
    cbn [app read_digits]. rewrite is_digit_radix, Hc.
    rewrite IH by assumption. cbn [List.length].
    rewrite Nat.add_succ_r. reflexivity.
Qed.

Lemma decimal_digits (n : N) : forallb is_digit (decimal n) = true.
Proof.
  induction n as [n H|n H IH] using decimal_induction.
  - rewrite decimal_small by exact H. simpl.
    now rewrite (proj1 (digit_char_spec n H)).
  - rewrite decimal_step by exact H. rewrite forallb_app, IH. simpl.
    rewrite (proj1 (digit_char_spec (n mod 10) (N.mod_upper_bound n 10 ltac:(lia)))).
    reflexivity.
Qed.

Lemma decimal_value (n : N) : value_from 0 (decimal n) = n.
Proof.
  induction n as [n H|n H IH] using decimal_induction.
  - rewrite decimal_small by exact H. unfold value_from; simpl.
    now rewrite (proj2 (digit_char_spec n H)).
  - rewrite decimal_step by exact H. rewrite value_from_app, IH.
    unfold value_from; simpl.
    rewrite (proj2 (digit_char_spec (n mod 10) (N.mod_upper_bound n 10 ltac:(lia)))).
    rewrite (N.div_mod n 10) at 3 by lia. lia.
Qed.

Lemma decimal_head (n : N) :
  exists c r, decimal n = c :: r /\ is_digit c = true /\
              ((0 < n)%N -> Ascii.eqb c "0" = false).
Proof.
  induction n as [n H|n H (c & r & E & Hc & Hz)] using decimal_induction.
  - rewrite decimal_small by exact H. exists (digit_char n), [].
    split; [reflexivity|]. split; [apply (digit_char_spec n H)|].
    intros Hpos.
    assert (E : (n = 1 \/ n = 2 \/ n = 3 \/ n = 4 \/ n = 5 \/ n = 6
                 \/ n = 7 \/ n = 8 \/ n = 9)%N) by lia.
    repeat (destruct E as [->|E]; [reflexivity|]). subst; reflexivity.
  - rewrite decimal_step by exact H. rewrite E.
    exists c, (r ++ [digit_char (n mod 10)]). split; [reflexivity|].
    split; [exact Hc|]. intros _. apply Hz.
    apply N.div_str_pos. lia.
Qed.

Lemma decimal_length (n : N) :
  (0 < n)%N ->
  (10 ^ N.of_nat (List.length (decimal n) - 1) <= n
   /\ n < 10 ^ N.of_nat (List.length (decimal n)))%N.
Proof.
  induction n as [n H|n H IH] using decimal_induction; intros Hpos.
  - rewrite decimal_small by exact H. simpl. lia.
  - rewrite decimal_step by exact H. rewrite length_app.
    cbn [List.length].
    destruct IH as [IH1 IH2]; [apply N.div_str_pos; lia|].
    destruct (decimal_head (n / 10)) as (c & r & E & _).
    rewrite E in *. cbn [List.length] in *.
    replace (S (List.length r) - 1)%nat with (List.length r) in IH1 by lia.
    replace (S (List.length r) + 1 - 1)%nat with (S (List.length r)) by lia.
    replace (S (List.length r) + 1)%nat with (S (S (List.length r))) by lia.
    rewrite !Nat2N.inj_succ, !N.pow_succ_r' in *.
    assert (Hdm := N.div_mod n 10 ltac:(lia)).
    assert (Hm := N.mod_upper_bound n 10 ltac:(lia)).
    generalize dependent (10 ^ N.of_nat (List.length r))%N.
    generalize dependent (n / 10)%N. generalize dependent (n mod 10)%N.
    intros; lia.
Qed.

(** ** Canonical numbers *)

Lemma strip_zeros_canonical (fuel : nat) (m : positive) (e : Z) :
  (Npos m mod 10 <> 0)%N -> strip_zeros fuel m e = (m, e).
Proof.
  intros H. destruct fuel as [|fuel]; [reflexivity|].
  cbn [strip_zeros]. apply N.eqb_neq in H. now rewrite H.
Qed.

Lemma strip_zeros_pow (m : positive) (j : nat) :
  (Npos m mod 10 <> 0)%N ->
  forall fuel p e, (j <= fuel)%nat -> Npos p = (Npos m * 10 ^ N.of_nat j)%N ->
  strip_zeros fuel p e = (m, e + Z.of_nat j).
Proof.
  intros Hm. induction j as [|j IH]; intros fuel p e Hf Hp.
  - change (N.of_nat 0) with 0%N in Hp.
    rewrite N.pow_0_r, N.mul_1_r in Hp. injection Hp as ->.
    rewrite Z.add_0_r. now apply strip_zeros_canonical.
  - destruct fuel as [|fuel]; [lia|].
    rewrite Nat2N.inj_succ, N.pow_succ_r' in Hp.
    assert (Hp' : Npos p = (Npos m * 10 ^ N.of_nat j * 10)%N) by lia.
    cbn [strip_zeros].
    rewrite Hp', N.Div0.mod_mul, N.div_mul by lia. cbn [N.eqb].
    destruct (N.pos m * 10 ^ N.of_nat j)%N as [|q] eqn:Eq.
    { exfalso. apply N.eq_mul_0 in Eq as [Eq|Eq]; [discriminate|].
      apply (N.pow_nonzero 10 (N.of_nat j)); [lia | exact Eq]. }
    rewrite (IH fuel q (e + 1)); [f_equal; lia | lia | reflexivity].
Qed.

Lemma log2_pow10 (m : positive) (j : nat) :
  (N.of_nat j <= N.log2 (Npos m * 10 ^ N.of_nat j))%N.
Proof.
  rewrite <- (N.log2_pow2 (N.of_nat j)) at 1 by lia.
  apply N.log2_le_mono.
  assert (H : (2 ^ N.of_nat j <= 10 ^ N.of_nat j)%N)
    by (apply N.pow_le_mono_l; lia).
  assert (H' : (1 * 10 ^ N.of_nat j <= Npos m * 10 ^ N.of_nat j)%N)
    by (apply N.mul_le_mono_r; lia).
  lia.
Qed.

Lemma mk_number_pow (negative : bool) (m : positive) (j : nat) (e : Z) :
  (Npos m mod 10 <> 0)%N ->
  mk_number negative (Npos m * 10 ^ N.of_nat j) e
  = Finite negative m (e + Z.of_nat j).
Proof.
  intros Hm. unfold mk_number.
  destruct (N.pos m * 10 ^ N.of_nat j)%N as [|p] eqn:Ep.
  { exfalso. apply N.eq_mul_0 in Ep as [Ep|Ep]; [discriminate|].
    apply (N.pow_nonzero 10 (N.of_nat j)); [lia | exact Ep]. }
  rewrite (strip_zeros_pow m j Hm (fuel_of (Npos p)) p e); [reflexivity| |now rewrite Ep].
  unfold fuel_of. rewrite <- Ep. assert (H := log2_pow10 m j). lia.
Qed.

Lemma mk_number_canonical (negative : bool) (m : positive) (e : Z) :
  (Npos m mod 10 <> 0)%N -> mk_number negative (Npos m) e = Finite negative m e.
Proof.
  intros Hm. unfold mk_number. now rewrite strip_zeros_canonical.
Qed.

(** ** Reading back what [toString] prints *)

Lemma chr_string (l : chars) : chr (string_of_list_ascii l) = l.
Proof. apply list_ascii_of_string_of_list_ascii. Qed.

Lemma digit_not_white (c : ascii) : is_digit c = true -> is_white c = false.
Proof.
  unfold is_digit, is_white. intros H.
  apply andb_prop in H as [H1 H2].
  apply N.leb_le in H1. apply N.leb_le in H2.
  destruct (9 <=? code c)%N eqn:E1; destruct (code c <=? 13)%N eqn:E2;
    destruct (code c =? 32)%N eqn:E3; destruct (code c =? 160)%N eqn:E4;
    try reflexivity;
    try (apply N.leb_le in E2; lia);
    try (apply N.eqb_eq in E3; lia);
    try (apply N.eqb_eq in E4; lia).
Qed.

Lemma digit_not (c d : ascii) :
  is_digit c = true -> is_digit d = false -> Ascii.eqb c d = false.
Proof.
  intros Hc Hd. destruct (Ascii.eqb c d) eqn:E; [|reflexivity].
  apply Ascii.eqb_eq in E; congruence.
Qed.

Lemma read_sign_digit (c : ascii) (s : chars) :
  is_digit c = true -> read_sign (c :: s) = (false, c :: s).
Proof.
  intros H. unfold read_sign.
  rewrite (digit_not c "-" H eq_refl), (digit_not c "+" H eq_refl). reflexivity.
Qed.

Lemma read_signed (negative : bool) (c : ascii) (s : chars) :
  is_digit c = true ->
  read_sign (trim_start (sign_chars negative ++ c :: s)) = (negative, c :: s).
Proof.
  intros H. destruct negative; simpl app.
  - reflexivity.
  - cbn [trim_start]. rewrite (digit_not_white c H). now apply read_sign_digit.
Qed.

Lemma parse_int_digits (negative : bool) (c : ascii) (s : chars) :
  is_digit c = true -> Ascii.eqb c "0" = false -> forallb is_digit s = true ->
  parse_int_chars (sign_chars negative ++ c :: s)
  = mk_number negative (value_from 0 (c :: s)) 0.
Proof.
  intros Hc Hz Hs. unfold parse_int_chars. rewrite read_signed by exact Hc.
  assert (Hrun : read_digits 10 0 0 (c :: s) = (value_from 0 (c :: s),
                   (0 + List.length (c :: s))%nat, [])).
  { rewrite <- (app_nil_r (c :: s)) at 1.
    apply read_digits_run; [simpl; now rewrite Hc | exact I]. }
  cbv beta iota. destruct s as [|x s'].
  - rewrite Hrun. reflexivity.
  - rewrite Hz. cbn [andb]. rewrite Hrun. reflexivity.
Qed.

Lemma decimal_pos_length (m : positive) :
  10 ^ (Z.of_nat (List.length (decimal (Npos m))) - 1) <= Z.pos m
  /\ (0 < List.length (decimal (Npos m)))%nat.
Proof.
  destruct (decimal_length (Npos m) eq_refl) as [H _].
  destruct (decimal_head (Npos m)) as (c & r & E & _).
  rewrite E in *. cbn [List.length] in *.
  replace (S (List.length r) - 1)%nat with (List.length r) in H by lia.
  split; [|lia].
  replace (Z.of_nat (S (List.length r)) - 1) with (Z.of_nat (List.length r)) by lia.
  apply N2Z.inj_le in H. rewrite N2Z.inj_pow in H.
  rewrite nat_N_Z in H. exact H.
Qed.

Lemma integer_point (m : positive) (e : Z) :
  0 <= e -> Z.pos m * 10 ^ e < 10 ^ 21 ->
  Z.of_nat (List.length (decimal (Npos m))) + e <= 21.
Proof.
  intros He Hb. destruct (decimal_pos_length m) as [Hk Hlen].
  set (k := Z.of_nat (List.length (decimal (Npos m)))) in *.
  assert (Hk0 : 0 <= k - 1) by lia.
  assert (H : 10 ^ (k - 1 + e) < 10 ^ 21).
  { rewrite Z.pow_add_r by lia.
    apply Z.le_lt_trans with (Z.pos m * 10 ^ e); [|exact Hb].
    apply Z.mul_le_mono_nonneg_r; [|exact Hk]. apply Z.pow_nonneg; lia. }
  apply Z.pow_lt_mono_r_iff in H; lia.
Qed.

Lemma parse_int_to_string (x : number) :
  canonical x -> is_integer x -> below_1e21 x ->
  parse_int_string (number_to_string x) = positive_zero x.
Proof.
  destruct x as [|b|b|b m e]; simpl; try tauto; try reflexivity.
  intros Hc He Hb.
  unfold parse_int_string, number_to_string. rewrite chr_string.
  cbn [number_to_chars].
  assert (Hn := integer_point m e He Hb).
  destruct (decimal_pos_length m) as [_ Hlen].
  set (s := decimal (Npos m)) in *.
  replace (Z.of_nat (List.length s) <=? Z.of_nat (List.length s) + e) with true
    by (symmetry; apply Z.leb_le; lia).
  replace (Z.of_nat (List.length s) + e <=? 21) with true
    by (symmetry; apply Z.leb_le; lia).
  cbn [andb].
  replace (Z.of_nat (List.length s) + e - Z.of_nat (List.length s)) with e by lia.
  destruct (decimal_head (Npos m)) as (c & r & E & Hd & Hz).
  fold s in E. rewrite E. cbn [app].
  rewrite parse_int_digits; [|exact Hd|now apply Hz|].
  - change (c :: r ++ zeros (Z.to_nat e)) with ((c :: r) ++ zeros (Z.to_nat e)).
    rewrite <- E. rewrite value_from_app. unfold s.
    rewrite decimal_value, value_from_zeros.
    rewrite mk_number_pow by exact Hc. f_equal. lia.
  - rewrite forallb_app, zeros_digits, andb_true_r.
    assert (H := decimal_digits (Npos m)). fold s in H. rewrite E in H.
    simpl in H. now apply andb_prop in H as [_ H].
Qed.

Lemma not_infinity (c : ascii) (s : chars) :
  is_digit c = true -> starts_with (chr "Infinity") (c :: s) = false.
Proof.
  intros H.
  change (starts_with (chr "Infinity") (c :: s))
    with (Ascii.eqb "I" c && starts_with (chr "nfinity") s).
  rewrite Ascii.eqb_sym, (digit_not c "I" H eq_refl). reflexivity.
Qed.

Lemma read_exponent_nil : read_exponent [] = 0.
Proof. reflexivity. Qed.

Lemma read_exponent_printed (z : Z) :
  read_exponent (chr "e" ++ (if z <? 0 then chr "-" else chr "+")
                 ++ decimal (Z.to_N (Z.abs z))) = z.
Proof.
  destruct (decimal_head (Z.to_N (Z.abs z))) as (c & r & E & Hc & _).
  assert (Hrun : read_digits 10 0 0 (decimal (Z.to_N (Z.abs z)))
                 = (Z.to_N (Z.abs z), S (List.length r), [])).
  { rewrite <- (app_nil_r (decimal _)).
    rewrite read_digits_run; [|apply decimal_digits|exact I].
    rewrite decimal_value, E. reflexivity. }
  destruct (z <? 0) eqn:Ez.
  - apply Z.ltb_lt in Ez.
    change (read_exponent (chr "e" ++ chr "-" ++ decimal (Z.to_N (Z.abs z))))
      with (let '(v, count, _) := read_digits 10 0 0 (decimal (Z.to_N (Z.abs z))) in
            match count with O => 0 | S _ => - Z.of_N v end).
    rewrite Hrun. cbv beta iota zeta. lia.
  - apply Z.ltb_ge in Ez.
    change (read_exponent (chr "e" ++ chr "+" ++ decimal (Z.to_N (Z.abs z))))
      with (let '(v, count, _) := read_digits 10 0 0 (decimal (Z.to_N (Z.abs z))) in
            match count with O => 0 | S _ => Z.of_N v end).
    rewrite Hrun. cbv beta iota zeta. lia.
Qed.

(** A literal without a fraction. *)
Lemma parse_float_integer (negative : bool) (c : ascii) (i rest : chars) :
  forallb is_digit (c :: i) = true -> ends_digits rest ->
  starts_with (chr ".") rest = false ->
  parse_float_chars (sign_chars negative ++ (c :: i) ++ rest)
  = mk_number negative (value_from 0 (c :: i)) (read_exponent rest).
Proof.
  intros Hi Hrest Hdot. unfold parse_float_chars.
  assert (Hc : is_digit c = true) by (simpl in Hi; now apply andb_prop in Hi).
  change ((c :: i) ++ rest) with (c :: i ++ rest).
  rewrite read_signed by exact Hc. rewrite not_infinity by exact Hc.
  change (c :: i ++ rest) with ((c :: i) ++ rest).
  rewrite read_digits_run by assumption.
  rewrite Hdot. reflexivity.
Qed.

(** A literal with a fraction. *)
Lemma parse_float_fraction (negative : bool) (c : ascii) (i f rest : chars) :
  forallb is_digit (c :: i) = true -> forallb is_digit f = true ->
  ends_digits rest ->
  parse_float_chars (sign_chars negative ++ (c :: i) ++ chr "." ++ f ++ rest)
  = mk_number negative (value_from (value_from 0 (c :: i)) f)
      (read_exponent rest - Z.of_nat (List.length f)).
Proof.
  intros Hi Hf Hrest. unfold parse_float_chars.
  assert (Hc : is_digit c = true) by (simpl in Hi; now apply andb_prop in Hi).
  change ((c :: i) ++ chr "." ++ f ++ rest) with (c :: i ++ chr "." ++ f ++ rest).
  rewrite read_signed by exact Hc. rewrite not_infinity by exact Hc.
  change (c :: i ++ chr "." ++ f ++ rest) with ((c :: i) ++ chr "." ++ f ++ rest).
  rewrite read_digits_run; [|exact Hi|reflexivity].
  change (starts_with (chr ".") (chr "." ++ f ++ rest)) with true.
  cbv iota. change (tl (chr "." ++ f ++ rest)) with (f ++ rest).
  rewrite read_digits_run by assumption.
  reflexivity.
Qed.

Lemma forallb_firstn {A : Type} (p : A -> bool) (n : nat) (l : list A) :
  forallb p l = true -> forallb p (firstn n l) = true.
Proof.
  intros H. rewrite <- (firstn_skipn n l), forallb_app in H.
  now apply andb_prop in H as [H _].
Qed.

Lemma forallb_skipn {A : Type} (p : A -> bool) (n : nat) (l : list A) :
  forallb p l = true -> forallb p (skipn n l) = true.
Proof.
  intros H. rewrite <- (firstn_skipn n l), forallb_app in H.
  now apply andb_prop in H as [_ H].
Qed.

Lemma parse_float_to_string (x : number) :
  canonical x -> parse_float_string (number_to_string x) = positive_zero x.
Proof.
  destruct x as [|b|b|b m e]; try (destruct b; reflexivity); try reflexivity.
  simpl. intros Hc.
  unfold parse_float_string, number_to_string. rewrite chr_string.
  cbn [number_to_chars].
  destruct (decimal_pos_length m) as [_ Hlen].
  assert (Hdig := decimal_digits (Npos m)).
  assert (Hval := decimal_value (Npos m)).
  destruct (decimal_head (Npos m)) as (c & r & E & Hd & _).
  set (s := decimal (Npos m)) in *.
  set (k := Z.of_nat (List.length s)) in *.
  destruct ((k <=? k + e) && (k + e <=? 21)) eqn:EA.
  { (* digits followed by zeros *)
    apply andb_prop in EA as [H1 H2]. apply Z.leb_le in H1.
    replace (k + e - k) with e by lia.
    replace (s ++ zeros (Z.to_nat e))
      with ((c :: r ++ zeros (Z.to_nat e)) ++ [])
      by (rewrite app_nil_r, E; reflexivity).
    rewrite parse_float_integer; [| |exact I|reflexivity].
    - change (c :: r ++ zeros (Z.to_nat e)) with ((c :: r) ++ zeros (Z.to_nat e)).
      rewrite <- E, value_from_app, Hval, value_from_zeros, read_exponent_nil.
      rewrite mk_number_pow by exact Hc. f_equal. lia.
    - change (c :: r ++ zeros (Z.to_nat e)) with ((c :: r) ++ zeros (Z.to_nat e)).
      rewrite <- E, forallb_app, Hdig, zeros_digits. reflexivity. }
  destruct ((0 <? k + e) && (k + e <=? 21)) eqn:EB.
  { (* a decimal point inside the digits *)
    apply andb_prop in EB as [H1 H2]. apply Z.ltb_lt in H1.
    apply Z.leb_le in H2.
    assert (Hlt : k + e < k).
    { apply andb_false_iff in EA as [EA|EA];
        [apply Z.leb_gt in EA | apply Z.leb_gt in EA]; lia. }
    set (n := Z.to_nat (k + e)).
    assert (Hn : (0 < n < List.length s)%nat) by (unfold n, k in *; lia).
    destruct (firstn n s) as [|c' i] eqn:Ei.
    { apply (f_equal (@List.length _)) in Ei. rewrite length_firstn in Ei.
      simpl in Ei. lia. }
    rewrite <- (app_nil_r (skipn n s)).
    rewrite parse_float_fraction; [ | | |exact I].
    - rewrite <- Ei, <- value_from_app, firstn_skipn, Hval.
      rewrite read_exponent_nil, length_skipn.
      rewrite mk_number_canonical by exact Hc. f_equal. unfold n, k in *. lia.
    - rewrite <- Ei. now apply forallb_firstn.
    - now apply forallb_skipn. }
  destruct ((-6 <? k + e) && (k + e <=? 0)) eqn:EC.
  { (* zeros after the decimal point, then the digits *)
    apply andb_prop in EC as [H1 H2]. apply Z.leb_le in H2.
    replace (chr "0." ++ zeros (Z.to_nat (- (k + e))) ++ s)
      with (["0"%char] ++ chr "." ++ (zeros (Z.to_nat (- (k + e))) ++ s) ++ [])
      by (rewrite app_nil_r; reflexivity).
    rewrite parse_float_fraction; [|reflexivity| |exact I].
    - rewrite value_from_app, value_from_zeros.
      change (value_from 0 ["0"%char]) with 0%N. rewrite N.mul_0_l, Hval.
      rewrite read_exponent_nil, length_app, zeros_length.
      rewrite mk_number_canonical by exact Hc. f_equal. unfold k in *. lia.
    - rewrite forallb_app, zeros_digits, Hdig. reflexivity. }
  (* exponent notation *)
  rewrite E. destruct r as [|c2 r].
  - rewrite parse_float_integer; [|simpl; now rewrite Hd|reflexivity|reflexivity].
    rewrite <- E, Hval, read_exponent_printed.
    rewrite mk_number_canonical by exact Hc. f_equal.
    assert (Hk : k = 1) by (unfold k; now rewrite E).
    lia.
  - rewrite parse_float_fraction; [|simpl; now rewrite Hd| |reflexivity].
    + assert (Hv : value_from (value_from 0 [c]) (c2 :: r) = Npos m).
      { rewrite <- value_from_app. change ([c] ++ c2 :: r) with (c :: c2 :: r).
        now rewrite <- E. }
      rewrite Hv, read_exponent_printed.
      rewrite mk_number_canonical by exact Hc. f_equal.
      assert (Hk : k = Z.of_nat (S (S (List.length r))))
        by (unfold k; now rewrite E).
      cbn [List.length]. lia.
    + rewrite E in Hdig. simpl in Hdig. now apply andb_prop in Hdig as [_ Hdig].
Qed.

(** ** The native round trip *)

Lemma literal_object (props : list (string * schema)) (c : ctor) :
  literal (TObject props c) <->
  NoDup (keys props) /\ Forall plain_name (keys props) /\
  Forall (fun kt => literal (snd kt)) props.
Proof.
  cbn [literal]. do 2 (apply and_iff_compat_l).
  induction props as [|[k child] props IH].
  - split; [constructor | trivial].
  - rewrite IH. split.
    + intros [H1 H2]; now constructor.
    + intros H; inversion H; subst; auto.
Qed.

Lemma shaped_object (int : number -> Prop) (str : string -> Prop)
    (props : list (string * schema)) (c : ctor) (cn : string)
    (fs : list (string * value)) :
  shaped int str (TObject props c) (VObj cn fs) <->
  Forall (fun kt => exists x, own fs (fst kt) = Some x /\
                              shaped int str (snd kt) x) props.
Proof.
  cbn [shaped].
  induction props as [|[k child] props IH].
  - split; [constructor | trivial].
  - rewrite IH. cbn [fst snd]. split.
    + intros [H1 H2]. constructor; [|exact H2]. cbn [fst snd].
      destruct (own fs k) as [x|]; [eauto | contradiction].
    + intros H; inversion H as [|? ? (x & Hx & Hs) Hrest]; subst.
      cbn [fst snd] in Hx. rewrite Hx. auto.
Qed.

Lemma shaped_array (int : number -> Prop) (str : string -> Prop)
    (name : string) (item : schema) (xs : list value) :
  shaped int str (TArray name item) (VArr xs) <-> Forall (shaped int str item) xs.
Proof.
  cbn [shaped].
  induction xs as [|x xs IH].
  - split; [constructor | trivial].
  - rewrite IH. split.
    + intros [H1 H2]; now constructor.
    + intros H; inversion H; subst; auto.
Qed.

Lemma agrees_object (props : list (string * schema)) (c : ctor)
    (cn' cn : string) (fs gs : list (string * value)) :
  agrees (TObject props c) (VObj cn' fs) (VObj cn gs) <->
  cn = ctor_name c /\
  Forall (fun kt => exists x y, own fs (fst kt) = Some x /\
                                own gs (fst kt) = Some y /\
                                agrees (snd kt) x y) props /\
  (forall k, ~ In k (keys props) -> own gs k = own (ctor_fields c) k).
Proof.
  cbn [agrees]. apply and_iff_compat_l. apply and_iff_compat_r.
  induction props as [|[k child] props IH].
  - split; [constructor | trivial].
  - rewrite IH. cbn [fst snd]. split.
    + intros [H1 H2]. constructor; [|exact H2]. cbn [fst snd].
      destruct (own fs k) as [x|]; [|contradiction].
      destruct (own gs k) as [y|]; [eauto | contradiction].
    + intros H; inversion H as [|? ? (x & y & Hx & Hy & Hs) Hrest]; subst.
      cbn [fst snd] in Hx, Hy. rewrite Hx, Hy. auto.
Qed.

Lemma agrees_array (name : string) (item : schema) (xs ys : list value) :
  agrees (TArray name item) (VArr xs) (VArr ys) <-> Forall2 (agrees item) xs ys.
Proof.
  cbn [agrees]. revert ys.
  induction xs as [|x xs IH]; intros [|y ys].
  - split; [constructor | trivial].
  - split; [contradiction | intros H; inversion H].
  - split; [contradiction | intros H; inversion H].
  - rewrite IH. split.
    + intros [H1 H2]; now constructor.
    + intros H; inversion H; subst; auto.
Qed.

Lemma fromJs_each_matched (cn : string) (fs : list (string * value))
    (l : list (string * schema)) :
  NoDup (keys l) -> Forall plain_name (keys l) ->
  Forall (fun kt => exists x d, own fs (fst kt) = Some x /\
                                fromJs (snd kt) x = Ok d) l ->
  forall acc, exists ps,
    fromJs_each (VObj cn fs) l acc = Ok ps /\
    (forall k child x d, In (k, child) l -> own fs k = Some x ->
       fromJs child x = Ok d -> own ps k = Some d) /\
    (forall k, ~ In k (keys l) -> own ps k = own acc k).
Proof.
  induction l as [|[name child] l IH];
    cbn [fromJs_each keys map fst]; intros Hnd Hplain Hl acc.
  - exists acc. split; [reflexivity|]. split; [intros ? ? ? ? []|reflexivity].
  - inversion Hnd as [|? ? Hnotin Hnd']; subst.
    inversion Hplain as [|? ? Hp Hplain']; subst.
    inversion Hl as [|? ? (x & d & Hx & Hd) Hl']; subst. cbn [fst snd] in Hx, Hd.
    destruct (IH Hnd' Hplain' Hl' (js_set acc name d)) as (ps & Hps & Hin & Hout).
    exists ps. split.
    { cbn [js_get]. rewrite Hx. cbn [bind]. rewrite Hd. exact Hps. }
    split.
    + intros k child' x' d' [E|Hk] Hx' Hd'.
      * injection E as <- <-. rewrite Hx in Hx'; injection Hx' as <-.
        rewrite Hd in Hd'; injection Hd' as <-.
        rewrite (Hout name Hnotin). now apply own_js_set_same.
      * eapply Hin; eauto.
    + intros k Hk. cbn [In] in Hk. rewrite Hout by tauto.
      apply own_js_set_other. intros E; subst; tauto.
Qed.

Lemma keys_assign {A : Type} (fs : list (string * A)) (name : string) (a : A) :
  keys (assign fs name a) = if has_own fs name then keys fs else keys fs ++ [name].
Proof.
  unfold has_own. induction fs as [|[k b] fs IH]; simpl; [reflexivity|].
  destruct (String.eqb k name) eqn:E; simpl; [reflexivity|].
  rewrite IH. destruct (own fs name); reflexivity.
Qed.

Lemma NoDup_keys_js_set {A : Type} (fs : list (string * A)) (name : string) (a : A) :
  NoDup (keys fs) -> NoDup (keys (js_set fs name a)).
Proof.
  intros H. unfold js_set. destruct (String.eqb name "__proto__"); [exact H|].
  rewrite keys_assign. destruct (has_own fs name) eqn:E; [exact H|].
  apply has_own_false, own_None_iff in E.
  apply NoDup_app; [exact H | repeat constructor; simpl; tauto|].
  intros k Hk [<-|[]]. contradiction.
Qed.

Lemma plain_keys_js_set {A : Type} (fs : list (string * A)) (name : string) (a : A) :
  Forall plain_name (keys fs) -> Forall plain_name (keys (js_set fs name a)).
Proof.
  intros H. unfold js_set. destruct (String.eqb name "__proto__") eqn:Ep; [exact H|].
  rewrite keys_assign. destruct (has_own fs name); [exact H|].
  apply Forall_app. split; [exact H|]. constructor; [|constructor].
  now apply String.eqb_neq in Ep.
Qed.

Lemma fromJs_each_NoDup (v : value) (l : list (string * schema)) :
  forall acc ps, fromJs_each v l acc = Ok ps ->
  NoDup (keys acc) /\ Forall plain_name (keys acc) ->
  (NoDup (keys ps) /\ Forall plain_name (keys ps)) /\
  (forall k, In k (keys ps) -> In k (keys acc) \/ In k (keys l)).
Proof.
  induction l as [|[name child] l IH]; cbn [fromJs_each]; intros acc ps H Hacc.
  - injection H as <-. split; [exact Hacc | auto].
  - apply bind_Ok in H as (x & _ & H). apply bind_Ok in H as (d & _ & H).
    destruct (IH _ _ H) as [Hps Hsub].
    { split; [apply NoDup_keys_js_set | apply plain_keys_js_set]; tauto. }
    split; [exact Hps|]. intros k Hk. destruct (Hsub k Hk) as [Hk'|Hk'].
    + unfold js_set in Hk'. destruct (String.eqb name "__proto__"); [auto|].
      rewrite keys_assign in Hk'. destruct (has_own acc name); [auto|].
      apply in_app_or in Hk' as [Hk'|[<-|[]]]; [auto|]. right; simpl; auto.
    + right; simpl; auto.
Qed.

Lemma toJs_each_lookup (l : list (string * dentity)) :
  NoDup (keys l) ->
  forall acc gs, toJs_each l acc = Ok gs ->
  forall k d, In (k, d) l -> plain_name k ->
    exists r, toJs d = Ok r /\ own gs k = Some r.
Proof.
  induction l as [|[name child] l IH];
    cbn [toJs_each keys map fst]; intros Hnd acc gs H k d Hin Hp.
  - destruct Hin.
  - inversion Hnd as [|? ? Hnotin Hnd']; subst.
    apply bind_Ok in H as (x & Hx & H).
    destruct Hin as [E|Hin].
    + injection E as <- <-. exists x. split; [exact Hx|].
      rewrite (toJs_each_frame name l Hnotin _ _ H).
      now apply own_js_set_same.
    + eapply IH; eauto.
Qed.

Lemma positive_zero_idem (x : number) :
  positive_zero (positive_zero x) = positive_zero x.
Proof. destruct x; reflexivity. Qed.

Lemma round_trip_array (item : schema) (xs : list value) :
  Forall (fun x => exists d r, fromJs item x = Ok d /\ toJs d = Ok r /\
                               agrees item x r) xs ->
  exists ds ys, mapM (fromJs item) xs = Ok ds /\ mapM toJs ds = Ok ys /\
                Forall2 (agrees item) xs ys.
Proof.
  induction 1 as [|x xs (d & r & Hd & Hr & Ha) _ (ds & ys & Hds & Hys & Hall)].
  - exists [], []. repeat split; constructor.
  - exists (d :: ds), (r :: ys). cbn [mapM]. rewrite Hd, Hds, Hr, Hys.
    repeat split; now constructor.
Qed.

(** The native round trip for integers that print without an exponent. *)
Lemma round_trip_native :
  forall t v, literal t -> shaped printable_integer any_string t v ->
    exists d r, fromJs t v = Ok d /\ toJs d = Ok r /\ agrees t v r.
Proof.
  induction t as [props c IH|name item IH| | | |] using schema_induction;
    intros v Hlit Hv.
  - (* objects *)
    destruct v as [| | | | | |cn fs]; try contradiction.
    apply literal_object in Hlit as (Hnd & Hplain & Hlits).
    apply shaped_object in Hv.
    assert (Hall : Forall (fun kt => exists x d r,
                     own fs (fst kt) = Some x /\ fromJs (snd kt) x = Ok d /\
                     toJs d = Ok r /\ agrees (snd kt) x r) props).
    { rewrite Forall_forall in *. intros kt Hkt.
      destruct (Hv kt Hkt) as (x & Hx & Hs).
      destruct (IH kt Hkt x (Hlits kt Hkt) Hs) as (d & r & Hd & Hr & Ha).
      exists x, d, r. auto. }
    destruct (fromJs_each_matched cn fs props Hnd Hplain) with (acc := @nil (string * dentity))
      as (ps & Hps & Hin & Hout).
    { eapply Forall_impl; [|exact Hall].
      intros kt (x & d & r & Hx & Hd & _). eauto. }
    assert (Hfrom : fromJs (TObject props c) (VObj cn fs)
                    = Ok (DObject (TObject props c) ps)).
    { rewrite fromJs_object, Hps. reflexivity. }
    destruct (fromJs_toJs_returns _ _ _ Hfrom) as [r Hr].
    exists (DObject (TObject props c) ps), r.
    split; [exact Hfrom|]. split; [exact Hr|].
    rewrite toJs_object in Hr. apply bind_Ok in Hr as (gs & Hgs & Hr).
    injection Hr as <-.
    destruct (fromJs_each_NoDup _ _ _ _ Hps) as [[Hndps Hplainps] Hsub].
    { split; constructor. }
    apply agrees_object. split; [reflexivity|]. split.
    + rewrite Forall_forall in *. intros [k child] Hkt.
      destruct (Hall _ Hkt) as (x & d & r & Hx & Hd & Hr & Ha).
      cbn [fst snd] in *.
      assert (Hk : own ps k = Some d) by (eapply Hin; eauto).
      destruct (toJs_each_lookup ps Hndps _ _ Hgs k d (own_In _ _ _ Hk))
        as (r' & Hr' & Hg).
      { apply Hplain. apply (in_map fst) in Hkt. exact Hkt. }
      rewrite Hr in Hr'; injection Hr' as <-.
      exists x, r. auto.
    + intros k Hk. apply (toJs_each_frame k ps); [|exact Hgs].
      intros Hin'. destruct (Hsub k Hin') as [[]|Hp]. contradiction.
  - (* arrays *)
    destruct v as [| | | | |xs|]; try contradiction.
    apply shaped_array in Hv. cbn [literal] in Hlit.
    destruct (round_trip_array item xs) as (ds & ys & Hds & Hys & Hall).
    { eapply Forall_impl; [|exact Hv]. intros x Hx. now apply IH. }
    exists (DArray (TArray name item) ds), (VArr ys).
    cbn [fromJs]. rewrite Hds. rewrite toJs_array, Hys.
    repeat split. now apply agrees_array.
  - destruct Hv as [[|] ->]; eexists; eexists; repeat split; reflexivity.
  - destruct Hv as (x & -> & Hc & [->|[Hi Hb]]).
    + eexists; eexists; repeat split; reflexivity.
    + exists (DValue TInteger (VNum (positive_zero x))), (VNum (positive_zero x)).
      cbn [fromJs]. unfold coerce, valueParser, parseInt. cbn [to_string bind].
      rewrite parse_int_to_string by assumption.
      repeat split. cbn [agrees same_value]. unfold same_number.
      now rewrite positive_zero_idem.
  - destruct Hv as (x & -> & Hc).
    exists (DValue TNumber (VNum (positive_zero x))), (VNum (positive_zero x)).
    cbn [fromJs]. unfold coerce, valueParser, parseFloat. cbn [to_string bind].
    rewrite parse_float_to_string by assumption.
    repeat split. cbn [agrees same_value]. unfold same_number.
    now rewrite positive_zero_idem.
  - destruct Hv as (s & -> & _). eexists; eexists; repeat split; reflexivity.
Qed.




(** ** Reading back a serialized tree *)

Lemma eqb_apart (p : ascii -> bool) (c d : ascii) :
  p c = true -> p d = false -> Ascii.eqb c d = false.
Proof.
  intros Hc Hd. destruct (Ascii.eqb c d) eqn:E; [|reflexivity].
  apply Ascii.eqb_eq in E; congruence.
Qed.

Lemma string_chr (s : string) : string_of_list_ascii (chr s) = s.
Proof. apply string_of_list_ascii_of_string. Qed.

Lemma tag_name_chars (tag : string) :
  is_tag_name tag = true ->
  exists c r, chr tag = c :: r /\ local_start c = true /\
              forallb local_char r = true.
Proof.
  unfold is_tag_name, is_name, no_colon. intros H.
  apply andb_prop in H as [H1 H2].
  destruct (chr tag) as [|c r]; [discriminate|].
  apply andb_prop in H1 as [Hc Hr]. exists c, r. split; [reflexivity|].
  simpl in H2. apply negb_true_iff, orb_false_iff in H2 as [H2 H3].
  split.
  - unfold local_start. rewrite Hc, Ascii.eqb_sym, H2. reflexivity.
  - clear -Hr H3. induction r as [|d r IH]; [reflexivity|].
    simpl in *. apply andb_prop in Hr as [Hd Hr].
    apply orb_false_iff in H3 as [H3 H4].
    unfold local_char at 1. rewrite Hd, Ascii.eqb_sym, H3. simpl. now apply IH.
Qed.

Lemma tag_name_all (tag : string) :
  is_tag_name tag = true -> forallb local_char (chr tag) = true.
Proof.
  intros H. destruct (tag_name_chars tag H) as (c & r & E & Hc & Hr).
  rewrite E. cbn [forallb]. rewrite Hr, andb_true_r.
  unfold local_start in Hc. apply andb_prop in Hc as [Hc1 Hc2].
  unfold local_char, is_name_char. now rewrite Hc1, Hc2.
Qed.

Lemma local_char_name (c : ascii) : local_char c = true -> is_name_char c = true.
Proof. unfold local_char. intros H; now apply andb_prop in H as [H _]. Qed.

Lemma tokenize_open_name (r : chars) :
  forall acc rest, forallb local_char r = true ->
  tokenize (OpenName acc) (r ++ rest) = tokenize (OpenName (rev r ++ acc)) rest.
Proof.
  induction r as [|c r IH]; intros acc rest Hr; [reflexivity|].
  simpl in Hr. apply andb_prop in Hr as [Hc Hr].
  cbn [app tokenize].
  rewrite (eqb_apart is_name_char c ">" (local_char_name c Hc) eq_refl).
  rewrite (eqb_apart is_name_char c "/" (local_char_name c Hc) eq_refl).
  rewrite Hc, IH by exact Hr. cbn [rev]. now rewrite <- app_assoc.
Qed.

Lemma tokenize_close_name (r : chars) :
  forall acc rest, forallb local_char r = true ->
  tokenize (CloseName acc) (r ++ rest) = tokenize (CloseName (rev r ++ acc)) rest.
Proof.
  induction r as [|c r IH]; intros acc rest Hr; [reflexivity|].
  simpl in Hr. apply andb_prop in Hr as [Hc Hr].
  cbn [app tokenize].
  rewrite (eqb_apart is_name_char c ">" (local_char_name c Hc) eq_refl).
  rewrite Hc, IH by exact Hr. cbn [rev]. now rewrite <- app_assoc.
Qed.

Lemma rev_chr (tag : string) :
  string_of_list_ascii (rev (rev (chr tag) ++ [])) = tag.
Proof. now rewrite app_nil_r, rev_involutive, string_chr. Qed.

(** The three kinds of tag of a writable name. *)
Lemma tokenize_start_tag (tag : string) (rest : chars) (text : chars) :
  is_tag_name tag = true ->
  tokenize (Content text) (chr "<" ++ chr tag ++ chr ">" ++ rest)
  = (ts <- (ts <- tokenize (Content []) rest ;; Ok (TOpen tag :: ts)) ;;
     Ok (flush text ts)).
Proof.
  intros H. destruct (tag_name_chars tag H) as (c & r & E & Hc & Hr).
  rewrite E. cbn [chr list_ascii_of_string app tokenize].
  change (Ascii.eqb "<" "<") with true. cbv iota.
  assert (Hs : Ascii.eqb c "/" = false).
  { apply (eqb_apart is_name_start); [|reflexivity].
    unfold local_start in Hc. now apply andb_prop in Hc as [Hc _]. }
  rewrite Hs, Hc. f_equal.
  rewrite tokenize_open_name by exact Hr.
  cbn [tokenize]. change (Ascii.eqb ">" ">") with true. cbv iota.
  replace (rev r ++ [c]) with (rev (chr tag) ++ []) by (now rewrite E, app_nil_r).
  now rewrite rev_chr.
Qed.

Lemma tokenize_empty_tag (tag : string) (rest : chars) (text : chars) :
  is_tag_name tag = true ->
  tokenize (Content text) (chr "<" ++ chr tag ++ chr "/>" ++ rest)
  = (ts <- (ts <- tokenize (Content []) rest ;; Ok (TEmpty tag :: ts)) ;;
     Ok (flush text ts)).
Proof.
  intros H. destruct (tag_name_chars tag H) as (c & r & E & Hc & Hr).
  rewrite E. cbn [chr list_ascii_of_string app tokenize].
  change (Ascii.eqb "<" "<") with true. cbv iota.
  assert (Hs : Ascii.eqb c "/" = false).
  { apply (eqb_apart is_name_start); [|reflexivity].
    unfold local_start in Hc. now apply andb_prop in Hc as [Hc _]. }
  rewrite Hs, Hc. f_equal.
  rewrite tokenize_open_name by exact Hr.
  cbn [tokenize]. change (Ascii.eqb "/" ">") with false.
  change (Ascii.eqb "/" "/") with true. change (Ascii.eqb ">" ">") with true.
  cbv iota.
  replace (rev r ++ [c]) with (rev (chr tag) ++ []) by (now rewrite E, app_nil_r).
  now rewrite rev_chr.
Qed.

Lemma tokenize_end_tag (tag : string) (rest : chars) (text : chars) :
  is_tag_name tag = true ->
  tokenize (Content text) (chr "</" ++ chr tag ++ chr ">" ++ rest)
  = (ts <- (ts <- tokenize (Content []) rest ;; Ok (TClose tag :: ts)) ;;
     Ok (flush text ts)).
Proof.
  intros H. destruct (tag_name_chars tag H) as (c & r & E & Hc & Hr).
  cbn [chr list_ascii_of_string app tokenize].
  change (Ascii.eqb "<" "<") with true. change (Ascii.eqb "/" "/") with true.
  cbv iota. f_equal.
  change (list_ascii_of_string tag) with (chr tag).
  rewrite tokenize_close_name by now apply tag_name_all.
  cbn [tokenize]. change (Ascii.eqb ">" ">") with true. cbv iota.
  rewrite rev_chr, H. reflexivity.
Qed.

Lemma clean_is_xml (s : chars) :
  forallb clean_char s = true -> forallb is_xml_char s = true.
Proof.
  induction s as [|c s IH]; [reflexivity|]. cbn [forallb]. intros H.
  apply andb_prop in H as [Hc Hs]. unfold clean_char in Hc.
  apply andb_prop in Hc as [Hc _]. now rewrite Hc, IH.
Qed.

Lemma tokenize_text (s : chars) :
  forall acc rest, forallb is_xml_char s = true ->
  tokenize (Content acc) (escape s ++ chr "<" ++ rest)
  = tokenize (Content (rev s ++ acc)) (chr "<" ++ rest).
Proof.
  induction s as [|c s IH]; intros acc rest Hs; [reflexivity|].
  cbn [forallb] in Hs. apply andb_prop in Hs as [Hc Hs].
  cbn [escape flat_map rev]. fold (escape s).
  rewrite <- !app_assoc. cbn [app]. rewrite <- IH by exact Hs.
  unfold escape_char.
  destruct (Ascii.eqb c "&") eqn:Eamp.
  { apply Ascii.eqb_eq in Eamp; subst c. reflexivity. }
  destruct (Ascii.eqb c "<") eqn:Elt.
  { apply Ascii.eqb_eq in Elt; subst c. reflexivity. }
  destruct (Ascii.eqb c ">") eqn:Egt.
  { apply Ascii.eqb_eq in Egt; subst c. reflexivity. }
  cbn [app tokenize]. rewrite Elt, Eamp, Egt, Hc. reflexivity.
Qed.

Lemma rendered_cases (tag : string) (cs : list node) :
  rendered (Element tag cs) ->
  is_tag_name tag = true /\
  (cs = [] \/
   (exists s, cs = [Text s] /\ s <> "" /\ clean_string s = true) \/
   (cs <> [] /\ Forall rendered cs)).
Proof.
  cbn [rendered]. intros [Htag H]. split; [exact Htag|].
  assert (Hall : forall l,
            (fix all (cs : list node) : Prop :=
               match cs with
               | [] => True
               | c :: cs' => rendered c /\ all cs'
               end) l -> Forall rendered l).
  { induction l as [|c l IH]; [constructor|]. intros [H1 H2]; constructor; auto. }
  destruct cs as [|c cs]; [auto|].
  destruct c as [t ds|s].
  - right; right. split; [discriminate|]. now apply Hall.
  - destruct cs as [|c2 cs].
    + right; left. exists s. tauto.
    + destruct H as [[] _].
Qed.

Lemma serialize_element (tag : string) (c : node) (cs : list node) :
  serialize (Element tag (c :: cs))
  = if is_tag_name tag then
      inner <- mapM serialize (c :: cs) ;;
      Ok (chr "<" ++ chr tag ++ chr ">" ++ List.concat inner
          ++ chr "</" ++ chr tag ++ chr ">")
    else Throw InvalidStateError.
Proof.
  cbn [serialize]. destruct (is_tag_name tag); [|reflexivity].
  match goal with
  | |- context [?f cs] =>
      match type of f with
      | list node -> outcome chars =>
          assert (H : forall l, f l = (inner <- mapM serialize l ;;
                                       Ok (List.concat inner)))
      end
  end.
  { induction l as [|x l IH]; [reflexivity|].
    rewrite IH. cbn [mapM]. destruct (serialize x) as [a| |]; try reflexivity.
    cbn [bind]. destruct (mapM serialize l) as [b| |]; reflexivity. }
  rewrite H. cbn [mapM]. destruct (serialize c) as [a| |]; try reflexivity.
  cbn [bind]. destruct (mapM serialize cs) as [inner| |]; reflexivity.
Qed.

Lemma serialize_empty (tag : string) :
  serialize (Element tag [])
  = if is_tag_name tag then Ok (chr "<" ++ chr tag ++ chr "/>")
    else Throw InvalidStateError.
Proof. reflexivity. Qed.

Lemma tokens_element (tag : string) (c : node) (cs : list node) :
  tokens (Element tag (c :: cs))
  = TOpen tag :: List.concat (map tokens (c :: cs)) ++ [TClose tag].
Proof.
  cbn [tokens]. do 2 f_equal.
  change (tokens c ++ List.concat (map tokens cs)) with (List.concat (map tokens (c :: cs))).
  match goal with
  | |- _ ++ ?f cs = _ => assert (H : forall l, f l = List.concat (map tokens l))
  end.
  { induction l as [|x l IH]; [reflexivity|]. now rewrite IH. }
  now rewrite H.
Qed.

(** The reader finds in the serialization of a rendered tree the tokens of
    that tree. *)
Lemma tokenize_rendered (n : node) :
  rendered n ->
  forall s, serialize n = Ok s ->
  forall rest ts, tokenize (Content []) rest = Ok ts ->
  tokenize (Content []) (s ++ rest) = Ok (tokens n ++ ts).
Proof.
  induction n as [tag cs IH|t] using node_induction; [|intros []].
  intros Hr s Hs rest ts Hrest.
  apply rendered_cases in Hr as (Htag & [->|[(t & -> & Hne & Hclean)|(Hne & Hall)]]).
  - rewrite serialize_empty, Htag in Hs. apply Ok_inj in Hs; subst s.
    rewrite <- !app_assoc, tokenize_empty_tag by exact Htag.
    rewrite Hrest. reflexivity.
  - rewrite serialize_element, Htag in Hs. cbn [mapM serialize] in Hs.
    unfold clean_string in Hclean.
    rewrite (clean_is_xml _ Hclean) in Hs. cbn [bind List.concat] in Hs.
    apply Ok_inj in Hs; subst s. rewrite app_nil_r.
    rewrite <- !app_assoc, tokenize_start_tag by exact Htag.
    change (chr "</" ++ chr tag ++ chr ">" ++ rest)
      with (chr "<" ++ (chr "/" ++ chr tag ++ chr ">" ++ rest)).
    rewrite tokenize_text by now apply clean_is_xml.
    change (chr "<" ++ (chr "/" ++ chr tag ++ chr ">" ++ rest))
      with (chr "</" ++ chr tag ++ chr ">" ++ rest).
    rewrite tokenize_end_tag by exact Htag. rewrite Hrest. cbn [bind].
    rewrite app_nil_r. unfold flush.
    destruct (rev (chr t)) as [|c r] eqn:E.
    + exfalso. apply Hne. rewrite <- (string_chr t).
      rewrite <- (rev_involutive (chr t)), E. reflexivity.
    + rewrite <- E, rev_involutive, string_chr. reflexivity.
  - destruct cs as [|c cs]; [contradiction|].
    rewrite serialize_element, Htag in Hs.
    apply bind_Ok in Hs as (inner & Hinner & Hs). apply Ok_inj in Hs; subst s.
    rewrite tokens_element.
    rewrite <- !app_assoc, tokenize_start_tag by exact Htag.
    assert (Hkids : forall l inner, Forall rendered l ->
              Forall (fun n => rendered n -> forall s, serialize n = Ok s ->
                        forall rest ts, tokenize (Content []) rest = Ok ts ->
                        tokenize (Content []) (s ++ rest) = Ok (tokens n ++ ts)) l ->
              mapM serialize l = Ok inner ->
              forall rest ts, tokenize (Content []) rest = Ok ts ->
              tokenize (Content []) (List.concat inner ++ rest)
              = Ok (List.concat (map tokens l) ++ ts)).
    { clear. induction l as [|x l IHl]; intros inner Hrend HIH Hm rest ts Hrest.
      - cbn [mapM] in Hm. injection Hm as <-. exact Hrest.
      - cbn [mapM] in Hm. apply bind_Ok in Hm as (a & Ha & Hm).
        apply bind_Ok in Hm as (b & Hb & Hm). injection Hm as <-.
        inversion Hrend; subst. inversion HIH; subst.
        cbn [List.concat map]. rewrite <- !app_assoc.
        match goal with H : rendered x -> _ |- _ => apply H; auto end. }
    rewrite (Hkids (c :: cs) inner Hall IH Hinner _ (TClose tag :: ts)).
    + cbn [bind flush]. rewrite <- app_comm_cons, <- app_assoc. reflexivity.
    + rewrite tokenize_end_tag by exact Htag. rewrite Hrest. reflexivity.
Qed.

Lemma build_rendered (n : node) :
  rendered n ->
  forall ts stack cur, build (tokens n ++ ts) stack cur
                       = build ts stack (cur ++ [n]).
Proof.
  induction n as [tag cs IH|t] using node_induction; [|intros []].
  intros Hr ts stack cur.
  apply rendered_cases in Hr as (Htag & [->|[(t & -> & Hne & Hclean)|(Hne & Hall)]]).
  - reflexivity.
  - cbn [tokens app build]. rewrite String.eqb_refl. reflexivity.
  - destruct cs as [|c cs]; [contradiction|].
    rewrite tokens_element. cbn [app build]. rewrite <- app_assoc.
    assert (Hkids : forall l, Forall rendered l ->
              Forall (fun n => rendered n -> forall ts stack cur,
                        build (tokens n ++ ts) stack cur
                        = build ts stack (cur ++ [n])) l ->
              forall ts stack cur,
                build (List.concat (map tokens l) ++ ts) stack cur
                = build ts stack (cur ++ l)).
    { clear. induction l as [|x l IHl]; intros Hrend HIH ts stack cur.
      - cbn [map List.concat app]. now rewrite app_nil_r.
      - inversion Hrend; subst. inversion HIH; subst.
        cbn [map List.concat]. rewrite <- app_assoc.
        match goal with H : rendered x -> _ |- _ => rewrite H by assumption end.
        rewrite IHl by assumption. now rewrite <- app_assoc. }
    rewrite (Hkids (c :: cs) Hall IH). cbn [app build].
    rewrite String.eqb_refl. reflexivity.
Qed.

Lemma normalize_no_cr (s : chars) : no_cr s = true -> normalize_newlines s = s.
Proof.
  induction s as [|c s IH]; [reflexivity|]. unfold no_cr; cbn [forallb].
  intros H. apply andb_prop in H as [Hc Hs]. apply negb_true_iff in Hc.
  cbn [normalize_newlines]. rewrite Hc. f_equal. now apply IH.
Qed.

Lemma no_cr_app (s t : chars) : no_cr (s ++ t) = no_cr s && no_cr t.
Proof. apply forallb_app. Qed.

Lemma no_cr_name (tag : string) : is_tag_name tag = true -> no_cr (chr tag) = true.
Proof.
  intros H. apply tag_name_all in H. unfold no_cr.
  induction (chr tag) as [|c r IH]; [reflexivity|].
  cbn [forallb] in *. apply andb_prop in H as [Hc Hr].
  rewrite (eqb_apart is_name_char c CR (local_char_name c Hc) eq_refl).
  now rewrite IH.
Qed.

Lemma no_cr_escape (s : chars) :
  forallb clean_char s = true -> no_cr (escape s) = true.
Proof.
  induction s as [|c s IH]; [reflexivity|]. cbn [forallb]. intros H.
  apply andb_prop in H as [Hc Hs]. cbn [escape flat_map]. fold (escape s).
  rewrite no_cr_app, IH by exact Hs. rewrite andb_true_r.
  unfold clean_char in Hc. apply andb_prop in Hc as [_ Hc].
  unfold escape_char.
  destruct (Ascii.eqb c "&"); [reflexivity|].
  destruct (Ascii.eqb c "<"); [reflexivity|].
  destruct (Ascii.eqb c ">"); [reflexivity|].
  unfold no_cr; cbn [forallb]. now rewrite Hc.
Qed.

Lemma serialize_rendered (n : node) :
  rendered n -> exists s, serialize n = Ok s /\ no_cr s = true.
Proof.
  induction n as [tag cs IH|t] using node_induction; [|intros []].
  intros Hr.
  apply rendered_cases in Hr as (Htag & [->|[(t & -> & Hne & Hclean)|(Hne & Hall)]]).
  - rewrite serialize_empty, Htag. eexists; split; [reflexivity|].
    rewrite !no_cr_app, (no_cr_name tag Htag). reflexivity.
  - rewrite serialize_element, Htag. cbn [mapM serialize].
    unfold clean_string in Hclean. rewrite (clean_is_xml _ Hclean).
    cbn [bind List.concat]. eexists; split; [reflexivity|].
    rewrite !no_cr_app, (no_cr_name tag Htag), (no_cr_escape _ Hclean).
    reflexivity.
  - destruct cs as [|c cs]; [contradiction|].
    rewrite serialize_element, Htag.
    assert (Hkids : exists inner, mapM serialize (c :: cs) = Ok inner /\
                                  no_cr (List.concat inner) = true).
    { clear Hne. revert Hall IH. generalize (c :: cs). clear.
      induction l as [|x l IHl]; intros Hall IH.
      - exists []. split; reflexivity.
      - inversion Hall; subst. inversion IH; subst.
        destruct IHl as (inner & Hi & Hn); [assumption..|].
        match goal with H : rendered x -> _ |- _ =>
          destruct H as (a & Ha & Hna); [assumption|] end.
        exists (a :: inner). cbn [mapM]. rewrite Ha, Hi. split; [reflexivity|].
        cbn [List.concat]. now rewrite no_cr_app, Hna, Hn. }
    destruct Hkids as (inner & Hi & Hn). rewrite Hi. cbn [bind].
    eexists; split; [reflexivity|].
    rewrite !no_cr_app, (no_cr_name tag Htag), Hn. reflexivity.
Qed.

(** The parser reads a rendered tree back from its serialization. *)
Lemma parse_serialize (n : node) (s : chars) :
  rendered n -> serialize n = Ok s ->
  parseFromString (string_of_list_ascii s) = Ok n.
Proof.
  intros Hr Hs. unfold parseFromString. rewrite chr_string.
  destruct (serialize_rendered n Hr) as (s' & Hs' & Hn).
  rewrite Hs in Hs'. apply Ok_inj in Hs'; subst s'.
  rewrite normalize_no_cr by exact Hn.
  rewrite <- (app_nil_r s).
  rewrite (tokenize_rendered n Hr s Hs [] [] eq_refl). cbn [bind].
  rewrite build_rendered by exact Hr. cbn [build app bind].
  destruct n; [reflexivity | contradiction].
Qed.

(** ** The tree round trip *)

Lemma digit_clean (c : ascii) : is_digit c = true -> clean_char c = true.
Proof.
  intros H. unfold clean_char.
  rewrite (eqb_apart is_digit c CR H eq_refl), andb_true_r.
  unfold is_digit in H. apply andb_prop in H as [H1 H2].
  apply N.leb_le in H1. unfold is_xml_char.
  replace (32 <=? code c)%N with true by (symmetry; apply N.leb_le; lia).
  now rewrite !orb_true_r.
Qed.

Lemma digits_clean (s : chars) :
  forallb is_digit s = true -> forallb clean_char s = true.
Proof.
  induction s as [|c s IH]; [reflexivity|]. cbn [forallb]. intros H.
  apply andb_prop in H as [Hc Hs]. now rewrite (digit_clean c Hc), IH.
Qed.

Lemma number_clean (x : number) : forallb clean_char (number_to_chars x) = true.
Proof.
  destruct x as [|b|b|b m e]; try (destruct b; reflexivity); try reflexivity.
  cbn [number_to_chars]. rewrite forallb_app.
  replace (forallb clean_char (sign_chars b)) with true
    by (destruct b; reflexivity).
  cbn [andb].
  assert (Hs := digits_clean _ (decimal_digits (Npos m))).
  assert (Hz : forall j, forallb clean_char (zeros j) = true)
    by (intros j; apply digits_clean, zeros_digits).
  assert (He : forall z, forallb clean_char
              ((if z <? 0 then chr "-" else chr "+") ++ decimal (Z.to_N (Z.abs z)))
              = true).
  { intros z. rewrite forallb_app, (digits_clean _ (decimal_digits _)).
    destruct (z <? 0); reflexivity. }
  set (s := decimal (Npos m)) in *.
  destruct (_ && _).
  { now rewrite forallb_app, Hs, Hz. }
  destruct (_ && _).
  { rewrite !forallb_app, (forallb_firstn _ _ _ Hs), (forallb_skipn _ _ _ Hs).
    reflexivity. }
  destruct (_ && _).
  { now rewrite !forallb_app, Hs, Hz. }
  cbv zeta.
  destruct s as [|d [|d2 r]]; [reflexivity| |].
  - rewrite forallb_app, forallb_app, He. cbn [forallb] in *. now rewrite Hs.
  - rewrite forallb_app, forallb_app, forallb_app, forallb_app, He.
    cbn [forallb] in *.
    apply andb_prop in Hs as [Hd Hs]. now rewrite Hd, Hs.
Qed.

Lemma number_string_clean (x : number) : clean_string (number_to_string x) = true.
Proof.
  unfold clean_string, number_to_string. rewrite chr_string. apply number_clean.
Qed.

Lemma rendered_children (tag : string) (cs : list node) :
  is_tag_name tag = true -> Forall rendered cs -> rendered (Element tag cs).
Proof.
  intros Htag Hall. cbn [rendered]. split; [exact Htag|].
  assert (H : (fix all (cs : list node) : Prop :=
                 match cs with
                 | [] => True
                 | c :: cs' => rendered c /\ all cs'
                 end) cs).
  { induction Hall; [exact I | split; assumption]. }
  destruct cs as [|[t ds|s] [|c2 cs]]; try exact H.
  inversion Hall as [|? ? Hf]. destruct Hf.
Qed.

Lemma append_empty (s : string) : (s ++ "")%string = s.
Proof. induction s as [|c s IH]; [reflexivity|]. simpl. now rewrite IH. Qed.

(** The element of a value node: its text comes back from [textContent]. *)
Lemma value_element (name s : string) :
  is_tag_name name = true -> clean_string s = true ->
  rendered (set_textContent (Element name []) s) /\
  textContent (set_textContent (Element name []) s) = s.
Proof.
  intros Hname Hs. cbn [set_textContent].
  destruct (String.eqb s "") eqn:E.
  - apply String.eqb_eq in E; subst s. split; [|reflexivity].
    now apply rendered_children.
  - apply String.eqb_neq in E. split.
    + cbn [rendered]. auto.
    + cbn [textContent]. apply append_empty.
Qed.

Lemma createElement_name (name : string) :
  is_tag_name name = true -> createElement name = Ok (Element name []).
Proof.
  unfold is_tag_name, createElement. intros H.
  apply andb_prop in H as [H _]. now rewrite H.
Qed.

Lemma positive_zero_facts (x : number) :
  canonical x -> printable_integer x ->
  canonical (positive_zero x) /\
  (positive_zero x = NaN \/
   (is_integer (positive_zero x) /\ below_1e21 (positive_zero x))).
Proof.
  intros Hc [->|[Hi Hb]]; [split; [exact I | left; reflexivity]|].
  destruct x; simpl in *; tauto.
Qed.

Lemma tree_template_object (props : list (string * schema)) (c : ctor) :
  tree_template (TObject props c) <->
  NoDup (keys props) /\
  Forall (fun kt => is_tag_name (fst kt) = true /\ inherited (fst kt) = false /\
                    tree_template (snd kt)) props.
Proof.
  cbn [tree_template]. apply and_iff_compat_l.
  induction props as [|[k child] props IH].
  - split; [constructor | trivial].
  - rewrite IH. split.
    + intros [H1 H2]; now constructor.
    + intros H; inversion H; subst; auto.
Qed.

Lemma assign_fresh {A : Type} (fs : list (string * A)) (k : string) (a : A) :
  own fs k = None -> assign fs k a = fs ++ [(k, a)].
Proof.
  induction fs as [|[k' b] fs IH]; simpl; [reflexivity|].
  destruct (String.eqb k' k); [discriminate|]. intros H. now rewrite IH.
Qed.

Lemma js_set_fresh {A : Type} (fs : list (string * A)) (k : string) (a : A) :
  inherited k = false -> own fs k = None -> js_set fs k a = fs ++ [(k, a)].
Proof.
  intros Hi Hk. unfold js_set.
  destruct (String.eqb k "__proto__") eqn:E.
  - apply String.eqb_eq in E; subst; discriminate.
  - now apply assign_fresh.
Qed.

Lemma own_NoDup_In {A : Type} (fs : list (string * A)) (k : string) (a : A) :
  NoDup (keys fs) -> In (k, a) fs -> own fs k = Some a.
Proof.
  induction fs as [|[k' b] fs IH]; simpl; intros Hnd Hin; [contradiction|].
  inversion Hnd as [|? ? Hnotin Hnd']; subst.
  destruct Hin as [E|Hin].
  - injection E as -> ->. now rewrite String.eqb_refl.
  - destruct (String.eqb k' k) eqn:E.
    + apply String.eqb_eq in E; subst k'. exfalso. apply Hnotin.
      apply (in_map fst) in Hin. exact Hin.
    + now apply IH.
Qed.

Lemma shaped_weaken (int : number -> Prop) (str : string -> Prop) (t : schema) :
  forall v, shaped int str t v -> shaped int any_string t v.
Proof.
  induction t as [props c IH|name item IH| | | |] using schema_induction;
    intros v Hv.
  - destruct v as [| | | | | |cn fs]; try contradiction.
    apply shaped_object in Hv. apply shaped_object.
    rewrite Forall_forall in *. intros kt Hkt.
    destruct (Hv kt Hkt) as (x & Hx & Hs). exists x. split; [exact Hx|].
    now apply IH.
  - destruct v as [| | | | |xs|]; try contradiction.
    apply shaped_array in Hv. apply shaped_array.
    eapply Forall_impl; [|exact Hv]. exact IH.
  - exact Hv.
  - exact Hv.
  - exact Hv.
  - destruct Hv as (s & -> & _). exists s. split; [reflexivity | exact I].
Qed.

Lemma tree_template_literal (t : schema) : tree_template t -> literal t.
Proof.
  induction t as [props c IH|name item IH| | | |] using schema_induction;
    try (intros; exact I).
  - intros H. apply tree_template_object in H as [Hnd Hall].
    apply literal_object. split; [exact Hnd|].
    rewrite Forall_forall in *. split.
    + intros k Hk. apply in_map_iff in Hk as (kt & <- & Hkt).
      destruct (Hall kt Hkt) as (_ & Hi & _). now apply inherited_plain.
    + apply Forall_forall. intros kt Hkt. apply IH; [exact Hkt|]. now apply Hall.
  - intros [_ H]. exact (IH H).
Qed.

Lemma value_round_trip (t : schema) (x : value) (s name : string) :
  is_tag_name name = true ->
  call_toString x = Ok s -> clean_string s = true ->
  coerce t (VStr s) = Ok x ->
  is_value_template t = true ->
  exists e, toXml (DValue t x) name = Ok e /\ rendered e /\
            fromXml t e = Ok (DValue t x).
Proof.
  intros Hname Hs Hclean Hback Ht.
  exists (set_textContent (Element name []) s).
  destruct (value_element name s Hname Hclean) as [Hr Htext].
  split; [|split; [exact Hr|]].
  - cbn [toXml]. rewrite (createElement_name name Hname). cbn [bind].
    rewrite Hs. reflexivity.
  - destruct t; try discriminate; cbn [fromXml]; rewrite Htext, Hback; reflexivity.
Qed.

Lemma object_round_trip (props : list (string * schema)) (cn : string)
    (fs : list (string * value)) (l : list (string * schema)) :
  NoDup (keys l) ->
  Forall (fun kt => is_tag_name (fst kt) = true /\ inherited (fst kt) = false /\
                    own props (fst kt) = Some (snd kt) /\ tree_stable (snd kt) /\
                    exists x, own fs (fst kt) = Some x /\
                              shaped printable_integer clean (snd kt) x) l ->
  forall acc ps,
    (forall k, In k (keys l) -> own acc k = None) ->
    fromJs_each (VObj cn fs) l acc = Ok ps ->
    exists ds es,
      ps = acc ++ ds /\
      (forall tag cs0, toXml_props ds (Element tag cs0)
                       = Ok (Element tag (cs0 ++ es))) /\
      Forall rendered es /\
      (forall accx, (forall k, In k (keys l) -> own accx k = None) ->
                    fromXml_each props es accx = Ok (accx ++ ds)).
Proof.
  induction l as [|[k child] l IH];
    cbn [fromJs_each keys map fst]; intros Hnd Hl acc ps Hacc Hps.
  - apply Ok_inj in Hps; subst ps. exists [], [].
    split; [now rewrite app_nil_r|]. split.
    { intros tag cs0. now rewrite app_nil_r. }
    split; [constructor|]. intros accx _. now rewrite app_nil_r.
  - inversion Hnd as [|? ? Hnotin Hnd']; subst.
    inversion Hl as [|? ? (Hk & Hi & Hown & Hstable & x & Hx & Hshape) Hl']; subst.
    cbn [fst snd] in *.
    cbn [js_get] in Hps. rewrite Hx in Hps. cbn [bind] in Hps.
    apply bind_Ok in Hps as (d & Hd & Hps).
    destruct (Hstable x d k Hshape Hd Hk) as (e & He & Hre & Hback).
    rewrite (js_set_fresh acc k d Hi (Hacc k (or_introl eq_refl))) in Hps.
    destruct (IH Hnd' Hl' (acc ++ [(k, d)]) ps)
      as (ds & es & -> & Hxml & Hres & Hfrom); [|exact Hps|].
    { intros k' Hk'. rewrite <- (js_set_fresh acc k d Hi (Hacc k (or_introl eq_refl))).
      rewrite own_js_set_other; [apply Hacc; now right|].
      intros E; subst; contradiction. }
    exists ((k, d) :: ds), (e :: es).
    split; [now rewrite <- app_assoc|]. split.
    { intros tag cs0. cbn [toXml_props]. rewrite He. cbn [bind appendChild].
      rewrite Hxml. now rewrite <- app_assoc. }
    split; [now constructor|].
    intros accx Haccx. rewrite fromXml_each_cons.
    assert (Hkey : key_of e = k).
    { unfold key_of. now rewrite (toXml_tagName _ _ _ He). }
    rewrite Hkey, (Haccx k (or_introl eq_refl)), Hi, Hown, Hback. cbn [bind].
    rewrite (js_set_fresh accx k d Hi (Haccx k (or_introl eq_refl))).
    rewrite Hfrom; [now rewrite <- app_assoc|].
    intros k' Hk'. rewrite <- (js_set_fresh accx k d Hi (Haccx k (or_introl eq_refl))).
    rewrite own_js_set_other; [apply Haccx; now right|].
    intros E; subst; contradiction.
Qed.

Lemma toXml_items_all (itemName : string) (item : schema) (ds : list dentity)
    (es : list node) :
  Forall2 (fun d e => toXml d itemName = Ok e) ds es ->
  forall tag cs0,
    toXml_items (TArray itemName item) ds (Element tag cs0)
    = Ok (Element tag (cs0 ++ es)).
Proof.
  induction 1 as [|d e ds es He _ IH]; intros tag cs0; cbn [toXml_items].
  - now rewrite app_nil_r.
  - rewrite He. cbn [bind appendChild]. rewrite IH. now rewrite <- app_assoc.
Qed.

Lemma filter_all {A : Type} (p : A -> bool) (l : list A) :
  Forall (fun a => p a = true) l -> filter p l = l.
Proof.
  induction 1 as [|a l Ha _ IH]; [reflexivity|]. cbn [filter].
  now rewrite Ha, IH.
Qed.

(** The tree round trip, node for node. *)
Lemma tree_round_trip (t : schema) : tree_template t -> tree_stable t.
Proof.
  induction t as [props c IH|itemName item IH| | | |] using schema_induction;
    intros Ht v d name Hv Hd Hname.
  - (* objects *)
    destruct v as [| | | | | |cn fs]; try contradiction.
    apply tree_template_object in Ht as [Hnd Hall].
    apply shaped_object in Hv.
    rewrite fromJs_object in Hd. apply bind_Ok in Hd as (ps & Hps & Hd).
    apply Ok_inj in Hd; subst d.
    destruct (object_round_trip props cn fs props Hnd) with (acc := @nil (string * dentity)) (ps := ps)
      as (ds & es & -> & Hxml & Hres & Hfrom); [|reflexivity|exact Hps|].
    { rewrite Forall_forall in *. intros [k child] Hkt.
      destruct (Hall _ Hkt) as (Hk & Hi & Htc). cbn [fst snd] in *.
      split; [exact Hk|]. split; [exact Hi|].
      split; [now apply own_NoDup_In|].
      split; [exact (IH _ Hkt Htc)|]. exact (Hv _ Hkt). }
    exists (Element name es). cbn [app] in *.
    split; [|split].
    + rewrite toXml_object, (createElement_name name Hname). cbn [bind].
      apply Hxml.
    + now apply rendered_children.
    + rewrite fromXml_object. cbn [childNodes_of].
      rewrite (Hfrom [] (fun _ _ => eq_refl)). reflexivity.
  - (* arrays *)
    destruct v as [| | | | |xs|]; try contradiction.
    destruct Ht as [Hitem Ht]. apply shaped_array in Hv.
    cbn [fromJs] in Hd. apply bind_Ok in Hd as (ds & Hds & Hd).
    apply Ok_inj in Hd; subst d. apply mapM_Forall2 in Hds.
    assert (Hes : exists es,
              Forall2 (fun d e => toXml d itemName = Ok e) ds es /\
              Forall rendered es /\
              Forall2 (fun e d => fromXml item e = Ok d) es ds).
    { clear -Hds Hv IH Ht Hitem.
      induction Hds as [|x d xs ds Hd _ IHds].
      - exists []. repeat split; constructor.
      - inversion Hv as [|? ? Hx Hxs]; subst.
        destruct (IHds Hxs) as (es & H1 & H2 & H3).
        destruct (IH Ht x d itemName Hx Hd Hitem) as (e & He & Hre & Hback).
        exists (e :: es). repeat split; now constructor. }
    destruct Hes as (es & Hto & Hres & Hback).
    exists (Element name es). split; [|split].
    + rewrite toXml_array, (createElement_name name Hname). cbn [bind].
      apply (toXml_items_all itemName item ds es Hto name []).
    + now apply rendered_children.
    + rewrite fromXml_array. cbn [childNodes_of].
      rewrite filter_all.
      * apply mapM_Forall2 in Hback. now rewrite Hback.
      * clear -Hto. induction Hto as [|d e ds es He _ IHes]; constructor; auto.
        unfold has_tag. rewrite (toXml_tagName _ _ _ He).
        apply String.eqb_refl.
  - destruct Hv as [b ->].
    assert (Ed : d = DValue TBoolean (VBool b))
      by (destruct b; apply Ok_inj; rewrite <- Hd; reflexivity).
    subst d. apply (value_round_trip TBoolean (VBool b) (bool_to_string b));
      try assumption; destruct b; reflexivity.
  - destruct Hv as (y & -> & Hc & Hy).
    destruct (positive_zero_facts y Hc Hy) as [Hc' Hy'].
    assert (Ed : d = DValue TInteger (VNum (positive_zero y))).
    { apply Ok_inj. rewrite <- Hd. cbn [fromJs]. unfold coerce, valueParser, parseInt.
      cbn [to_string bind]. destruct Hy as [->|[Hi Hb]]; [reflexivity|].
      now rewrite parse_int_to_string. }
    subst d.
    apply (value_round_trip TInteger _ (number_to_string (positive_zero y)));
      try assumption; try reflexivity.
    + apply number_string_clean.
    + unfold coerce, valueParser, parseInt. cbn [to_string bind].
      destruct Hy' as [->|[Hi Hb]]; [reflexivity|].
      now rewrite parse_int_to_string, positive_zero_idem.
  - destruct Hv as (y & -> & Hc).
    assert (Ed : d = DValue TNumber (VNum (positive_zero y))).
    { apply Ok_inj. rewrite <- Hd. cbn [fromJs]. unfold coerce, valueParser, parseFloat.
      cbn [to_string bind]. now rewrite parse_float_to_string. }
    subst d.
    apply (value_round_trip TNumber _ (number_to_string (positive_zero y)));
      try assumption; try reflexivity.
    + apply number_string_clean.
    + unfold coerce, valueParser, parseFloat. cbn [to_string bind].
      rewrite parse_float_to_string by (destruct y; exact Hc || exact I).
      now rewrite positive_zero_idem.
  - destruct Hv as (s & -> & Hs).
    assert (Ed : d = DValue TString (VStr s))
      by (apply Ok_inj; rewrite <- Hd; reflexivity).
    subst d. apply (value_round_trip TString (VStr s) s); try assumption; reflexivity.
Qed.

(** C2, amended.  For a template whose keys and item names are XML names
    without colon, none of them inherited from [Object.prototype], each key
    declared once, and a native value of exactly its shape in which every
    number under an Integer template is [NaN] or an integer below [10 ^ 21]
    in magnitude and every string consists of XML characters other than the
    carriage return: serializing [fromJs] of the value under the name
    [root], parsing that text with [fromXmlString] and rendering with [toJs]
    returns a value that agrees with the original field for field. *)
Theorem C2_text_round_trip :
  forall t v, tree_template t -> shaped printable_integer clean t v ->
    exists d s d' r,
      fromJs t v = Ok d /\ toXmlString d "root" = Ok s /\
      fromXmlString t s = Ok d' /\ toJs d' = Ok r /\ agrees t v r.
Proof.
  intros t v Ht Hv.
  destruct (round_trip_native t v (tree_template_literal t Ht)
              (shaped_weaken _ _ t v Hv)) as (d & r & Hd & Hr & Ha).
  destruct (tree_round_trip t Ht v d "root" Hv Hd eq_refl) as (e & He & Hre & Hback).
  destruct (serialize_rendered e Hre) as (s & Hs & _).
  exists d, (string_of_list_ascii s), d, r.
  split; [exact Hd|]. split.
  { unfold toXmlString. cbn [bind]. rewrite He. cbn [bind]. rewrite Hs. reflexivity. }
  split; [|split; assumption].
  unfold fromXmlString. rewrite (parse_serialize e s Hre Hs). exact Hback.
Qed.

Lemma C2_text_round_trip_witness :
  exists d s d' r,
    fromJs readme_template readme_data = Ok d /\ toXmlString d "root" = Ok s /\
    fromXmlString readme_template s = Ok d' /\ toJs d' = Ok r /\
    agrees readme_template readme_data r.
Proof.
  apply C2_text_round_trip.
  - simpl. repeat split; repeat constructor; simpl; intuition discriminate.
  - simpl. repeat split.
    + exists (of_Z 15). repeat split. simpl. discriminate.
    + exists true. reflexivity.
    + exists (of_Z 3). repeat split. simpl. discriminate.
    + exists (of_Z 5). repeat split. simpl. discriminate.
Defined.

(** C2, counterexample.  Under an Integer template the number [10 ^ 21]
    is ingested as [1], written as [<root>1</root>] and read back as [1]. *)
Lemma C2_integer_1e21_comes_back_as_1 :
  (d <- fromJs TInteger (VNum (Finite false 1 21)) ;;
   s <- toXmlString d "root" ;;
   d' <- fromXmlString TInteger s ;;
   r <- toJs d' ;; Ok (s, r))
  = Ok ("<root>1</root>", VNum (Finite false 1 0))
  /\ ~ text_round_trip integer_or_nan any_string.
Proof.
  split; [reflexivity|].
  intros H.
  destruct (H TInteger (VNum (Finite false 1 21)))
    as (d & s & d' & r & Hd & Hs & Hd' & Hr & Ha).
  - exact I.
  - exists (Finite false 1 21). repeat split.
    + simpl. discriminate.
    + right. simpl. lia.
  - vm_compute in Hd. apply Ok_inj in Hd; subst d.
    vm_compute in Hs. apply Ok_inj in Hs; subst s.
    vm_compute in Hd'. apply Ok_inj in Hd'; subst d'.
    vm_compute in Hr. apply Ok_inj in Hr; subst r.
    vm_compute in Ha. discriminate.
Qed.

(** ** Stores *)

Lemma store_set_length (h : store) (a : addr) (c : cell) :
  List.length (store_set h a c) = List.length h.
Proof.
  revert a; induction h as [|x h IH]; intros [|a]; simpl; auto.
Qed.

Lemma store_set_same (h : store) (a : addr) (c : cell) :
  (a < List.length h)%nat -> nth_error (store_set h a c) a = Some c.
Proof.
  revert a; induction h as [|x h IH]; intros [|a]; simpl; intros H;
    try lia; auto. apply IH. lia.
Qed.

Lemma store_set_other (h : store) (a b : addr) (c : cell) :
  a <> b -> nth_error (store_set h a c) b = nth_error h b.
Proof.
  revert a b; induction h as [|x h IH]; intros [|a] [|b] H; simpl; auto.
  congruence.
Qed.

Lemma store_set_app (h ext : store) (a : addr) (c : cell) :
  (List.length h <= a)%nat ->
  store_set (h ++ ext) a c = h ++ store_set ext (a - List.length h)%nat c.
Proof.
  revert a; induction h as [|x h IH]; intros a H; simpl.
  - now rewrite Nat.sub_0_r.
  - destruct a as [|a]; [simpl in H; lia|]. simpl. f_equal. apply IH.
    simpl in H. lia.
Qed.

Lemma extends_refl (h : store) : extends h h.
Proof. exists []. now rewrite app_nil_r. Qed.

Lemma extends_trans (h1 h2 h3 : store) :
  extends h1 h2 -> extends h2 h3 -> extends h1 h3.
Proof.
  intros [e1 ->] [e2 ->]. exists (e1 ++ e2). now rewrite app_assoc.
Qed.

Lemma extends_app (h ext : store) : extends h (h ++ ext).
Proof. now exists ext. Qed.

Lemma extends_length (h h' : store) :
  extends h h' -> (List.length h <= List.length h')%nat.
Proof. intros [e ->]. rewrite length_app. lia. Qed.

Lemma extends_nth (h h' : store) (a : addr) :
  extends h h' -> (a < List.length h)%nat -> nth_error h' a = nth_error h a.
Proof. intros [e ->] H. now apply nth_error_app1. Qed.

Lemma extends_store_set (h h' : store) (a : addr) (c : cell) :
  extends h h' -> (List.length h <= a)%nat -> extends h (store_set h' a c).
Proof.
  intros [e ->] H. rewrite store_set_app by exact H. apply extends_app.
Qed.

Lemma denotes_arr (P : addr -> Prop) (h : store) (r : ref) (vs : list value) :
  denotes_on P h r (VArr vs) <->
  exists a rs, r = RObj a /\ P a /\ nth_error h a = Some (CArray rs) /\
               Forall2 (denotes_on P h) rs vs.
Proof.
  cbn [denotes_on].
  assert (H : forall rs vs,
            (fix all (rs : list ref) (vs : list value) {struct vs} : Prop :=
               match rs, vs with
               | [], [] => True
               | r :: rs', v :: vs' => denotes_on P h r v /\ all rs' vs'
               | _, _ => False
               end) rs vs <-> Forall2 (denotes_on P h) rs vs).
  { clear. intros rs vs; revert rs.
    induction vs as [|v vs IH]; intros [|r rs].
    - split; [constructor | trivial].
    - split; [contradiction | intros H; inversion H].
    - split; [contradiction | intros H; inversion H].
    - rewrite IH. split.
      + intros [H1 H2]; now constructor.
      + intros H; inversion H; subst; auto. }
  split; intros (a & rs & H1 & H2 & H3 & H4); exists a, rs;
    repeat split; auto; now apply H.
Qed.

Lemma denotes_obj (P : addr -> Prop) (h : store) (r : ref) (cn : string)
    (fs : list (string * value)) :
  denotes_on P h r (VObj cn fs) <->
  exists a frs, r = RObj a /\ P a /\ nth_error h a = Some (CObject cn frs) /\
                fields_on P h frs fs.
Proof.
  cbn [denotes_on]. unfold fields_on.
  assert (H : forall frs fs,
            (fix all (frs : list (string * ref)) (fs : list (string * value))
                     {struct fs} : Prop :=
               match frs, fs with
               | [], [] => True
               | (k, r) :: frs', (k', v) :: fs' =>
                   k = k' /\ denotes_on P h r v /\ all frs' fs'
               | _, _ => False
               end) frs fs
            <-> Forall2 (fun kr kv => fst kr = fst kv /\
                                      denotes_on P h (snd kr) (snd kv)) frs fs).
  { clear. intros frs fs; revert frs.
    induction fs as [|[k' v] fs IH]; intros [|[k r] frs].
    - split; [constructor | trivial].
    - split; [contradiction | intros H; inversion H].
    - split; [contradiction | intros H; inversion H].
    - rewrite IH. split.
      + intros (H1 & H2 & H3); constructor; auto.
      + intros H; inversion H as [|? ? ? ? [H1 H2] H3]; subst; auto. }
  split; intros (a & frs & H1 & H2 & H3 & H4); exists a, frs;
    repeat split; auto; now apply H.
Qed.

(** A reading survives any change of the store outside the cells it
    visits, and may be placed in a larger set of addresses. *)
Lemma denotes_change (P Q : addr -> Prop) (h h' : store) :
  (forall a, P a -> Q a /\ nth_error h' a = nth_error h a) ->
  forall v r, denotes_on P h r v -> denotes_on Q h' r v.
Proof.
  intros HPQ.
  induction v as [| | | | |vs IH|cn fs IH] using value_induction; intros r;
    try (cbn [denotes_on]; tauto).
  - rewrite !denotes_arr. intros (a & rs & -> & Ha & Hcell & Hall).
    exists a, rs. destruct (HPQ a Ha) as [Hq Hn].
    repeat split; auto; [congruence|].
    clear -IH Hall. revert rs Hall.
    induction IH as [|v vs Hv _ IHvs]; intros rs Hall; inversion Hall; subst;
      constructor; auto.
  - rewrite !denotes_obj. intros (a & frs & -> & Ha & Hcell & Hall).
    exists a, frs. destruct (HPQ a Ha) as [Hq Hn].
    repeat split; auto; [congruence|].
    unfold fields_on in *. clear -IH Hall. revert frs Hall.
    induction IH as [|v vs Hv _ IHvs]; intros frs Hall;
      inversion Hall as [|? ? ? ? [H1 H2] H3]; subst; constructor; auto.
Qed.

Lemma fields_change (P Q : addr -> Prop) (h h' : store)
    (frs : list (string * ref)) (fs : list (string * value)) :
  (forall a, P a -> Q a /\ nth_error h' a = nth_error h a) ->
  fields_on P h frs fs -> fields_on Q h' frs fs.
Proof.
  intros HPQ H. unfold fields_on in *.
  induction H as [|kr kv frs fs [H1 H2] _ IH]; constructor; auto.
  split; [exact H1|]. exact (denotes_change P Q h h' HPQ _ _ H2).
Qed.

Lemma alloc_value_arr (vs : list value) (h : store) :
  alloc_value (VArr vs) h
  = let '(rs, h') := alloc_values vs h in
    (RObj (List.length h'), h' ++ [CArray rs]).
Proof. reflexivity. Qed.

Lemma alloc_value_obj (cn : string) (fs : list (string * value)) (h : store) :
  alloc_value (VObj cn fs) h
  = let '(frs, h') := alloc_fields fs h in
    (RObj (List.length h'), h' ++ [CObject cn frs]).
Proof. reflexivity. Qed.

Lemma between_widen (lo hi lo' hi' : nat) (h h' : store) :
  (lo' <= lo)%nat -> (hi <= hi')%nat -> extends h h' ->
  (hi <= List.length h)%nat ->
  forall a, between lo hi a ->
            between lo' hi' a /\ nth_error h' a = nth_error h a.
Proof.
  intros H1 H2 He Hh a [Ha1 Ha2]. split; [unfold between; lia|].
  apply extends_nth; [exact He | lia].
Qed.

(** Allocation only adds cells, and the data it allocates lie in them. *)
Lemma alloc_value_spec (v : value) :
  forall h r h', alloc_value v h = (r, h') ->
    extends h h' /\
    denotes_on (between (List.length h) (List.length h')) h' r v.
Proof.
  induction v as [| | | | |vs IH|cn fs IH] using value_induction; intros h r h';
    try (cbn [alloc_value]; intros E; injection E as <- <-;
         split; [apply extends_refl | reflexivity]).
  - rewrite alloc_value_arr.
    destruct (alloc_values vs h) as [rs h1] eqn:E. intros H; injection H as <- <-.
    assert (Hall : extends h h1 /\
              Forall2 (denotes_on (between (List.length h) (List.length h1)) h1) rs vs).
    { clear -IH E. revert h rs h1 E.
      induction IH as [|v vs Hv _ IHvs]; intros h rs h1 E; cbn [alloc_values] in E.
      - injection E as <- <-. split; [apply extends_refl | constructor].
      - destruct (alloc_value v h) as [r h2] eqn:Ev.
        destruct (alloc_values vs h2) as [rs' h3] eqn:Evs.
        injection E as <- <-.
        destruct (Hv _ _ _ Ev) as [He Hd]. destruct (IHvs _ _ _ Evs) as [He' Hd'].
        assert (L1 := extends_length _ _ He). assert (L2 := extends_length _ _ He').
        split; [eapply extends_trans; eauto|]. constructor.
        + eapply denotes_change; [|exact Hd].
          apply between_widen; auto.
        + eapply Forall2_impl; [|exact Hd']. intros r' v'.
          apply denotes_change. intros a [Ha1 Ha2]. split; [unfold between; lia|reflexivity]. }
    destruct Hall as [He Hall]. assert (L := extends_length _ _ He).
    split; [eapply extends_trans; [exact He | apply extends_app]|].
    apply denotes_arr. exists (List.length h1), rs. rewrite length_app. cbn [List.length].
    repeat split; try (unfold between; lia).
    + rewrite nth_error_app2 by lia. now rewrite Nat.sub_diag.
    + eapply Forall2_impl; [|exact Hall]. intros r' v'.
      apply denotes_change. apply between_widen; try lia. apply extends_app.
  - rewrite alloc_value_obj.
    destruct (alloc_fields fs h) as [frs h1] eqn:E. intros H; injection H as <- <-.
    assert (Hall : extends h h1 /\
              fields_on (between (List.length h) (List.length h1)) h1 frs fs).
    { clear -IH E. revert h frs h1 E. unfold fields_on.
      induction IH as [|[k v] fs Hv _ IHfs]; intros h frs h1 E; cbn [alloc_fields] in E.
      - injection E as <- <-. split; [apply extends_refl | constructor].
      - destruct (alloc_value v h) as [r h2] eqn:Ev.
        destruct (alloc_fields fs h2) as [frs' h3] eqn:Efs.
        injection E as <- <-. cbn [snd] in Hv.
        destruct (Hv _ _ _ Ev) as [He Hd]. destruct (IHfs _ _ _ Efs) as [He' Hd'].
        assert (L1 := extends_length _ _ He). assert (L2 := extends_length _ _ He').
        split; [eapply extends_trans; eauto|]. constructor.
        + split; [reflexivity|]. cbn [snd]. eapply denotes_change; [|exact Hd].
          apply between_widen; auto.
        + eapply Forall2_impl; [|exact Hd']. intros r' v' [H1 H2].
          split; [exact H1|]. revert H2.
          apply denotes_change. intros a [Ha1 Ha2]. split; [unfold between; lia|reflexivity]. }
    destruct Hall as [He Hall]. assert (L := extends_length _ _ He).
    split; [eapply extends_trans; [exact He | apply extends_app]|].
    apply denotes_obj. exists (List.length h1), frs. rewrite length_app. cbn [List.length].
    repeat split; try (unfold between; lia).
    + rewrite nth_error_app2 by lia. now rewrite Nat.sub_diag.
    + eapply fields_change; [|exact Hall].
      apply between_widen; try lia. apply extends_app.
Qed.

Lemma alloc_object_spec (cn : string) (fs : list (string * value)) (h : store) :
  exists a frs h',
    alloc_value (VObj cn fs) h = (RObj a, h') /\
    (List.length h <= a)%nat /\ List.length h' = S a /\ extends h h' /\
    nth_error h' a = Some (CObject cn frs) /\
    fields_on (fun x => between (List.length h) (List.length h') x /\ x <> a)
              h' frs fs.
Proof.
  rewrite alloc_value_obj. destruct (alloc_fields fs h) as [frs h1] eqn:E.
  assert (Hall : extends h h1 /\
            fields_on (between (List.length h) (List.length h1)) h1 frs fs).
  { clear -E. revert h frs h1 E. unfold fields_on.
    induction fs as [|[k v] fs IH]; intros h frs h1 E; cbn [alloc_fields] in E.
    - injection E as <- <-. split; [apply extends_refl | constructor].
    - destruct (alloc_value v h) as [r h2] eqn:Ev.
      destruct (alloc_fields fs h2) as [frs' h3] eqn:Efs.
      injection E as <- <-.
      destruct (alloc_value_spec v _ _ _ Ev) as [He Hd].
      destruct (IH _ _ _ Efs) as [He' Hd'].
      assert (L1 := extends_length _ _ He). assert (L2 := extends_length _ _ He').
      split; [eapply extends_trans; eauto|]. constructor.
      + split; [reflexivity|]. cbn [snd]. eapply denotes_change; [|exact Hd].
        apply between_widen; auto.
      + eapply Forall2_impl; [|exact Hd']. intros r' v' [H1 H2].
        split; [exact H1|]. revert H2.
        apply denotes_change. intros a [Ha1 Ha2].
        split; [unfold between; lia|reflexivity]. }
  destruct Hall as [He Hall]. assert (L := extends_length _ _ He).
  exists (List.length h1), frs, (h1 ++ [CObject cn frs]).
  split; [reflexivity|]. split; [exact L|].
  split; [rewrite length_app; simpl; lia|].
  split; [eapply extends_trans; [exact He | apply extends_app]|].
  split; [rewrite nth_error_app2 by lia; now rewrite Nat.sub_diag|].
  eapply fields_change; [|exact Hall].
  intros a [Ha1 Ha2]. rewrite length_app. cbn [List.length].
  split; [unfold between; lia|]. apply nth_error_app1. lia.
Qed.

Lemma fields_js_set (P : addr -> Prop) (h : store) (frs : list (string * ref))
    (fs : list (string * value)) (k : string) (x : ref) (v : value) :
  fields_on P h frs fs -> denotes_on P h x v ->
  fields_on P h (js_set frs k x) (js_set fs k v).
Proof.
  intros H Hx. unfold js_set. destruct (String.eqb k "__proto__"); [exact H|].
  unfold fields_on in *.
  induction H as [|[k1 r1] [k2 v1] frs fs [H1 H2] Ht IH]; cbn [assign].
  - constructor; [split; [reflexivity | exact Hx] | constructor].
  - cbn [fst snd] in *. subst k2.
    destruct (String.eqb k1 k); constructor; auto.
Qed.

Lemma toJs_store_object (props : list (string * schema)) (c : ctor)
    (ps : list (string * dentity)) (h : store) :
  toJs_store (DObject (TObject props c) ps) h
  = match alloc_value (new c) h with
    | (RObj result, h0) => toJs_store_each result ps h0
    | _ => Throw TypeError
    end.
Proof. reflexivity. Qed.

Lemma toJs_store_array (t : schema) (items : list dentity) (h : store) :
  toJs_store (DArray t items) h
  = toJs_store_items (List.length h) items (h ++ [CArray []]).
Proof. reflexivity. Qed.

Lemma scalars_object (t : schema) (ps : list (string * dentity)) :
  scalars (DObject t ps) <-> Forall (fun kd => scalars (snd kd)) ps.
Proof.
  cbn [scalars]. induction ps as [|[k d] ps IH].
  - split; [constructor | trivial].
  - rewrite IH. split.
    + intros [H1 H2]; now constructor.
    + intros H; inversion H; subst; auto.
Qed.

Lemma scalars_array (t : schema) (ds : list dentity) :
  scalars (DArray t ds) <-> Forall scalars ds.
Proof.
  cbn [scalars]. induction ds as [|d ds IH].
  - split; [constructor | trivial].
  - rewrite IH. split.
    + intros [H1 H2]; now constructor.
    + intros H; inversion H; subst; auto.
Qed.

Lemma toJs_store_each_spec (base : store) (a : addr) (cn : string)
    (l : list (string * dentity)) :
  Forall (fun kd => store_faithful (snd kd)) l ->
  Forall (fun kd => scalars (snd kd)) l ->
  forall acc fs h frs,
    toJs_each l acc = Ok fs -> extends base h ->
    (List.length base <= a < List.length h)%nat ->
    nth_error h a = Some (CObject cn frs) ->
    fields_on (fun x => between (List.length base) (List.length h) x /\ x <> a)
              h frs acc ->
    exists h' frs',
      toJs_store_each a l h = Ok (RObj a, h') /\ extends base h' /\
      (List.length h <= List.length h')%nat /\
      nth_error h' a = Some (CObject cn frs') /\
      fields_on (fun x => between (List.length base) (List.length h') x /\ x <> a)
                h' frs' fs.
Proof.
  induction l as [|[name child] l IH]; intros Hf Hs acc fs h frs Hpure Hext Ha Hcell Hfields.
  - cbn [toJs_each] in Hpure. apply Ok_inj in Hpure; subst fs.
    exists h, frs. cbn [toJs_store_each]. repeat split; auto.
  - inversion Hf as [|? ? Hchild Hf']; subst. inversion Hs as [|? ? Hsc Hs']; subst.
    cbn [snd] in *. cbn [toJs_each] in Hpure.
    apply bind_Ok in Hpure as (xv & Hxv & Hpure).
    destruct (Hchild Hsc xv Hxv h) as (x & h1 & Hrun & He1 & Hx).
    assert (L1 := extends_length _ _ He1).
    assert (L0 := extends_length _ _ Hext).
    assert (Hcell1 : nth_error h1 a = Some (CObject cn frs)).
    { rewrite (extends_nth h h1 a He1) by lia. exact Hcell. }
    set (h2 := store_set h1 a (CObject cn (js_set frs name x))).
    assert (L2 : List.length h2 = List.length h1) by apply store_set_length.
    destruct (IH Hf' Hs' (js_set acc name xv) fs h2 (js_set frs name x))
      as (h' & frs' & Hloop & He' & L' & Hcell' & Hfields').
    + exact Hpure.
    + apply extends_store_set; [|lia]. eapply extends_trans; eauto.
    + lia.
    + apply store_set_same. lia.
    + apply fields_js_set.
      * eapply fields_change; [|exact Hfields].
        intros a' [[B1 B2] Hne]. split; [split; [unfold between; lia | exact Hne]|].
        unfold h2. rewrite store_set_other by congruence.
        apply extends_nth; [exact He1 | lia].
      * eapply denotes_change; [|exact Hx].
        intros a' [B1 B2]. split; [split; [unfold between; lia | lia]|].
        unfold h2. apply store_set_other. lia.
    + exists h', frs'. cbn [toJs_store_each]. rewrite Hrun. cbn [bind fst snd].
      rewrite Hcell1. fold h2. rewrite Hloop. repeat split; auto. lia.
Qed.

Lemma toJs_store_items_spec (base : store) (a : addr) (l : list dentity) :
  Forall store_faithful l -> Forall scalars l ->
  forall xs h rs done,
    mapM toJs l = Ok xs -> extends base h ->
    (List.length base <= a < List.length h)%nat ->
    nth_error h a = Some (CArray rs) ->
    Forall2 (denotes_on (fun x => between (List.length base) (List.length h) x
                                  /\ x <> a) h) rs done ->
    exists h' rs',
      toJs_store_items a l h = Ok (RObj a, h') /\ extends base h' /\
      (List.length h <= List.length h')%nat /\
      nth_error h' a = Some (CArray rs') /\
      Forall2 (denotes_on (fun x => between (List.length base) (List.length h') x
                                    /\ x <> a) h') rs' (done ++ xs).
Proof.
  induction l as [|child l IH]; intros Hf Hs xs h rs done Hpure Hext Ha Hcell Hitems.
  - cbn [mapM] in Hpure. apply Ok_inj in Hpure; subst xs.
    exists h, rs. cbn [toJs_store_items]. rewrite app_nil_r. repeat split; auto.
  - inversion Hf as [|? ? Hchild Hf']; subst. inversion Hs as [|? ? Hsc Hs']; subst.
    cbn [mapM] in Hpure.
    apply bind_Ok in Hpure as (xv & Hxv & Hpure).
    apply bind_Ok in Hpure as (xs' & Hxs' & Hpure).
    apply Ok_inj in Hpure; subst xs.
    destruct (Hchild Hsc xv Hxv h) as (x & h1 & Hrun & He1 & Hx).
    assert (L1 := extends_length _ _ He1).
    assert (L0 := extends_length _ _ Hext).
    assert (Hcell1 : nth_error h1 a = Some (CArray rs)).
    { rewrite (extends_nth h h1 a He1) by lia. exact Hcell. }
    set (h2 := store_set h1 a (CArray (rs ++ [x]))).
    assert (L2 : List.length h2 = List.length h1) by apply store_set_length.
    destruct (IH Hf' Hs' xs' h2 (rs ++ [x]) (done ++ [xv]))
      as (h' & rs' & Hloop & He' & L' & Hcell' & Hitems').
    + exact Hxs'.
    + apply extends_store_set; [|lia]. eapply extends_trans; eauto.
    + lia.
    + apply store_set_same. lia.
    + apply Forall2_app.
      * eapply Forall2_impl; [|exact Hitems]. intros r' v'.
        apply denotes_change.
        intros a' [[B1 B2] Hne]. split; [split; [unfold between; lia | exact Hne]|].
        unfold h2. rewrite store_set_other by congruence.
        apply extends_nth; [exact He1 | lia].
      * constructor; [|constructor].
        eapply denotes_change; [|exact Hx].
        intros a' [B1 B2]. split; [split; [unfold between; lia | lia]|].
        unfold h2. apply store_set_other. lia.
    + exists h', rs'. cbn [toJs_store_items]. rewrite Hrun. cbn [bind fst snd].
      rewrite Hcell1. fold h2. rewrite Hloop.
      rewrite <- app_assoc in Hitems'. repeat split; auto. lia.
Qed.

(** Rendering in the store is faithful to [toJs] and only adds cells. *)
Lemma toJs_store_spec (d : dentity) : store_faithful d.
Proof.
  induction d as [t ps IH|t ds IH|t v0] using dentity_induction;
    intros Hs v Hv h.
  - destruct t as [props c| | | | |]; try discriminate.
    apply scalars_object in Hs.
    rewrite toJs_object in Hv. apply bind_Ok in Hv as (fs & Hfs & Hv).
    apply Ok_inj in Hv; subst v.
    destruct (alloc_object_spec (ctor_name c) (ctor_fields c) h)
      as (a & frs & h0 & Halloc & La & Lh0 & He0 & Hcell & Hfields).
    destruct (toJs_store_each_spec h a (ctor_name c) ps IH Hs
                (ctor_fields c) fs h0 frs Hfs He0 ltac:(lia) Hcell Hfields)
      as (h' & frs' & Hloop & He' & L' & Hcell' & Hfields').
    exists (RObj a), h'. rewrite toJs_store_object. unfold new. rewrite Halloc.
    split; [exact Hloop|]. split; [exact He'|].
    apply denotes_obj. exists a, frs'.
    repeat split; auto; try (unfold between; lia).
    eapply fields_change; [|exact Hfields']. intros a' [B _]. auto.
  - apply scalars_array in Hs.
    rewrite toJs_array in Hv. apply bind_Ok in Hv as (xs & Hxs & Hv).
    apply Ok_inj in Hv; subst v.
    destruct (toJs_store_items_spec h (List.length h) ds IH Hs xs
                (h ++ [CArray []]) [] [] Hxs (extends_app _ _))
      as (h' & rs' & Hloop & He' & L' & Hcell' & Hitems').
    + rewrite length_app. simpl. lia.
    + rewrite nth_error_app2 by lia. now rewrite Nat.sub_diag.
    + constructor.
    + exists (RObj (List.length h)), h'. rewrite toJs_store_array.
      split; [exact Hloop|]. split; [exact He'|].
      rewrite length_app in L'. cbn [List.length] in L'.
      apply denotes_arr. exists (List.length h), rs'.
      repeat split; auto; try (unfold between; lia).
      eapply Forall2_impl; [|exact Hitems']. intros r' v'.
      apply denotes_change. intros a' [B _]. auto.
  - cbn [toJs] in Hv. apply Ok_inj in Hv; subst v.
    exists (fst (alloc_value v0 h)), h.
    destruct v0; try contradiction; cbn [toJs_store];
      (split; [reflexivity|]); (split; [apply extends_refl | reflexivity]).
Qed.

(** ** Trees in the store *)

Lemma node_element (P : addr -> Prop) (doc : addr) (h : store) (a : addr)
    (tag : string) (cs : list node) :
  node_on P doc h a (Element tag cs) <->
  P a /\ exists kids, nth_error h a = Some (CElement doc tag kids) /\
                      Forall2 (node_on P doc h) kids cs.
Proof.
  cbn [node_on]. apply and_iff_compat_l.
  assert (H : forall kids cs,
            (fix all (kids : list addr) (cs : list node) {struct cs} : Prop :=
               match kids, cs with
               | [], [] => True
               | k :: kids', c :: cs' => node_on P doc h k c /\ all kids' cs'
               | _, _ => False
               end) kids cs <-> Forall2 (node_on P doc h) kids cs).
  { clear. intros kids cs; revert kids.
    induction cs as [|c cs IH]; intros [|k kids].
    - split; [constructor | trivial].
    - split; [contradiction | intros H; inversion H].
    - split; [contradiction | intros H; inversion H].
    - rewrite IH. split.
      + intros [H1 H2]; now constructor.
      + intros H; inversion H; subst; auto. }
  split; intros (kids & H1 & H2); exists kids; split; auto; now apply H.
Qed.

Lemma node_change (P Q : addr -> Prop) (doc : addr) (h h' : store) :
  (forall a, P a -> Q a /\ nth_error h' a = nth_error h a) ->
  forall n a, node_on P doc h a n -> node_on Q doc h' a n.
Proof.
  intros HPQ.
  induction n as [tag cs IH|s] using node_induction; intros a.
  - rewrite !node_element. intros (Ha & kids & Hcell & Hall).
    destruct (HPQ a Ha) as [Hq Hn]. split; [exact Hq|].
    exists kids. split; [congruence|].
    clear -IH Hall. revert kids Hall.
    induction IH as [|c cs Hc _ IHcs]; intros kids Hall; inversion Hall; subst;
      constructor; auto.
  - cbn [node_on]. intros [Ha Hcell]. destruct (HPQ a Ha) as [Hq Hn].
    split; [exact Hq | congruence].
Qed.

Lemma toXml_store_object (t : schema) (ps : list (string * dentity))
    (name : string) (document : option addr) (h : store) :
  toXml_store (DObject t ps) name document h
  = (deh <- createElement_store name document h ;;
     let '(doc, element, h0) := deh in toXml_store_props doc element ps h0).
Proof. reflexivity. Qed.

Lemma toXml_store_array (t : schema) (ds : list dentity)
    (name : string) (document : option addr) (h : store) :
  toXml_store (DArray t ds) name document h
  = (deh <- createElement_store name document h ;;
     let '(doc, element, h0) := deh in toXml_store_items doc element t ds h0).
Proof. reflexivity. Qed.

(** Creating an element adds the element, after the document if a new
    one is needed. *)
Lemma createElement_store_spec (name : string) (document : option addr)
    (h : store) (e : node) :
  createElement name = Ok e ->
  exists element h0,
    createElement_store name document h
    = Ok (document_of document h, element, h0) /\
    extends h h0 /\ (List.length h <= element)%nat /\
    List.length h0 = S element /\
    nth_error h0 element
    = Some (CElement (document_of document h) name []) /\
    (document = None ->
     nth_error h0 (List.length h) = Some CDocument /\ element <> List.length h).
Proof.
  unfold createElement, createElement_store. destruct (is_name name); [|discriminate].
  intros _. destruct document as [a|]; cbn [document_of].
  - exists (List.length h), (h ++ [CElement a name []]).
    split; [reflexivity|]. split; [apply extends_app|]. split; [lia|].
    split; [rewrite length_app; simpl; lia|].
    split; [|discriminate].
    rewrite nth_error_app2 by lia. now rewrite Nat.sub_diag.
  - exists (List.length (h ++ [CDocument])),
           ((h ++ [CDocument]) ++ [CElement (List.length h) name []]).
    split; [reflexivity|].
    split; [rewrite <- app_assoc; apply extends_app|].
    split; [rewrite length_app; simpl; lia|].
    split; [rewrite !length_app; simpl; lia|].
    split.
    + rewrite nth_error_app2 by lia. now rewrite Nat.sub_diag.
    + intros _. split; [|rewrite length_app; simpl; lia].
      rewrite <- app_assoc. rewrite nth_error_app2 by lia.
      now rewrite Nat.sub_diag.
Qed.

Lemma appendChild_store_spec (h : store) (e ca doc : addr) (tag : string)
    (kids : list addr) :
  nth_error h e = Some (CElement doc tag kids) ->
  appendChild_store h e ca
  = Ok (store_set h e (CElement doc tag (kids ++ [ca]))).
Proof. intros H. unfold appendChild_store. now rewrite H. Qed.

Section ChildrenLoop.
Variables (base : store) (doc e : addr) (tag : string).

(** One more child: what the loops of [toXml] do at each step. *)
Lemma toXml_store_step (child : dentity) (name : string) (c : node)
    (cs : list node) (kids : list addr) (h : store) :
  xml_faithful child -> toXml child name = Ok c ->
  extends base h -> (List.length base <= e < List.length h)%nat ->
  nth_error h e = Some (CElement doc tag kids) ->
  Forall2 (node_on (fun x => between (List.length base) (List.length h) x /\ x <> e)
                   doc h) kids cs ->
  exists ca h1 h2,
    toXml_store child name (Some doc) h = Ok (ca, h1) /\
    appendChild_store h1 e ca = Ok h2 /\
    extends base h2 /\ (List.length h <= List.length h2)%nat /\
    nth_error h2 e = Some (CElement doc tag (kids ++ [ca])) /\
    Forall2 (node_on (fun x => between (List.length base) (List.length h2) x /\ x <> e)
                     doc h2) (kids ++ [ca]) (cs ++ [c]) /\
    (forall x, (x < List.length h)%nat -> x <> e ->
               nth_error h2 x = nth_error h x).
Proof.
  intros Hchild Hc Hext He Hcell Hkids.
  destruct (Hchild name c Hc (Some doc) h) as (ca & h1 & Hrun & He1 & Hnode & _).
  cbn [document_of] in Hnode.
  assert (L1 := extends_length _ _ He1). assert (L0 := extends_length _ _ Hext).
  assert (Hcell1 : nth_error h1 e = Some (CElement doc tag kids)).
  { rewrite (extends_nth h h1 e He1) by lia. exact Hcell. }
  set (h2 := store_set h1 e (CElement doc tag (kids ++ [ca]))).
  assert (L2 : List.length h2 = List.length h1) by apply store_set_length.
  exists ca, h1, h2. split; [exact Hrun|].
  split; [now apply appendChild_store_spec|].
  split; [apply extends_store_set; [eapply extends_trans; eauto | lia]|].
  split; [lia|]. split; [apply store_set_same; lia|]. split.
  - apply Forall2_app.
    + eapply Forall2_impl; [|exact Hkids]. intros k c'. apply node_change.
      intros a' [[B1 B2] Hne]. split; [split; [unfold between; lia | exact Hne]|].
      unfold h2. rewrite store_set_other by congruence.
      apply extends_nth; [exact He1 | lia].
    + constructor; [|constructor]. eapply node_change; [|exact Hnode].
      intros a' [B1 B2]. split; [split; [unfold between; lia | lia]|].
      unfold h2. apply store_set_other. lia.
  - intros x Hx Hne. unfold h2. rewrite store_set_other by congruence.
    apply extends_nth; [exact He1 | exact Hx].
Qed.

Lemma toXml_store_props_spec (l : list (string * dentity)) :
  Forall (fun kd => xml_faithful (snd kd)) l ->
  forall cs kids h n,
    toXml_props l (Element tag cs) = Ok n -> extends base h ->
    (List.length base <= e < List.length h)%nat ->
    nth_error h e = Some (CElement doc tag kids) ->
    Forall2 (node_on (fun x => between (List.length base) (List.length h) x /\ x <> e)
                     doc h) kids cs ->
    exists h' kids' cs',
      n = Element tag cs' /\ toXml_store_props doc e l h = Ok (e, h') /\
      extends base h' /\ (List.length h <= List.length h')%nat /\
      nth_error h' e = Some (CElement doc tag kids') /\
      Forall2 (node_on (fun x => between (List.length base) (List.length h') x /\ x <> e)
                       doc h') kids' cs' /\
      (forall x, (x < List.length h)%nat -> x <> e ->
                 nth_error h' x = nth_error h x).
Proof.
  induction l as [|[name child] l IH]; intros Hf cs kids h n Hpure Hext He Hcell Hkids.
  - cbn [toXml_props] in Hpure. apply Ok_inj in Hpure; subst n.
    exists h, kids, cs. cbn [toXml_store_props]. repeat split; auto.
  - inversion Hf as [|? ? Hchild Hf']; subst. cbn [snd] in Hchild.
    cbn [toXml_props] in Hpure. apply bind_Ok in Hpure as (c & Hc & Hpure).
    cbn [appendChild] in Hpure.
    destruct (toXml_store_step child name c cs kids h Hchild Hc Hext He Hcell Hkids)
      as (ca & h1 & h2 & Hrun & Happ & He2 & L2 & Hcell2 & Hkids2 & Hkeep).
    destruct (IH Hf' _ _ h2 n Hpure He2 ltac:(lia) Hcell2 Hkids2)
      as (h' & kids' & cs' & -> & Hloop & He' & L' & Hcell' & Hkids' & Hkeep').
    exists h', kids', cs'. cbn [toXml_store_props].
    rewrite Hrun. cbn [bind fst snd]. rewrite Happ. cbn [bind]. rewrite Hloop.
    repeat split; auto; [lia|].
    intros x Hx Hne. rewrite Hkeep' by (try lia; exact Hne). now apply Hkeep.
Qed.

Lemma toXml_store_items_spec (t : schema) (l : list dentity) :
  Forall xml_faithful l ->
  forall cs kids h n,
    toXml_items t l (Element tag cs) = Ok n -> extends base h ->
    (List.length base <= e < List.length h)%nat ->
    nth_error h e = Some (CElement doc tag kids) ->
    Forall2 (node_on (fun x => between (List.length base) (List.length h) x /\ x <> e)
                     doc h) kids cs ->
    exists h' kids' cs',
      n = Element tag cs' /\ toXml_store_items doc e t l h = Ok (e, h') /\
      extends base h' /\ (List.length h <= List.length h')%nat /\
      nth_error h' e = Some (CElement doc tag kids') /\
      Forall2 (node_on (fun x => between (List.length base) (List.length h') x /\ x <> e)
                       doc h') kids' cs' /\
      (forall x, (x < List.length h)%nat -> x <> e ->
                 nth_error h' x = nth_error h x).
Proof.
  induction l as [|child l IH]; intros Hf cs kids h n Hpure Hext He Hcell Hkids.
  - cbn [toXml_items] in Hpure. apply Ok_inj in Hpure; subst n.
    exists h, kids, cs. cbn [toXml_store_items]. repeat split; auto.
  - inversion Hf as [|? ? Hchild Hf']; subst.
    cbn [toXml_items] in Hpure. destruct t as [|itemName item| | | |]; try discriminate.
    apply bind_Ok in Hpure as (c & Hc & Hpure).
    cbn [appendChild] in Hpure.
    destruct (toXml_store_step child itemName c cs kids h Hchild Hc Hext He Hcell Hkids)
      as (ca & h1 & h2 & Hrun & Happ & He2 & L2 & Hcell2 & Hkids2 & Hkeep).
    destruct (IH Hf' _ _ h2 n Hpure He2 ltac:(lia) Hcell2 Hkids2)
      as (h' & kids' & cs' & -> & Hloop & He' & L' & Hcell' & Hkids' & Hkeep').
    exists h', kids', cs'. cbn [toXml_store_items].
    rewrite Hrun. cbn [bind fst snd]. rewrite Happ. cbn [bind]. rewrite Hloop.
    repeat split; auto; [lia|].
    intros x Hx Hne. rewrite Hkeep' by (try lia; exact Hne). now apply Hkeep.
Qed.
End ChildrenLoop.

(** Rendering a tree in the store is faithful to [toXml] and only adds
    cells. *)
Lemma toXml_store_spec (d : dentity) : xml_faithful d.
Proof.
  induction d as [t ps IH|t ds IH|t v0] using dentity_induction;
    intros name n Hn document h.
  - rewrite toXml_object in Hn. apply bind_Ok in Hn as (e0 & He0 & Hn).
    destruct (createElement_store_spec name document h e0 He0)
      as (element & h0 & Hcreate & Hext0 & Le & Lh0 & Hcell0 & Hdoc).
    apply createElement_Ok in He0; subst e0.
    destruct (toXml_store_props_spec h (document_of document h) element name ps IH
                [] [] h0 n Hn Hext0 ltac:(lia) Hcell0 (Forall2_nil _))
      as (h' & kids' & cs' & -> & Hloop & He' & L' & Hcell' & Hkids' & Hkeep).
    exists element, h'. rewrite toXml_store_object, Hcreate. cbn [bind].
    split; [exact Hloop|]. split; [exact He'|]. split.
    + apply node_element. split; [unfold between; lia|].
      exists kids'. split; [exact Hcell'|].
      eapply Forall2_impl; [|exact Hkids']. intros k c.
      apply node_change. intros a' [B _]. auto.
    + intros Hnone. destruct (Hdoc Hnone) as [Hd Hne].
      rewrite Hkeep; [exact Hd | lia | congruence].
  - rewrite toXml_array in Hn. apply bind_Ok in Hn as (e0 & He0 & Hn).
    destruct (createElement_store_spec name document h e0 He0)
      as (element & h0 & Hcreate & Hext0 & Le & Lh0 & Hcell0 & Hdoc).
    apply createElement_Ok in He0; subst e0.
    destruct (toXml_store_items_spec h (document_of document h) element name t ds IH
                [] [] h0 n Hn Hext0 ltac:(lia) Hcell0 (Forall2_nil _))
      as (h' & kids' & cs' & -> & Hloop & He' & L' & Hcell' & Hkids' & Hkeep).
    exists element, h'. rewrite toXml_store_array, Hcreate. cbn [bind].
    split; [exact Hloop|]. split; [exact He'|]. split.
    + apply node_element. split; [unfold between; lia|].
      exists kids'. split; [exact Hcell'|].
      eapply Forall2_impl; [|exact Hkids']. intros k c.
      apply node_change. intros a' [B _]. auto.
    + intros Hnone. destruct (Hdoc Hnone) as [Hd Hne].
      rewrite Hkeep; [exact Hd | lia | congruence].
  - cbn [toXml] in Hn. apply bind_Ok in Hn as (e0 & He0 & Hn).
    apply bind_Ok in Hn as (s & Hs & Hn). apply Ok_inj in Hn; subst n.
    destruct (createElement_store_spec name document h e0 He0)
      as (element & h0 & Hcreate & Hext0 & Le & Lh0 & Hcell0 & Hdoc).
    apply createElement_Ok in He0; subst e0.
    cbn [toXml_store]. rewrite Hcreate. cbn [bind]. rewrite Hs. cbn [bind].
    cbn [set_textContent].
    destruct (String.eqb s "").
    + exists element, h0. split; [reflexivity|]. split; [exact Hext0|]. split.
      * apply node_element. split; [unfold between; lia|].
        exists []. split; [exact Hcell0 | constructor].
      * intros Hnone. exact (proj1 (Hdoc Hnone)).
    + set (doc := document_of document h) in *.
      set (h1 := h0 ++ [CText doc s]).
      set (h2 := store_set h1 element (CElement doc name [List.length h0])).
      assert (L1 : List.length h1 = S (List.length h0))
        by (unfold h1; rewrite length_app; simpl; lia).
      assert (L2 : List.length h2 = List.length h1) by apply store_set_length.
      exists element, h2. split; [reflexivity|].
      split.
      { apply extends_store_set; [|exact Le].
        eapply extends_trans; [exact Hext0 | apply extends_app]. }
      split.
      * apply node_element. split; [unfold between; lia|].
        exists [List.length h0]. split; [apply store_set_same; lia|].
        constructor; [|constructor]. cbn [node_on].
        split; [unfold between; lia|].
        unfold h2. rewrite store_set_other by lia.
        unfold h1. rewrite nth_error_app2 by lia. now rewrite Nat.sub_diag.
      * intros Hnone. destruct (Hdoc Hnone) as [Hd Hne].
        unfold h2. rewrite store_set_other by congruence.
        unfold h1. rewrite nth_error_app1 by lia. exact Hd.
Qed.

(** ** Ingestion builds value nodes that hold primitives *)

Lemma coerce_scalar (t : schema) (v x : value) :
  coerce t v = Ok x -> scalars (DValue t x).
Proof.
  unfold coerce. destruct t; cbn [valueParser]; try discriminate; intros H.
  - destruct (coerce_boolean_is_bool v x H) as [b ->]. exact I.
  - apply bind_Ok in H as (y & _ & H). apply Ok_inj in H; subst x. exact I.
  - apply bind_Ok in H as (y & _ & H). apply Ok_inj in H; subst x. exact I.
  - apply bind_Ok in H as (y & _ & H). apply Ok_inj in H; subst x. exact I.
Qed.

Lemma value_node_scalars (t : schema) (raw : value) (d : dentity) :
  (x <- coerce t raw ;; Ok (DValue t x)) = Ok d -> scalars d.
Proof.
  intros H. apply bind_Ok in H as (x & Hx & H). apply Ok_inj in H; subst d.
  exact (coerce_scalar t raw x Hx).
Qed.

Lemma Forall2_scalars {A : Type} (f : A -> outcome dentity) (xs : list A)
    (ds : list dentity) :
  (forall x d, In x xs -> f x = Ok d -> scalars d) ->
  Forall2 (fun x d => f x = Ok d) xs ds -> Forall scalars ds.
Proof.
  intros Hf H. induction H as [|x d xs ds Hd _ IH]; constructor.
  - apply (Hf x d); [now left | exact Hd].
  - apply IH. intros x' d' Hin. apply Hf. now right.
Qed.

Lemma fromJs_scalars (t : schema) : forall v d, fromJs t v = Ok d -> scalars d.
Proof.
  induction t as [props c IH|name item IH| | | |] using schema_induction;
    intros v d H; try exact (value_node_scalars _ v d H).
  - rewrite fromJs_object in H. apply bind_Ok in H as (ps & Hps & H).
    apply Ok_inj in H; subst d. apply scalars_object.
    apply (fromJs_each_Forall scalars v props IH [] ps Hps). constructor.
  - cbn [fromJs] in H. destruct v as [| | | | |xs|]; try discriminate.
    apply bind_Ok in H as (ds & Hds & H). apply Ok_inj in H; subst d.
    apply scalars_array. apply mapM_Forall2 in Hds.
    apply (Forall2_scalars (fromJs item) xs ds); [|exact Hds].
    intros x d _. apply IH.
Qed.

Lemma fromXml_scalars (t : schema) : forall n d, fromXml t n = Ok d -> scalars d.
Proof.
  induction t as [props c IH|name item IH| | | |] using schema_induction;
    intros n d H; try exact (value_node_scalars _ _ d H).
  - rewrite fromXml_object in H. apply bind_Ok in H as (ps & Hps & H).
    apply Ok_inj in H; subst d. apply scalars_object.
    apply (fromXml_each_Forall scalars props IH _ [] ps Hps). constructor.
  - rewrite fromXml_array in H.
    apply bind_Ok in H as (ds & Hds & H). apply Ok_inj in H; subst d.
    apply scalars_array. apply mapM_Forall2 in Hds.
    eapply (Forall2_scalars (fromXml item)); [|exact Hds].
    intros x d _. apply IH.
Qed.

(** * Further properties of the methods *)

(** ** Tree ingestion and native rendering never fail on what the library
    builds *)

(** X1.  [fromXml] returns an intermediate object for every template and
    every element or text node: no shape of tree makes tree ingestion
    throw. *)
Theorem X1_fromXml_never_throws :
  forall t n, exists d, fromXml t n = Ok d.
Proof. intros t n. exact (fromXml_returns t n). Qed.

(** X2.  Tree ingestion followed by native rendering always returns: for
    every template and every element or text node, [fromXml] returns an
    intermediate object and [toJs] renders it without throwing, the
    constructors of the templates being taken to return an object with the
    fields they set. *)
Theorem X2_ingested_trees_render_natively :
  forall t n, exists d r, fromXml t n = Ok d /\ toJs d = Ok r.
Proof.
  intros t n. destruct (fromXml_returns t n) as [d Hd].
  destruct (fromXml_toJs_returns t n d Hd) as [r Hr].
  exists d, r. split; assumption.
Qed.



(** ** What ingestion builds mirrors the template *)

Lemma conforms_object (props : list (string * schema)) (c : ctor)
    (ps : list (string * dentity)) :
  conforms (TObject props c) (DObject (TObject props c) ps) <->
  NoDup (keys ps) /\ Forall plain_name (keys ps) /\
  Forall (fun kd => exists child, own props (fst kd) = Some child /\
                                  conforms child (snd kd)) ps.
Proof.
  cbn [conforms].
  match goal with
  | |- _ /\ (_ /\ _ /\ ?f ps) <-> _ =>
      assert (E : forall l, f l <->
        Forall (fun kd => exists child, own props (fst kd) = Some child /\
                                        conforms child (snd kd)) l)
  end.
  { induction l as [|[k d'] l IHl].
    - split; [constructor | exact (fun _ => I)].
    - split.
      + intros [Hk Hl]. constructor; [|now apply IHl]. cbn [fst snd].
        destruct (own props k) as [child|]; [|contradiction].
        exists child; split; [reflexivity | exact Hk].
      + intros H. inversion H as [|x y (child & Ho & Hc) Hl]; subst.
        cbn [fst snd] in Ho. rewrite Ho. split; [exact Hc | now apply IHl]. }
  rewrite E. tauto.
Qed.

Lemma conforms_array (itemName : string) (item : schema) (ds : list dentity) :
  conforms (TArray itemName item) (DArray (TArray itemName item) ds) <->
  Forall (conforms item) ds.
Proof.
  cbn [conforms].
  match goal with
  | |- _ /\ ?f ds <-> _ =>
      assert (E : forall l, f l <-> Forall (conforms item) l)
  end.
  { induction l as [|d' l IHl].
    - split; [constructor | exact (fun _ => I)].
    - split.
      + intros [Hd Hl]. constructor; [exact Hd | now apply IHl].
      + intros H. inversion H; subst. split; [assumption | now apply IHl]. }
  rewrite E. tauto.
Qed.

Lemma Forall_entries_js_set {A : Type} (Q : string * A -> Prop)
    (fs : list (string * A)) (name : string) (a : A) :
  Forall Q fs -> Q (name, a) -> Forall Q (js_set fs name a).
Proof.
  intros Hfs Ha. unfold js_set.
  destruct (String.eqb name "__proto__"); [exact Hfs|].
  induction Hfs as [|[k x] l Hx Hl IHl]; simpl.
  - constructor; [exact Ha | constructor].
  - destruct (String.eqb k name) eqn:E.
    + apply String.eqb_eq in E; subst k. constructor; assumption.
    + constructor; assumption.
Qed.

Lemma coerce_conforms (t : schema) (v x : value) :
  coerce t v = Ok x -> conforms t (DValue t x).
Proof.
  unfold coerce. destruct t; cbn [valueParser]; try discriminate; intros H.
  - destruct (coerce_boolean_is_bool v x H) as [b ->]. split; [reflexivity | exact I].
  - apply bind_Ok in H as (y & _ & H). apply Ok_inj in H; subst x.
    split; [reflexivity | exact I].
  - apply bind_Ok in H as (y & _ & H). apply Ok_inj in H; subst x.
    split; [reflexivity | exact I].
  - apply bind_Ok in H as (y & _ & H). apply Ok_inj in H; subst x.
    split; [reflexivity | exact I].
Qed.

Lemma value_node_conforms (t : schema) (raw : value) (d : dentity) :
  (x <- coerce t raw ;; Ok (DValue t x)) = Ok d -> conforms t d.
Proof.
  intros H. apply bind_Ok in H as (x & Hx & H). apply Ok_inj in H; subst d.
  exact (coerce_conforms t raw x Hx).
Qed.

Lemma fromXml_each_conforms (props : list (string * schema)) :
  Forall (fun kt => forall n d, fromXml (snd kt) n = Ok d -> conforms (snd kt) d)
         props ->
  forall l acc ps, fromXml_each props l acc = Ok ps ->
  (NoDup (keys acc) /\ Forall plain_name (keys acc) /\
   Forall (fun kd => exists child, own props (fst kd) = Some child /\
                                   conforms child (snd kd)) acc) ->
  NoDup (keys ps) /\ Forall plain_name (keys ps) /\
  Forall (fun kd => exists child, own props (fst kd) = Some child /\
                                  conforms child (snd kd)) ps.
Proof.
  intros IH. induction l as [|n l IHl]; intros acc ps H Hacc.
  - simpl in H. apply Ok_inj in H; subst ps. exact Hacc.
  - apply fromXml_each_step in H as [H|(child & d & _ & _ & Hc & Hd & H)].
    + exact (IHl acc ps H Hacc).
    + apply (IHl _ ps H). destruct Hacc as (Hn & Hp & Hf). repeat split.
      * now apply NoDup_keys_js_set.
      * now apply plain_keys_js_set.
      * apply Forall_entries_js_set; [exact Hf|].
        exists child. split; [exact Hc|]. cbn [snd].
        rewrite Forall_forall in IH.
        exact (IH (key_of n, child) (own_In _ _ _ Hc) n d Hd).
Qed.

Lemma fromXml_conforms (t : schema) :
  forall n d, fromXml t n = Ok d -> conforms t d.
Proof.
  induction t as [props c IH|name item IH| | | |] using schema_induction;
    intros n d H; try exact (value_node_conforms _ _ d H).
  - rewrite fromXml_object in H. apply bind_Ok in H as (ps & Hps & H).
    apply Ok_inj in H; subst d. apply conforms_object.
    apply (fromXml_each_conforms props IH _ [] ps Hps).
    repeat split; constructor.
  - rewrite fromXml_array in H.
    apply bind_Ok in H as (ds & Hds & H). apply Ok_inj in H; subst d.
    apply conforms_array. apply mapM_Forall2 in Hds.
    induction Hds as [|x d xs ds Hd _ IHds]; constructor.
    + exact (IH x d Hd).
    + exact IHds.
Qed.

Lemma js_set_plain_fresh {A : Type} (fs : list (string * A)) (k : string) (a : A) :
  plain_name k -> own fs k = None -> js_set fs k a = fs ++ [(k, a)].
Proof.
  intros Hk Ho. unfold js_set.
  destruct (String.eqb k "__proto__") eqn:E.
  - apply String.eqb_eq in E. contradiction.
  - now apply assign_fresh.
Qed.

Lemma own_app_fresh {A : Type} (fs : list (string * A)) (k k' : string) (a : A) :
  k' <> k -> own fs k' = None -> own (fs ++ [(k, a)]) k' = None.
Proof.
  intros Hne Ho. apply own_None_iff. apply own_None_iff in Ho.
  unfold keys in *. rewrite map_app, in_app_iff. simpl. intros [H|[H|[]]].
  - exact (Ho H).
  - exact (Hne (eq_sym H)).
Qed.

(** Under a template written as a literal the loop of [TObject.fromJs] is a
    map over the declared properties. *)
Lemma fromJs_each_shape (v : value) (l : list (string * schema)) :
  NoDup (keys l) -> Forall plain_name (keys l) ->
  forall acc ps,
    (forall k, In k (keys l) -> own acc k = None) ->
    fromJs_each v l acc = Ok ps ->
    exists ds,
      ps = acc ++ ds /\
      Forall2 (fun kt kd =>
                 fst kd = fst kt /\
                 exists x, js_get v (fst kt) = Ok x /\
                           fromJs (snd kt) x = Ok (snd kd)) l ds.
Proof.
  induction l as [|[k child] l IHl]; intros Hn Hp acc ps Hacc H.
  - simpl in H. apply Ok_inj in H; subst ps. exists [].
    rewrite app_nil_r. split; [reflexivity | constructor].
  - cbn [keys map fst] in Hn, Hp. inversion Hn as [|? ? Hk Hn']; subst.
    inversion Hp as [|? ? Hpk Hp']; subst.
    cbn [fromJs_each] in H.
    apply bind_Ok in H as (x & Hx & H). apply bind_Ok in H as (d & Hd & H).
    rewrite (js_set_plain_fresh acc k d Hpk) in H
      by (apply Hacc; now left).
    destruct (IHl Hn' Hp' (acc ++ [(k, d)]) ps) as (ds & -> & Hds);
      [|exact H|].
    + intros k' Hin. apply own_app_fresh.
      * intros ->. exact (Hk Hin).
      * apply Hacc. now right.
    + exists ((k, d) :: ds). rewrite <- app_assoc. split; [reflexivity|].
      constructor; [|exact Hds]. cbn [fst snd]. split; [reflexivity|].
      exists x. split; assumption.
Qed.

Lemma fromJs_conforms (t : schema) :
  literal t -> forall v d, fromJs t v = Ok d -> conforms t d.
Proof.
  induction t as [props c IH|name item IH| | | |] using schema_induction;
    intros Hlit v d H; try exact (value_node_conforms _ v d H).
  - apply literal_object in Hlit as (Hn & Hp & Hl).
    rewrite fromJs_object in H. apply bind_Ok in H as (ps & Hps & H).
    apply Ok_inj in H; subst d. apply conforms_object.
    destruct (fromJs_each_shape v props Hn Hp [] ps) as (ds & -> & Hds);
      [reflexivity | exact Hps |]. cbn [app].
    assert (Hk : keys ds = keys props).
    { clear -Hds. induction Hds as [|kt kd l ds [E _] _ IHds]; [reflexivity|].
      cbn [keys map]. rewrite E. f_equal. exact IHds. }
    rewrite Hk. repeat split; [exact Hn | exact Hp |].
    rewrite Forall_forall in IH, Hl.
    assert (G : forall l ds,
      Forall2 (fun kt kd =>
                 fst kd = fst kt /\
                 exists x, js_get v (fst kt) = Ok x /\
                           fromJs (snd kt) x = Ok (snd kd)) l ds ->
      (forall kt, In kt l -> In kt props) ->
      Forall (fun kd => exists child, own props (fst kd) = Some child /\
                                      conforms child (snd kd)) ds).
    { intros l ds0 H2.
      induction H2 as [|[k child] [k' d'] l ds0 (E & x & _ & Hd) _ IH2];
        intros Hsub; constructor.
      - cbn [fst snd] in *. subst k'. exists child. split.
        + apply own_NoDup_In; [exact Hn | apply Hsub; now left].
        + apply (IH (k, child) (Hsub _ (or_introl eq_refl))
                    (Hl (k, child) (Hsub _ (or_introl eq_refl))) x d' Hd).
      - apply IH2. intros kt Hin. apply Hsub. now right. }
    exact (G props ds Hds (fun kt H => H)).
  - cbn [fromJs] in H. destruct v as [| | | | |xs|]; try discriminate.
    apply bind_Ok in H as (ds & Hds & H). apply Ok_inj in H; subst d.
    apply conforms_array. apply mapM_Forall2 in Hds.
    induction Hds as [|x d xs ds Hd _ IHds]; constructor.
    + exact (IH Hlit x d Hd).
    + exact IHds.
Qed.

(** X3.  An intermediate object mirrors the template it was built from.
    Whatever [fromXml] returns, and whatever [fromJs] returns under a
    template written as a literal, records that template; an object node
    holds each key once, only declared keys, each with a node that mirrors
    the declared child; an array node holds nodes that mirror the item
    template; a value node holds a boolean under the Boolean rule, a number
    under the Integer and Number rules and a string under the String
    rule. *)
Theorem X3_ingestion_mirrors_the_template :
  (forall t n d, fromXml t n = Ok d -> conforms t d) /\
  (forall t v d, literal t -> fromJs t v = Ok d -> conforms t d).
Proof.
  split.
  - exact fromXml_conforms.
  - intros t v d Hlit. exact (fromJs_conforms t Hlit v d).
Qed.

Lemma X3_ingestion_mirrors_the_template_witness :
  conforms readme_template
    (DObject readme_template
       [("a", DValue TNumber (VNum (of_Z 15)));
        ("b", DValue TBoolean (VBool true));
        ("c", DArray (TArray "number" TNumber)
                [DValue TNumber (VNum (of_Z 3));
                 DValue TNumber (VNum (of_Z 5))])]).
Proof.
  apply (proj2 X3_ingestion_mirrors_the_template readme_template readme_data).
  - unfold readme_template. cbn [literal keys map fst].
    repeat split; try exact I.
    + repeat constructor; simpl; intuition discriminate.
    + repeat constructor; discriminate.
  - vm_compute. reflexivity.
Defined.

(** X4.  Under an object template whose keys are written once each and do
    not include [__proto__], [fromJs] builds exactly one entry per declared
    key, in the order in which [Object.keys] lists the declared keys: the
    entry of a key holds what the declared child template makes of the
    value read under that key. *)
Theorem X4_fromJs_object_entries :
  forall props c v d,
    NoDup (keys props) -> Forall plain_name (keys props) ->
    fromJs (TObject props c) v = Ok d ->
    exists ps,
      d = DObject (TObject props c) ps /\
      keys ps = keys props /\
      Forall2 (fun kt kd =>
                 fst kd = fst kt /\
                 exists x, js_get v (fst kt) = Ok x /\
                           fromJs (snd kt) x = Ok (snd kd)) props ps.
Proof.
  intros props c v d Hn Hp H.
  rewrite fromJs_object in H. apply bind_Ok in H as (ps & Hps & H).
  apply Ok_inj in H; subst d.
  destruct (fromJs_each_shape v props Hn Hp [] ps) as (ds & -> & Hds);
    [reflexivity | exact Hps |]. cbn [app].
  exists ds. split; [reflexivity|]. split; [|exact Hds].
  clear -Hds. induction Hds as [|kt kd l ds [E _] _ IHds]; [reflexivity|].
  cbn [keys map]. rewrite E. f_equal. exact IHds.
Qed.

Lemma X4_fromJs_object_entries_witness :
  exists ps,
    DObject (TObject [("a", TNumber); ("b", TBoolean)] Object_ctor)
      [("a", DValue TNumber (VNum (of_Z 15)));
       ("b", DValue TBoolean (VBool true))]
    = DObject (TObject [("a", TNumber); ("b", TBoolean)] Object_ctor) ps /\
    keys ps = ["a"; "b"] /\
    Forall2 (fun kt kd =>
               fst kd = fst kt /\
               exists x,
                 js_get (VObj "Object" [("b", VBool true); ("a", VNum (of_Z 15))])
                        (fst kt) = Ok x /\
                 fromJs (snd kt) x = Ok (snd kd))
            [("a", TNumber); ("b", TBoolean)] ps.
Proof.
  apply (X4_fromJs_object_entries [("a", TNumber); ("b", TBoolean)] Object_ctor
           (VObj "Object" [("b", VBool true); ("a", VNum (of_Z 15))])).
  - repeat constructor; simpl; intuition discriminate.
  - repeat constructor; discriminate.
  - vm_compute. reflexivity.
Defined.

(** ** What object ingestion looks at *)




Lemma fromXml_each_relevant (props : list (string * schema)) (l : list node) :
  forall acc,
    fromXml_each props l acc = fromXml_each props (filter (relevant props) l) acc.
Proof.
  induction l as [|n l IHl]; intros acc; [reflexivity|].
  cbn [filter]. unfold relevant at 1. unfold has_own.
  destruct (own props (key_of n)) as [child|] eqn:Hp;
    [destruct (inherited (key_of n)) eqn:Hi|]; cbn [andb negb].
  - rewrite fromXml_each_cons, Hi.
    destruct (own acc (key_of n)); apply IHl.
  - rewrite !fromXml_each_cons, Hi, Hp.
    destruct (own acc (key_of n)); [apply IHl|].
    destruct (fromXml child n) as [d| |]; cbn [bind]; try reflexivity.
    apply IHl.
  - rewrite fromXml_each_cons, Hp.
    destruct (own acc (key_of n)); [apply IHl|].
    destruct (inherited (key_of n)); apply IHl.
Qed.

Lemma relevant_text (props : list (string * schema)) (data : string) :
  own props "undefined" = None -> relevant props (Text data) = false.
Proof.
  intros H. unfold relevant, has_own. cbn [key_of tagName_of]. now rewrite H.
Qed.

(** X6.  [TObject.fromXml] looks only at the children whose key is a
    declared key that is not a name every object inherits, the key of a
    child being its tag name, or ["undefined"] for a child without one such
    as a text node: the tag of the node itself does not count, and removing
    every other child changes nothing.  In particular, under a template that
    declares no key named [undefined], removing the text children changes
    nothing. *)
Theorem X6_fromXml_ignores_undeclared_children :
  (forall props c n tag,
     fromXml (TObject props c) n
     = fromXml (TObject props c)
               (Element tag (filter (relevant props) (childNodes_of n)))) /\
  (forall props c n tag,
     own props "undefined" = None ->
     fromXml (TObject props c) n
     = fromXml (TObject props c)
               (Element tag (filter is_element (childNodes_of n)))).
Proof.
  split.
  - intros props c n tag. rewrite !fromXml_object. cbn [childNodes_of].
    now rewrite (fromXml_each_relevant props (childNodes_of n)).
  - intros props c n tag Hu. rewrite !fromXml_object. cbn [childNodes_of].
    rewrite (fromXml_each_relevant props (childNodes_of n)).
    rewrite (fromXml_each_relevant props (filter is_element (childNodes_of n))).
    f_equal. f_equal. induction (childNodes_of n) as [|m l IH]; [reflexivity|].
    cbn [filter]. destruct m as [tag' cs|data]; cbn [is_element].
    + cbn [filter]. destruct (relevant props (Element tag' cs)); now rewrite IH.
    + rewrite (relevant_text props data Hu). exact IH.
Qed.

Lemma X6_fromXml_ignores_undeclared_children_witness :
  fromXml (TObject [("a", TInteger)] Object_ctor)
          (el "x" [txt " "; el "a" [txt "1"]; txt " "])
  = fromXml (TObject [("a", TInteger)] Object_ctor) (Element "y" [el "a" [txt "1"]]).
Proof.
  apply (proj2 X6_fromXml_ignores_undeclared_children
           [("a", TInteger)] Object_ctor
           (el "x" [txt " "; el "a" [txt "1"]; txt " "]) "y").
  reflexivity.
Defined.

Lemma fromXml_each_origin (props : list (string * schema)) (k : string)
    (d : dentity) (l : list node) :
  forall acc ps,
    fromXml_each props l acc = Ok ps -> own ps k = Some d ->
    own acc k = Some d \/
    exists child n,
      In n l /\ key_of n = k /\ inherited k = false /\
      own props k = Some child /\ fromXml child n = Ok d.
Proof.
  induction l as [|n l IHl]; intros acc ps H Hk.
  - simpl in H. apply Ok_inj in H; subst ps. now left.
  - apply fromXml_each_step in H as [H|(child & d0 & Ha & Hi & Hc & Hd & H)].
    + destruct (IHl acc ps H Hk) as [Hacc|(ch & m & Hin & R)]; [now left|].
      right. exists ch, m. split; [now right | exact R].
    + destruct (IHl _ ps H Hk) as [Hacc|(ch & m & Hin & R)].
      * destruct (string_dec k (key_of n)) as [->|Hne].
        -- rewrite own_js_set_same in Hacc.
           ++ assert (d0 = d) by congruence. subst d0. right. exists child, n.
              repeat split; try assumption. now left.
           ++ intros E. rewrite E in Hi. discriminate.
        -- rewrite own_js_set_other in Hacc by exact Hne. now left.
      * right. exists ch, m. split; [now right | exact R].
Qed.

(** X7.  Every entry of the intermediate object that [TObject.fromXml]
    returns comes from a child of the node: its key is a declared key, is
    not a name every object inherits, is the key of some child, and the
    entry is what the declared child template makes of that child.  The key
    of a child is its tag name, or ["undefined"] for a child without one
    such as a text node; so an entry under any other key comes from a child
    element with that tag. *)
Theorem X7_fromXml_entries_come_from_children :
  forall props c n ps k d,
    fromXml (TObject props c) n = Ok (DObject (TObject props c) ps) ->
    own ps k = Some d ->
    exists child m,
      In m (childNodes_of n) /\ key_of m = k /\ inherited k = false /\
      own props k = Some child /\ fromXml child m = Ok d /\
      (k <> "undefined" -> tagName_of m = Some k).
Proof.
  intros props c n ps k d H Hk. rewrite fromXml_object in H.
  apply bind_Ok in H as (ps' & Hps & H). apply Ok_inj in H.
  injection H as <-.
  destruct (fromXml_each_origin props k d _ [] ps' Hps Hk)
    as [Hacc|(child & m & Hin & Hkey & Hi & Hc & Hd)]; [discriminate|].
  exists child, m. repeat split; try assumption.
  intros Hne. unfold key_of in Hkey.
  destruct (tagName_of m) as [tag|]; [now subst tag | congruence].
Qed.

Lemma X7_fromXml_entries_come_from_children_witness :
  exists child m,
    In m (childNodes_of (el "x" [el "b" [txt "1"]; el "a" [txt "2"]])) /\
    key_of m = "a" /\ inherited "a" = false /\
    own [("a", TInteger)] "a" = Some child /\
    fromXml child m = Ok (DValue TInteger (VNum (of_Z 2))) /\
    ("a" <> "undefined" -> tagName_of m = Some "a").
Proof.
  apply (X7_fromXml_entries_come_from_children [("a", TInteger)] Object_ctor
           (el "x" [el "b" [txt "1"]; el "a" [txt "2"]])
           [("a", DValue TInteger (VNum (of_Z 2)))]).
  - vm_compute. reflexivity.
  - reflexivity.
Defined.

(** ** Native rendering of object nodes *)

Lemma toJs_each_shape (l : list (string * dentity)) :
  NoDup (keys l) -> Forall plain_name (keys l) ->
  forall acc fs,
    (forall k, In k (keys l) -> own acc k = None) ->
    toJs_each l acc = Ok fs ->
    exists rs,
      fs = acc ++ rs /\
      Forall2 (fun kd kr => fst kr = fst kd /\ toJs (snd kd) = Ok (snd kr)) l rs.
Proof.
  induction l as [|[k child] l IHl]; intros Hn Hp acc fs Hacc H.
  - simpl in H. apply Ok_inj in H; subst fs. exists [].
    rewrite app_nil_r. split; [reflexivity | constructor].
  - cbn [keys map fst] in Hn, Hp. inversion Hn as [|? ? Hk Hn']; subst.
    inversion Hp as [|? ? Hpk Hp']; subst.
    cbn [toJs_each] in H. apply bind_Ok in H as (x & Hx & H).
    rewrite (js_set_plain_fresh acc k x Hpk) in H
      by (apply Hacc; now left).
    destruct (IHl Hn' Hp' (acc ++ [(k, x)]) fs) as (rs & -> & Hrs);
      [|exact H|].
    + intros k' Hin. apply own_app_fresh.
      * intros ->. exact (Hk Hin).
      * apply Hacc. now right.
    + exists ((k, x) :: rs). rewrite <- app_assoc. split; [reflexivity|].
      constructor; [|exact Hrs]. cbn [fst snd]. split; [reflexivity | exact Hx].
Qed.

(** X9.  [DObject.toJs] starts from the object the constructor of the
    template makes and assigns the properties of the node to it.  When the
    node holds each key once: the result is an object of that constructor;
    under a key of the node other than [__proto__] it holds the native
    rendering of the entry, whatever the constructor had put there; and
    under every other key it holds what the constructor put there. *)
Theorem X9_toJs_assigns_over_the_constructed_object :
  forall props c ps cn fs,
    NoDup (keys ps) ->
    toJs (DObject (TObject props c) ps) = Ok (VObj cn fs) ->
    cn = ctor_name c /\
    (forall k d, In (k, d) ps -> plain_name k ->
       exists r, toJs d = Ok r /\ own fs k = Some r) /\
    (forall k, ~ In k (keys ps) -> own fs k = own (ctor_fields c) k).
Proof.
  intros props c ps cn fs Hn H. rewrite toJs_object in H.
  apply bind_Ok in H as (gs & Hgs & H). apply Ok_inj in H.
  injection H as <- <-. split; [reflexivity|]. split.
  - intros k d Hin Hk.
    exact (toJs_each_lookup ps Hn (ctor_fields c) gs Hgs k d Hin Hk).
  - intros k Hk. exact (toJs_each_frame k ps Hk (ctor_fields c) gs Hgs).
Qed.

Lemma X9_toJs_assigns_over_the_constructed_object_witness :
  "P" = ctor_name {| ctor_name := "P"; ctor_fields := [("a", VNum (of_Z 0));
                                                       ("z", VStr "kept")] |} /\
  (forall k d, In (k, d) [("a", DValue TInteger (VNum (of_Z 3)))] ->
     plain_name k ->
     exists r, toJs d = Ok r /\
               own [("a", VNum (of_Z 3)); ("z", VStr "kept")] k = Some r) /\
  (forall k, ~ In k (keys [("a", DValue TInteger (VNum (of_Z 3)))]) ->
     own [("a", VNum (of_Z 3)); ("z", VStr "kept")] k
     = own (ctor_fields {| ctor_name := "P";
                           ctor_fields := [("a", VNum (of_Z 0));
                                           ("z", VStr "kept")] |}) k).
Proof.
  apply (X9_toJs_assigns_over_the_constructed_object
           [("a", TInteger)]
           {| ctor_name := "P"; ctor_fields := [("a", VNum (of_Z 0));
                                                ("z", VStr "kept")] |}
           [("a", DValue TInteger (VNum (of_Z 3)))]).
  - repeat constructor; simpl; intuition.
  - reflexivity.
Defined.

(** X10.  When the keys of an object node are distinct, none of them is
    [__proto__] or starts with a digit, and the constructor of the template
    sets none of them, [DObject.toJs] returns the fields the constructor
    set followed by one field per entry of the node, in the order of the
    node; with the default constructor [Object] these are all the
    fields. *)
Theorem X10_toJs_field_order :
  forall props c ps r,
    NoDup (keys ps) -> Forall plain_name (keys ps) ->
    Forall (fun k => leading_digit k = false) (keys ps) ->
    (forall k, In k (keys ps) -> own (ctor_fields c) k = None) ->
    toJs (DObject (TObject props c) ps) = Ok r ->
    exists rs,
      r = VObj (ctor_name c) (ctor_fields c ++ rs) /\
      keys rs = keys ps /\
      Forall2 (fun kd kr => fst kr = fst kd /\ toJs (snd kd) = Ok (snd kr)) ps rs.
Proof.
  intros props c ps r Hn Hp _ Hc H. rewrite toJs_object in H.
  apply bind_Ok in H as (gs & Hgs & H). apply Ok_inj in H; subst r.
  destruct (toJs_each_shape ps Hn Hp (ctor_fields c) gs Hc Hgs)
    as (rs & -> & Hrs).
  exists rs. split; [reflexivity|]. split; [|exact Hrs].
  clear -Hrs. induction Hrs as [|kd kr l rs [E _] _ IH]; [reflexivity|].
  cbn [keys map]. rewrite E. f_equal. exact IH.
Qed.

Lemma X10_toJs_field_order_witness :
  exists rs,
    VObj "Object" [("b", VBool true); ("a", VNum (of_Z 3))]
    = VObj (ctor_name Object_ctor) (ctor_fields Object_ctor ++ rs) /\
    keys rs = ["b"; "a"] /\
    Forall2 (fun kd kr => fst kr = fst kd /\ toJs (snd kd) = Ok (snd kr))
            [("b", DValue TBoolean (VBool true));
             ("a", DValue TInteger (VNum (of_Z 3)))] rs.
Proof.
  apply (X10_toJs_field_order [("a", TInteger); ("b", TBoolean)] Object_ctor
           [("b", DValue TBoolean (VBool true));
            ("a", DValue TInteger (VNum (of_Z 3)))]).
  - repeat constructor; simpl; intuition discriminate.
  - repeat constructor; discriminate.
  - repeat constructor.
  - intros k _. reflexivity.
  - reflexivity.
Defined.

(** ** The element that [toXml] builds, and when it builds one *)

(** X11.  [DObject.toXml] returns an element of the requested name with one
    child per entry of the node, in the order of the node, the child of an
    entry being the rendering of the entry under its key, an element of
    that name.  [DArray.toXml] returns an element of the requested name
    with one child per item, in order, each an element of the item name of
    the template.  [DValue.toXml] returns an element of the requested name
    whose text content is the string form of the value: one text child, or
    no child when that string is empty. *)
Theorem X11_toXml_children :
  (forall t ps name e,
     toXml (DObject t ps) name = Ok e ->
     exists cs,
       e = Element name cs /\
       Forall2 (fun kd c => toXml (snd kd) (fst kd) = Ok c /\
                            tagName_of c = Some (fst kd)) ps cs) /\
  (forall itemName item ds name e,
     toXml (DArray (TArray itemName item) ds) name = Ok e ->
     exists cs,
       e = Element name cs /\
       Forall2 (fun d c => toXml d itemName = Ok c /\
                           tagName_of c = Some itemName) ds cs) /\
  (forall t v name e,
     toXml (DValue t v) name = Ok e ->
     exists s,
       call_toString v = Ok s /\
       e = Element name (if String.eqb s "" then [] else [Text s]) /\
       textContent e = s).
Proof.
  split; [|split].
  - intros t ps name e H. rewrite toXml_object in H.
    apply bind_Ok in H as (element & He & H).
    apply createElement_Ok in He; subst element.
    apply toXml_props_children in H as (cs & -> & Hcs).
    exists cs. split; [reflexivity|].
    induction Hcs as [|kd c l cs Hc _ IH]; constructor.
    + split; [exact Hc | exact (toXml_tagName _ _ _ Hc)].
    + exact IH.
  - intros itemName item ds name e H. rewrite toXml_array in H.
    apply bind_Ok in H as (element & He & H).
    apply createElement_Ok in He; subst element.
    apply toXml_items_children in H as (cs & -> & Hcs).
    exists cs. split; [reflexivity|].
    induction Hcs as [|d c l cs Hc _ IH]; constructor.
    + split; [exact Hc | exact (toXml_tagName _ _ _ Hc)].
    + exact IH.
  - intros t v name e H. cbn [toXml] in H.
    apply bind_Ok in H as (element & He & H).
    apply createElement_Ok in He; subst element.
    apply bind_Ok in H as (s & Hs & H). apply Ok_inj in H; subst e.
    exists s. split; [exact Hs|]. cbn [set_textContent].
    split; [reflexivity|].
    destruct (String.eqb s "") eqn:E.
    + apply String.eqb_eq in E. now subst s.
    + cbn [textContent]. apply append_empty.
Qed.

Lemma X11_toXml_children_witness :
  exists cs,
    el "p" [el "a" [txt "3"]; el "b" []] = Element "p" cs /\
    Forall2 (fun kd c => toXml (snd kd) (fst kd) = Ok c /\
                         tagName_of c = Some (fst kd))
            [("a", DValue TInteger (VNum (of_Z 3)));
             ("b", DValue TString (VStr ""))] cs.
Proof.
  apply (proj1 X11_toXml_children (TObject [] Object_ctor)
           [("a", DValue TInteger (VNum (of_Z 3)));
            ("b", DValue TString (VStr ""))] "p").
  vm_compute. reflexivity.
Defined.

Lemma renderable_object (t : schema) (ps : list (string * dentity))
    (name : string) :
  renderable (DObject t ps) name <->
  is_name name = true /\
  Forall (fun kd => renderable (snd kd) (fst kd)) ps.
Proof.
  cbn [renderable]. apply and_iff_compat_l.
  induction ps as [|[k child] ps IH].
  - split; [constructor | trivial].
  - rewrite IH. split.
    + intros [H1 H2]; now constructor.
    + intros H; inversion H; subst; auto.
Qed.

Lemma renderable_array (itemName : string) (item : schema) (ds : list dentity)
    (name : string) :
  renderable (DArray (TArray itemName item) ds) name <->
  is_name name = true /\ Forall (fun d => renderable d itemName) ds.
Proof.
  cbn [renderable]. apply and_iff_compat_l.
  destruct ds as [|d0 ds0]; [split; [constructor | trivial]|].
  match goal with
  | |- _ /\ ?f ds0 <-> _ =>
      assert (E : forall l, f l <-> Forall (fun d => renderable d itemName) l)
  end.
  { induction l as [|d l IH].
    - split; [constructor | trivial].
    - rewrite Forall_cons_iff, <- IH. reflexivity. }
  rewrite Forall_cons_iff, E. reflexivity.
Qed.

Lemma toXml_props_returns (l : list (string * dentity)) :
  Forall (fun kd => returns (toXml (snd kd) (fst kd))) l ->
  forall element, returns (toXml_props l element).
Proof.
  induction 1 as [|[k child] l [c Hc] _ IH]; intros element.
  - apply returns_Ok.
  - cbn [toXml_props]. cbn [fst snd] in Hc. rewrite Hc. cbn [bind]. apply IH.
Qed.

Lemma toXml_items_returns (itemName : string) (item : schema)
    (l : list dentity) :
  Forall (fun d => returns (toXml d itemName)) l ->
  forall element, returns (toXml_items (TArray itemName item) l element).
Proof.
  induction 1 as [|d l [c Hc] _ IH]; intros element.
  - apply returns_Ok.
  - cbn [toXml_items]. rewrite Hc. cbn [bind]. apply IH.
Qed.

Lemma createElement_returns (name : string) :
  returns (createElement name) <-> is_name name = true.
Proof.
  unfold createElement. destruct (is_name name).
  - split; [reflexivity | intros _; apply returns_Ok].
  - split; [intros [e H]; discriminate | discriminate].
Qed.

Lemma returns_bind {A B : Type} (m : outcome A) (k : A -> outcome B) :
  returns (bind m k) <-> exists a, m = Ok a /\ returns (k a).
Proof.
  split.
  - intros [b H]. apply bind_Ok in H as (a & Ha & H).
    exists a. split; [exact Ha | now exists b].
  - intros (a & -> & H). exact H.
Qed.

Lemma toXml_renderable (d : dentity) :
  forall name, returns (toXml d name) <-> renderable d name.
Proof.
  induction d as [t ps IH|t ds IH|t v0] using dentity_induction; intros name.
  - rewrite toXml_object, renderable_object, returns_bind. split.
    + intros (element & He & [e H]).
      assert (Hn : is_name name = true)
        by (apply createElement_returns; now exists element).
      split; [exact Hn|].
      apply createElement_Ok in He; subst element.
      apply toXml_props_children in H as (cs & _ & Hcs).
      clear -Hcs IH. induction Hcs as [|kd c l cs Hc _ IHl].
      * constructor.
      * inversion IH as [|? ? Hkd IH']; subst. constructor.
        -- apply Hkd. now exists c.
        -- now apply IHl.
    + intros [Hn Hps]. apply createElement_returns in Hn as [element He].
      exists element. split; [exact He|]. apply toXml_props_returns.
      clear -Hps IH. induction Hps as [|kd l Hkd _ IHl]; constructor.
      * inversion IH; subst. now apply H1.
      * inversion IH; subst. now apply IHl.
  - rewrite toXml_array, returns_bind.
    destruct ds as [|d0 ds0].
    + cbn [toXml_items renderable]. split.
      * intros (element & He & _). split; [|exact I].
        apply createElement_returns. now exists element.
      * intros [Hn _]. apply createElement_returns in Hn as [element He].
        exists element. split; [exact He | apply returns_Ok].
    + destruct t as [props c|itemName item| | | |];
        try (cbn [toXml_items renderable]; split;
             [intros (element & _ & [e H]); discriminate | intros [_ []]]).
      rewrite renderable_array. split.
      * intros (element & He & [e H]).
        assert (Hn : is_name name = true)
          by (apply createElement_returns; now exists element).
        split; [exact Hn|].
        apply createElement_Ok in He; subst element.
        apply toXml_items_children in H as (cs & _ & Hcs).
        clear -Hcs IH. induction Hcs as [|d c l cs Hc _ IHl].
        -- constructor.
        -- inversion IH as [|? ? Hd IH']; subst. constructor.
           ++ apply Hd. now exists c.
           ++ now apply IHl.
      * intros [Hn Hds]. apply createElement_returns in Hn as [element He].
        exists element. split; [exact He|]. apply toXml_items_returns.
        clear -Hds IH. induction Hds as [|d l Hd _ IHl]; constructor.
        -- inversion IH; subst. now apply H1.
        -- inversion IH; subst. now apply IHl.
  - cbn [toXml renderable]. rewrite returns_bind. split.
    + intros (element & He & H). split.
      * apply createElement_returns. now exists element.
      * apply returns_bind in H as (s & Hs & _). now exists s.
    + intros [Hn [s Hs]]. apply createElement_returns in Hn as [element He].
      exists element. split; [exact He|]. rewrite Hs. apply returns_Ok.
Qed.

(** X12.  [toXml] returns an element for every node, built by whatever
    means, in which every name it passes to [createElement] is an XML name,
    every value has a string form and every array node with items records
    an array template: the name it is given, the keys of the object nodes
    and the item names of the templates of the array nodes. *)
Theorem X12_renderable_nodes_render :
  forall d name, renderable d name -> exists e, toXml d name = Ok e.
Proof. intros d name H. now apply toXml_renderable. Qed.

Lemma X12_renderable_nodes_render_witness :
  exists e,
    toXml (DObject TString
             [("a", DArray (TArray "n" TInteger)
                      [DValue TInteger (VStr "text"); DValue TBoolean (VBool false)])])
          "p" = Ok e.
Proof.
  apply X12_renderable_nodes_render.
  cbn [renderable]. repeat split; try reflexivity; eexists; reflexivity.
Defined.

(** ** The same intermediate object from either side *)

(** X13.  For a template whose keys and item names can be used as tags and
    a native value of its shape, with printable integers and clean strings:
    the tree that [toXml] makes of what [fromJs] built, under any tag name,
    is ingested by [fromXml] as that same intermediate object. *)
Theorem X13_fromXml_of_toXml_is_the_same_object :
  forall t v d name,
    tree_template t -> shaped printable_integer clean t v ->
    fromJs t v = Ok d -> is_tag_name name = true ->
    exists e, toXml d name = Ok e /\ fromXml t e = Ok d.
Proof.
  intros t v d name Ht Hv Hd Hname.
  destruct (tree_round_trip t Ht v d name Hv Hd Hname) as (e & He & _ & Hback).
  exists e. split; assumption.
Qed.

Lemma X13_fromXml_of_toXml_is_the_same_object_witness :
  exists e,
    toXml (DArray (TArray "n" TNumber)
             [DValue TNumber (VNum (of_Z 3)); DValue TNumber (VNum (of_Z 5))])
          "list" = Ok e /\
    fromXml (TArray "n" TNumber) e
    = Ok (DArray (TArray "n" TNumber)
            [DValue TNumber (VNum (of_Z 3)); DValue TNumber (VNum (of_Z 5))]).
Proof.
  apply (X13_fromXml_of_toXml_is_the_same_object (TArray "n" TNumber)
           (VArr [VNum (of_Z 3); VNum (of_Z 5)])).
  - split; [reflexivity | exact I].
  - simpl. repeat split.
    + exists (of_Z 3). repeat split. simpl. discriminate.
    + exists (of_Z 5). repeat split. simpl. discriminate.
  - reflexivity.
  - reflexivity.
Defined.

(** X14.  The text methods add nothing to the tree methods.  When [toXml]
    makes a tree of the shape it makes from ingested data with tag names
    and clean strings, [toXmlString] returns its markup, under whatever
    root name, and [fromXmlString] of that markup is [fromXml] of the tree,
    under whatever template. *)
Theorem X14_text_methods_follow_tree_methods :
  forall d rootName e,
    toXml d rootName = Ok e -> rendered e ->
    exists s,
      toXmlString d rootName = Ok s /\
      forall t, fromXmlString t s = fromXml t e.
Proof.
  intros d rootName e He Hre.
  destruct (serialize_rendered e Hre) as (s & Hs & _).
  exists (string_of_list_ascii s). split.
  - unfold toXmlString. cbn [bind]. rewrite He. cbn [bind]. now rewrite Hs.
  - intros t. unfold fromXmlString.
    now rewrite (parse_serialize e s Hre Hs).
Qed.

Lemma X14_text_methods_follow_tree_methods_witness :
  exists s,
    toXmlString (DObject (TObject [("a", TString)] Object_ctor)
                   [("a", DValue TString (VStr "x<y"))]) "doc" = Ok s /\
    forall t, fromXmlString t s = fromXml t (el "doc" [el "a" [txt "x<y"]]).
Proof.
  apply (X14_text_methods_follow_tree_methods
           (DObject (TObject [("a", TString)] Object_ctor)
              [("a", DValue TString (VStr "x<y"))]) "doc").
  - reflexivity.
  - cbn [rendered]. repeat split; try reflexivity. discriminate.
Defined.

(** ** The document argument of [toXml] *)

Lemma documents_app (h ext : store) :
  documents (h ++ ext) = (documents h + documents ext)%nat.
Proof. unfold documents. now rewrite filter_app, length_app. Qed.

Lemma documents_store_set (h : store) (a : addr) (c0 c : cell) :
  nth_error h a = Some c0 -> is_document c0 = is_document c ->
  documents (store_set h a c) = documents h.
Proof.
  revert a. induction h as [|x h IH]; intros [|a] H E;
    cbn [nth_error store_set] in *; try discriminate.
  - assert (x = c0) by congruence. subst x.
    unfold documents. cbn [filter]. rewrite E.
    now destruct (is_document c).
  - unfold documents in *. cbn [filter].
    destruct (is_document x); cbn [List.length]; now rewrite (IH a H E).
Qed.

Lemma createElement_store_documents (name : string) (document : option addr)
    (h h0 : store) (doc element : addr) :
  createElement_store name document h = Ok (doc, element, h0) ->
  documents h0
  = (documents h + match document with None => 1 | Some _ => 0 end)%nat /\
  element = (List.length h0 - 1)%nat /\
  nth_error h0 element = Some (CElement doc name []).
Proof.
  unfold createElement_store.
  destruct document as [a|]; destruct (is_name name); try discriminate;
    intros H; apply Ok_inj in H; injection H as <- <- <-.
  - rewrite documents_app, length_app. cbn. split; [lia|]. split; [lia|].
    rewrite nth_error_app2 by lia. now rewrite Nat.sub_diag.
  - rewrite !documents_app. split; [cbn; lia|].
    split; [rewrite !length_app; cbn; lia|].
    rewrite nth_error_app2 by lia. now rewrite Nat.sub_diag.
Qed.

Lemma appendChild_store_documents (h h' : store) (parent child : addr) :
  appendChild_store h parent child = Ok h' -> documents h' = documents h.
Proof.
  unfold appendChild_store.
  destruct (nth_error h parent) as [[| | |doc t kids| | | |]|] eqn:E;
    try discriminate.
  intros H. apply Ok_inj in H; subst h'.
  now apply (documents_store_set h parent (CElement doc t kids)).
Qed.

Lemma toXml_store_props_documents (doc element : addr)
    (l : list (string * dentity)) :
  Forall (fun kd => keeps_documents (snd kd)) l ->
  forall h a h', toXml_store_props doc element l h = Ok (a, h') ->
                 documents h' = documents h.
Proof.
  induction 1 as [|[k child] l Hchild _ IH]; intros h a h' H.
  - cbn [toXml_store_props] in H. apply Ok_inj in H. now injection H as _ <-.
  - cbn [toXml_store_props] in H.
    apply bind_Ok in H as ([ca h1] & Hc & H). cbn [fst snd] in H.
    apply bind_Ok in H as (h2 & Ha & H).
    rewrite (IH h2 a h' H), (appendChild_store_documents _ _ _ _ Ha).
    rewrite (Hchild k (Some doc) h ca h1 Hc). lia.
Qed.

Lemma toXml_store_items_documents (doc element : addr) (t : schema)
    (l : list dentity) :
  Forall keeps_documents l ->
  forall h a h', toXml_store_items doc element t l h = Ok (a, h') ->
                 documents h' = documents h.
Proof.
  induction 1 as [|child l Hchild _ IH]; intros h a h' H.
  - cbn [toXml_store_items] in H. apply Ok_inj in H. now injection H as _ <-.
  - cbn [toXml_store_items] in H.
    destruct t as [|itemName item| | | |]; try discriminate.
    apply bind_Ok in H as ([ca h1] & Hc & H). cbn [fst snd] in H.
    apply bind_Ok in H as (h2 & Ha & H).
    rewrite (IH h2 a h' H), (appendChild_store_documents _ _ _ _ Ha).
    rewrite (Hchild itemName (Some doc) h ca h1 Hc). lia.
Qed.

Lemma toXml_store_documents (d : dentity) : keeps_documents d.
Proof.
  induction d as [t ps IH|t ds IH|t v0] using dentity_induction;
    intros name document h a h' H.
  - rewrite toXml_store_object in H.
    apply bind_Ok in H as ([[doc element] h0] & Hcreate & H).
    apply createElement_store_documents in Hcreate as (Hd & _ & _).
    now rewrite (toXml_store_props_documents doc element ps IH h0 a h' H).
  - rewrite toXml_store_array in H.
    apply bind_Ok in H as ([[doc element] h0] & Hcreate & H).
    apply createElement_store_documents in Hcreate as (Hd & _ & _).
    now rewrite (toXml_store_items_documents doc element t ds IH h0 a h' H).
  - cbn [toXml_store] in H.
    apply bind_Ok in H as ([[doc element] h0] & Hcreate & H).
    apply createElement_store_documents in Hcreate as (Hd & He & Hcell).
    apply bind_Ok in H as (s & _ & H).
    destruct (String.eqb s "").
    + apply Ok_inj in H. injection H as _ <-. exact Hd.
    + apply Ok_inj in H. injection H as _ <-.
      rewrite (documents_store_set _ element (CElement doc name [])).
      * rewrite documents_app. cbn. lia.
      * rewrite nth_error_app1; [exact Hcell|].
        apply nth_error_Some. now rewrite Hcell.
      * reflexivity.
Qed.

(** X15.  [toXml] creates its elements and text nodes in the document it
    is given and creates no document then; given none it creates exactly
    one.  So the children, rendered with the document of their parent,
    never create a document of their own, and the tree that comes back
    belongs to one document throughout. *)
Theorem X15_toXml_uses_the_given_document :
  (forall d name document h a h',
     toXml_store d name document h = Ok (a, h') ->
     documents h'
     = (documents h + match document with None => 1 | Some _ => 0 end)%nat) /\
  (forall d name n doc h,
     toXml d name = Ok n ->
     exists a h',
       toXml_store d name (Some doc) h = Ok (a, h') /\
       node_on (between (List.length h) (List.length h')) doc h' a n).
Proof.
  split.
  - exact toXml_store_documents.
  - intros d name n doc h Hn.
    destruct (toXml_store_spec d name n Hn (Some doc) h)
      as (a & h' & Hrun & _ & Hnode & _).
    exists a, h'. split; [exact Hrun | exact Hnode].
Qed.

Lemma X15_toXml_uses_the_given_document_witness :
  documents [CDocument; CElement 0%nat "p" [2%nat];
             CElement 0%nat "a" [3%nat]; CText 0%nat "x"]
  = (documents [] + 1)%nat.
Proof.
  apply (proj1 X15_toXml_uses_the_given_document
           (DObject (TObject [] Object_ctor) [("a", DValue TString (VStr "x"))])
           "p" None [] 1%nat).
  vm_compute. reflexivity.
Defined.

(** ** The Integer rule on text *)

Lemma trim_start_white (ws s : chars) :
  forallb is_white ws = true -> trim_start (ws ++ s) = trim_start s.
Proof.
  induction ws as [|w ws IH]; intros H; [reflexivity|].
  cbn [forallb] in H. apply andb_prop in H as [Hw Hws].
  cbn [app trim_start]. rewrite Hw. now apply IH.
Qed.

Lemma parse_int_leading (ws : chars) (negative : bool) (c : ascii)
    (s rest : chars) :
  forallb is_white ws = true -> is_digit c = true ->
  forallb is_digit s = true -> ends_digits rest ->
  not_hex (c :: s ++ rest) = true ->
  parse_int_chars (ws ++ sign_chars negative ++ c :: s ++ rest)
  = mk_number negative (value_from 0 (c :: s)) 0.
Proof.
  intros Hws Hc Hs Hrest Hhex. unfold parse_int_chars.
  rewrite (trim_start_white ws _ Hws), read_signed by exact Hc.
  assert (Hrun : read_digits 10 0 0 (c :: s ++ rest)
                 = (value_from 0 (c :: s), (0 + List.length (c :: s))%nat, rest)).
  { change (c :: s ++ rest) with ((c :: s) ++ rest).
    apply read_digits_run; [simpl; now rewrite Hc | exact Hrest]. }
  cbv beta iota.
  destruct (s ++ rest) as [|x r] eqn:E.
  - rewrite Hrun. reflexivity.
  - cbn [not_hex] in Hhex. apply negb_true_iff in Hhex. rewrite Hhex.
    rewrite Hrun. reflexivity.
Qed.

(** X16.  The Integer rule reads the integer a text starts with and
    ignores what follows it.  A text made of white space, an optional minus
    sign, one or more decimal digits that write an integer of at most
    [2 ^ 53], which binary64 holds exactly, and a rest that does not start
    with a digit, the whole not being a hexadecimal literal, is coerced to
    the integer those digits write, with that sign, by [fromJs] and, as the
    text content of a node, by [fromXml]. *)
Theorem X16_integer_rule_reads_the_leading_integer :
  forall ws negative c s rest text,
    forallb is_white ws = true -> is_digit c = true ->
    forallb is_digit s = true -> ends_digits rest ->
    not_hex (c :: s ++ rest) = true ->
    (value_from 0 (c :: s) <= 2 ^ 53)%N ->
    text = string_of_list_ascii (ws ++ sign_chars negative ++ c :: s ++ rest) ->
    fromJs TInteger (VStr text)
    = Ok (DValue TInteger (VNum (mk_number negative (value_from 0 (c :: s)) 0)))
    /\
    forall n, textContent n = text ->
      fromXml TInteger n
      = Ok (DValue TInteger (VNum (mk_number negative (value_from 0 (c :: s)) 0))).
Proof.
  intros ws negative c s rest text Hws Hc Hs Hrest Hhex _ ->.
  assert (E : coerce TInteger
                (VStr (string_of_list_ascii
                         (ws ++ sign_chars negative ++ c :: s ++ rest)))
              = Ok (VNum (mk_number negative (value_from 0 (c :: s)) 0))).
  { unfold coerce, valueParser, parseInt. cbn [to_string bind].
    unfold parse_int_string. rewrite chr_string.
    now rewrite (parse_int_leading ws negative c s rest). }
  split.
  - cbn [fromJs]. now rewrite E.
  - intros n Hn. cbn [fromXml]. now rewrite Hn, E.
Qed.

Lemma X16_integer_rule_reads_the_leading_integer_witness :
  fromJs TInteger (VStr " -12.5px")
  = Ok (DValue TInteger (VNum (Finite true 12 0))) /\
  forall n, textContent n = " -12.5px" ->
    fromXml TInteger n = Ok (DValue TInteger (VNum (Finite true 12 0))).
Proof.
  apply (X16_integer_rule_reads_the_leading_integer
           (chr " ") true "1"%char (chr "2") (chr ".5px") " -12.5px");
    try reflexivity.
  vm_compute. discriminate.
Defined.

(** ** A rule applied to its own output *)

Lemma strip_zeros_result (fuel : nat) :
  forall m e, (Npos m < 2 ^ N.of_nat fuel)%N ->
    (Npos (fst (strip_zeros fuel m e)) mod 10 <> 0)%N /\
    e <= snd (strip_zeros fuel m e).
Proof.
  induction fuel as [|fuel IH]; intros m e Hm.
  - cbn in Hm. lia.
  - cbn [strip_zeros]. destruct (Npos m mod 10 =? 0)%N eqn:E.
    + apply N.eqb_eq in E.
      destruct (Npos m / 10)%N as [|m'] eqn:D.
      * apply N.div_small_iff in D; [|lia].
        rewrite N.mod_small in E by exact D. lia.
      * assert (Hm' : (Npos m' < 2 ^ N.of_nat fuel)%N).
        { rewrite <- D. apply N.Div0.div_lt_upper_bound.
          rewrite Nat2N.inj_succ, N.pow_succ_r' in Hm. lia. }
        destruct (IH m' (e + 1) Hm') as [H1 H2]. split; [exact H1 | lia].
    + apply N.eqb_neq in E. cbn [fst snd]. split; [exact E | lia].
Qed.

Lemma mk_number_facts (negative : bool) (m : N) (e : Z) :
  canonical (mk_number negative m e) /\
  (0 <= e -> is_integer (mk_number negative m e)).
Proof.
  unfold mk_number. destruct m as [|p]; [split; intros; exact I|].
  assert (Hp : (Npos p < 2 ^ N.of_nat (fuel_of (Npos p)))%N).
  { unfold fuel_of. rewrite Nat2N.inj_succ, N2Nat.id.
    apply N.log2_spec. lia. }
  destruct (strip_zeros_result _ p e Hp) as [H1 H2].
  destruct (strip_zeros (fuel_of (Npos p)) p e) as [p' e'].
  cbn [fst snd] in *. split; [exact H1 | cbn [is_integer]; lia].
Qed.

Lemma parse_int_facts (s : chars) :
  canonical (parse_int_chars s) /\
  (parse_int_chars s = NaN \/ is_integer (parse_int_chars s)).
Proof.
  unfold parse_int_chars.
  destruct (read_sign (trim_start s)) as [negative s1].
  destruct (match s1 with
            | z :: x :: s' =>
                if Ascii.eqb z "0" && (Ascii.eqb x "x" || Ascii.eqb x "X")
                then (16%N, s') else (10%N, s1)
            | _ => (10%N, s1)
            end) as [radix s2].
  destruct (read_digits radix 0 0 s2) as [[v count] rest].
  destruct count as [|count].
  - split; [exact I | now left].
  - destruct (mk_number_facts negative v 0) as [H1 H2].
    split; [exact H1 | right; apply H2; lia].
Qed.

Lemma parse_float_canonical (s : chars) : canonical (parse_float_chars s).
Proof.
  unfold parse_float_chars.
  destruct (read_sign (trim_start s)) as [negative s1].
  destruct (starts_with (chr "Infinity") s1); [exact I|].
  destruct (read_digits 10 0 0 s1) as [[i ci] r1].
  destruct (starts_with (chr ".") r1).
  - destruct (read_digits 10 i 0 (tl r1)) as [[f cf] r3].
    destruct ci, cf; try exact I; apply mk_number_facts.
  - destruct ci; [exact I | apply mk_number_facts].
Qed.

Lemma same_number_positive_zero (x : number) :
  same_number x (positive_zero x).
Proof. now destruct x. Qed.

Lemma coerce_again (t : schema) (v x : value) :
  coerce t v = Ok x ->
  (t = TInteger -> forall y, x = VNum y -> below_1e21 y) ->
  exists x', coerce t x = Ok x' /\ same_value x x'.
Proof.
  unfold coerce. destruct t; cbn [valueParser]; try discriminate; intros H Hint.
  - destruct (coerce_boolean_is_bool v x H) as [b ->].
    exists (VBool b). split; [now destruct b | reflexivity].
  - apply bind_Ok in H as (y & Hy & H). apply Ok_inj in H; subst x.
    unfold parseInt in Hy. apply bind_Ok in Hy as (s & _ & Hy).
    apply Ok_inj in Hy; subst y.
    exists (VNum (positive_zero (parse_int_string s))).
    split; [|apply same_number_positive_zero].
    unfold parseInt. cbn [to_string bind].
    destruct (parse_int_facts (chr s)) as [Hc [Hn|Hi]].
    + unfold parse_int_string in *. rewrite Hn. reflexivity.
    + rewrite parse_int_to_string; [reflexivity | exact Hc | exact Hi |].
      now apply (Hint eq_refl).
  - apply bind_Ok in H as (y & Hy & H). apply Ok_inj in H; subst x.
    unfold parseFloat in Hy. apply bind_Ok in Hy as (s & _ & Hy).
    apply Ok_inj in Hy; subst y.
    exists (VNum (positive_zero (parse_float_string s))).
    split; [|apply same_number_positive_zero].
    unfold parseFloat. cbn [to_string bind].
    rewrite parse_float_to_string; [reflexivity|].
    apply parse_float_canonical.
  - apply bind_Ok in H as (s & _ & H). apply Ok_inj in H; subst x.
    exists (VStr s). split; reflexivity.
Qed.

(** X17.  A value template applied to what it produced produces it again.
    Under the Boolean, Number and String templates, whatever the input:
    when [fromJs] accepts it and [toJs] renders the value node as [r], then
    [fromJs] accepts [r] and [toJs] renders that node as [r] again, the
    sign of a zero apart.  Under the Integer template the same holds when
    [r] is below [10 ^ 21] in magnitude. *)
Theorem X17_value_templates_are_idempotent :
  forall t v d r,
    is_value_template t = true ->
    fromJs t v = Ok d -> toJs d = Ok r ->
    (t = TInteger -> forall y, r = VNum y -> below_1e21 y) ->
    exists d' r', fromJs t r = Ok d' /\ toJs d' = Ok r' /\ same_value r r'.
Proof.
  intros t v d r Ht Hd Hr Hint.
  assert (Hx : exists x, coerce t v = Ok x /\ d = DValue t x).
  { destruct t; try discriminate; cbn [fromJs] in Hd;
      apply bind_Ok in Hd as (x & Hx & Hd); apply Ok_inj in Hd;
      exists x; split; auto. }
  destruct Hx as (x & Hx & ->). cbn [toJs] in Hr. apply Ok_inj in Hr; subst x.
  destruct (coerce_again t v r Hx Hint) as (x' & Hx' & Hsame).
  exists (DValue t x'), x'. split; [|split; [reflexivity | exact Hsame]].
  destruct t; try discriminate; cbn [fromJs]; now rewrite Hx'.
Qed.

Lemma X17_value_templates_are_idempotent_witness :
  exists d' r',
    fromJs TNumber (VNum (Finite false 25 (-1))) = Ok d' /\ toJs d' = Ok r' /\
    same_value (VNum (Finite false 25 (-1))) r'.
Proof.
  apply (X17_value_templates_are_idempotent TNumber (VStr " 2.50kg")
           (DValue TNumber (VNum (Finite false 25 (-1))))).
  - reflexivity.
  - vm_compute. reflexivity.
  - reflexivity.
  - discriminate.
Defined.

(** ** The default constructor *)

(** X19.  A template made without a constructor uses [Object].  With keys
    written once each, none of them [__proto__], native ingestion followed
    by native rendering then projects a value onto the template: the result
    is a plain object with exactly the declared keys, in the order in which
    [Object.keys] lists them, each holding what the child template makes
    and renders of
    the value read under that key; fields that are not declared and the
    constructor of the original are gone. *)
Theorem X19_default_constructor_projects :
  forall props v d r,
    NoDup (keys props) -> Forall plain_name (keys props) ->
    fromJs (TObject_new props None) v = Ok d -> toJs d = Ok r ->
    exists rs,
      r = VObj "Object" rs /\ keys rs = keys props /\
      Forall2 (fun kt kr =>
                 fst kr = fst kt /\
                 exists x d', js_get v (fst kt) = Ok x /\
                              fromJs (snd kt) x = Ok d' /\
                              toJs d' = Ok (snd kr)) props rs.
Proof.
  intros props v d r Hn Hp Hd Hr. unfold TObject_new in Hd.
  rewrite fromJs_object in Hd. apply bind_Ok in Hd as (ps & Hps & Hd).
  apply Ok_inj in Hd; subst d.
  destruct (fromJs_each_shape v props Hn Hp [] ps) as (ds & -> & Hds);
    [reflexivity | exact Hps |]. cbn [app] in *.
  assert (Hk : keys ds = keys props).
  { clear -Hds. induction Hds as [|kt kd l ds [E _] _ IH]; [reflexivity|].
    cbn [keys map]. rewrite E. f_equal. exact IH. }
  rewrite toJs_object in Hr. apply bind_Ok in Hr as (gs & Hgs & Hr).
  apply Ok_inj in Hr; subst r.
  destruct (toJs_each_shape ds) with (acc := @nil (string * value)) (fs := gs)
    as (rs & -> & Hrs); [now rewrite Hk | now rewrite Hk | reflexivity
                        | exact Hgs |].
  exists rs. split; [reflexivity|].
  assert (Hkr : keys rs = keys ds).
  { clear -Hrs. induction Hrs as [|kd kr l rs [E _] _ IH]; [reflexivity|].
    cbn [keys map]. rewrite E. f_equal. exact IH. }
  split; [now rewrite Hkr|].
  clear -Hds Hrs. revert rs Hrs.
  induction Hds as [|kt kd l ds (E & x & Hx & Hd) _ IH]; intros rs Hrs;
    inversion Hrs as [|? kr ? rs' (E' & Hr) Hrs']; subst; constructor.
  - split; [congruence|]. exists x, (snd kd). repeat split; assumption.
  - now apply IH.
Qed.

Lemma X19_default_constructor_projects_witness :
  exists rs,
    VObj "Object" [("a", VNum (Finite false 7 0))] = VObj "Object" rs /\
    keys rs = ["a"] /\
    Forall2 (fun kt kr =>
               fst kr = fst kt /\
               exists x d',
                 js_get (VObj "P" [("z", VNull); ("a", VStr "7")]) (fst kt)
                 = Ok x /\
                 fromJs (snd kt) x = Ok d' /\ toJs d' = Ok (snd kr))
            [("a", TInteger)] rs.
Proof.
  apply (X19_default_constructor_projects [("a", TInteger)]
           (VObj "P" [("z", VNull); ("a", VStr "7")])
           (DObject (TObject [("a", TInteger)] Object_ctor)
              [("a", DValue TInteger (VNum (Finite false 7 0)))])).
  - repeat constructor; simpl; intuition.
  - repeat constructor; discriminate.
  - vm_compute. reflexivity.
  - reflexivity.
Defined.

(** ** Rendering what was ingested as a tree *)

Lemma named_element (tag : string) (cs : list node) :
  named (Element tag cs) <-> is_name tag = true /\ Forall named cs.
Proof.
  cbn [named]. apply and_iff_compat_l.
  induction cs as [|c cs IH].
  - split; [constructor | trivial].
  - rewrite Forall_cons_iff, <- IH. reflexivity.
Qed.

Lemma names_ok_object (props : list (string * schema)) (c : ctor) :
  names_ok (TObject props c) <->
  Forall (fun kt => is_name (fst kt) = true /\ names_ok (snd kt)) props.
Proof.
  cbn [names_ok].
  induction props as [|[k child] props IH].
  - split; [constructor | trivial].
  - rewrite Forall_cons_iff, <- IH. reflexivity.
Qed.

Lemma named_key (n : node) : named n -> is_name (key_of n) = true.
Proof.
  destruct n as [tag cs|s]; [|reflexivity].
  intros H. apply named_element in H. exact (proj1 H).
Qed.

Lemma named_children (n : node) : named n -> Forall named (childNodes_of n).
Proof.
  destruct n as [tag cs|s]; [|constructor].
  intros H. apply named_element in H. exact (proj2 H).
Qed.

Lemma value_node_renderable (t : schema) (raw : value) (d : dentity)
    (name : string) :
  (x <- coerce t raw ;; Ok (DValue t x)) = Ok d -> is_name name = true ->
  renderable d name.
Proof.
  intros H Hname. apply bind_Ok in H as (x & Hx & H). apply Ok_inj in H; subst d.
  cbn [renderable]. split; [exact Hname|].
  destruct (coerce_conforms t raw x Hx) as [_ Hty].
  destruct t; try contradiction; destruct x; try contradiction;
    eexists; reflexivity.
Qed.

Lemma fromXml_each_renderable (props : list (string * schema)) :
  Forall (fun kt => forall n d name, named n -> fromXml (snd kt) n = Ok d ->
                                     is_name name = true -> renderable d name)
         props ->
  forall l acc ps,
    Forall named l -> fromXml_each props l acc = Ok ps ->
    Forall (fun kd => renderable (snd kd) (fst kd)) acc ->
    Forall (fun kd => renderable (snd kd) (fst kd)) ps.
Proof.
  intros IH. induction l as [|n l IHl]; intros acc ps Hl H Hacc.
  - simpl in H. apply Ok_inj in H; subst ps. exact Hacc.
  - inversion Hl as [|? ? Hn Hl']; subst.
    apply fromXml_each_step in H as [H|(child & d & _ & _ & Hc & Hd & H)].
    + exact (IHl acc ps Hl' H Hacc).
    + apply (IHl _ ps Hl' H). apply Forall_entries_js_set; [exact Hacc|].
      cbn [fst snd]. rewrite Forall_forall in IH.
      exact (IH (key_of n, child) (own_In _ _ _ Hc) n d (key_of n) Hn Hd
                (named_key n Hn)).
Qed.

Lemma fromXml_renderable (t : schema) :
  forall n d name, named n -> fromXml t n = Ok d -> is_name name = true ->
                   renderable d name.
Proof.
  induction t as [props c IH|itemName item IH| | | |] using schema_induction;
    intros n d name Hn H Hname;
    try exact (value_node_renderable _ _ d name H Hname).
  - rewrite fromXml_object in H. apply bind_Ok in H as (ps & Hps & H).
    apply Ok_inj in H; subst d. apply renderable_object.
    split; [exact Hname|].
    apply (fromXml_each_renderable props IH (childNodes_of n) [] ps);
      [now apply named_children | exact Hps | constructor].
  - rewrite fromXml_array in H.
    apply bind_Ok in H as (ds & Hds & H). apply Ok_inj in H; subst d.
    apply renderable_array. split; [exact Hname|].
    apply mapM_Forall2 in Hds.
    assert (Hf : Forall (fun m => named m /\ has_tag itemName m = true)
                        (filter (has_tag itemName) (childNodes_of n))).
    { apply Forall_forall. intros m Hm. apply filter_In in Hm as [Hin Ht].
      split; [|exact Ht].
      exact (proj1 (Forall_forall _ _) (named_children n Hn) m Hin). }
    induction Hds as [|m d ms ds Hd _ IHds]; constructor.
    + inversion Hf as [|? ? [Hm Ht] _]; subst.
      apply (IH m d itemName Hm Hd).
      unfold has_tag in Ht. destruct m as [tag cs|s]; [|discriminate].
      cbn [tagName_of] in Ht. apply String.eqb_eq in Ht. subst tag.
      apply named_element in Hm. exact (proj1 Hm).
    + apply IHds. now inversion Hf.
Qed.

Lemma fromJs_each_renderable (v : value) (l : list (string * schema)) :
  Forall (fun kt => is_name (fst kt) = true /\
                    forall x d name, fromJs (snd kt) x = Ok d ->
                                     is_name name = true -> renderable d name) l ->
  forall acc ps,
    fromJs_each v l acc = Ok ps ->
    Forall (fun kd => renderable (snd kd) (fst kd)) acc ->
    Forall (fun kd => renderable (snd kd) (fst kd)) ps.
Proof.
  induction 1 as [|[k child] l [Hk Hchild] _ IHl]; intros acc ps H Hacc.
  - simpl in H. apply Ok_inj in H; subst ps. exact Hacc.
  - cbn [fromJs_each] in H. apply bind_Ok in H as (x & _ & H).
    apply bind_Ok in H as (d & Hd & H).
    apply (IHl _ ps H). apply Forall_entries_js_set; [exact Hacc|].
    cbn [fst snd] in *. exact (Hchild x d k Hd Hk).
Qed.

Lemma fromJs_renderable (t : schema) :
  names_ok t ->
  forall v d name, fromJs t v = Ok d -> is_name name = true -> renderable d name.
Proof.
  induction t as [props c IH|itemName item IH| | | |] using schema_induction;
    intros Hok v d name H Hname;
    try exact (value_node_renderable _ _ d name H Hname).
  - apply names_ok_object in Hok.
    rewrite fromJs_object in H. apply bind_Ok in H as (ps & Hps & H).
    apply Ok_inj in H; subst d. apply renderable_object.
    split; [exact Hname|].
    apply (fromJs_each_renderable v props) with (acc := []);
      [|exact Hps | constructor].
    rewrite Forall_forall in *. intros kt Hin.
    destruct (Hok kt Hin) as [Hk Hc]. split; [exact Hk|].
    intros x d name' Hd Hn'. exact (IH kt Hin Hc x d name' Hd Hn').
  - destruct Hok as [Hitem Hok].
    cbn [fromJs] in H. destruct v as [| | | | |xs|]; try discriminate.
    apply bind_Ok in H as (ds & Hds & H). apply Ok_inj in H; subst d.
    apply renderable_array. split; [exact Hname|].
    apply mapM_Forall2 in Hds.
    induction Hds as [|x d xs ds Hd _ IHds]; constructor.
    + exact (IH Hok x d itemName Hd Hitem).
    + exact IHds.
Qed.

(** X20.  What was ingested can be rendered as a tree.  [toXml], given a
    name, returns an element for whatever [fromXml] built from a tree whose
    elements bear names, under any template; and for whatever [fromJs]
    built under a template whose keys and item names are names, from any
    native value. *)
Theorem X20_ingested_nodes_render_as_trees :
  (forall t n d name,
     named n -> fromXml t n = Ok d -> is_name name = true ->
     exists e, toXml d name = Ok e) /\
  (forall t v d name,
     names_ok t -> fromJs t v = Ok d -> is_name name = true ->
     exists e, toXml d name = Ok e).
Proof.
  split.
  - intros t n d name Hn Hd Hname. apply toXml_renderable.
    exact (fromXml_renderable t n d name Hn Hd Hname).
  - intros t v d name Hok Hd Hname. apply toXml_renderable.
    exact (fromJs_renderable t Hok v d name Hd Hname).
Qed.

Lemma X20_ingested_nodes_render_as_trees_witness :
  exists e,
    toXml (DObject (TObject [("a", TArray "n" TInteger)] Object_ctor)
             [("a", DArray (TArray "n" TInteger)
                      [DValue TInteger (VNum NaN)])]) "out" = Ok e.
Proof.
  apply (proj1 X20_ingested_nodes_render_as_trees
           (TObject [("a", TArray "n" TInteger)] Object_ctor)
           (el "x" [txt " "; el "a" [el "n" [txt "none"]; el "m" []]])).
  - cbn [named el txt]. repeat split; reflexivity.
  - vm_compute. reflexivity.
  - reflexivity.
Defined.

(** ** The order of the entries that tree ingestion builds *)

Lemma existsb_eqb_In (k : string) (seen : list string) :
  existsb (String.eqb k) seen = true <-> In k seen.
Proof.
  rewrite existsb_exists. split.
  - intros (x & Hin & E). apply String.eqb_eq in E. now subst x.
  - intros Hin. exists k. split; [exact Hin | apply String.eqb_refl].
Qed.

Lemma fromXml_each_order (props : list (string * schema)) (l : list node) :
  forall acc ps seen,
    (forall k, In k seen <-> In k (keys acc)) ->
    fromXml_each props l acc = Ok ps ->
    keys ps = keys acc ++ first_keys props l seen.
Proof.
  induction l as [|n l IHl]; intros acc ps seen Hseen H.
  - simpl in H. apply Ok_inj in H; subst ps. cbn [first_keys].
    now rewrite app_nil_r.
  - rewrite fromXml_each_cons in H. cbn [first_keys]. unfold relevant, has_own.
    destruct (own acc (key_of n)) as [d0|] eqn:Ha.
    + assert (Hin : existsb (String.eqb (key_of n)) seen = true).
      { apply existsb_eqb_In, Hseen.
        apply own_In in Ha. unfold keys. apply in_map_iff.
        exists (key_of n, d0). split; [reflexivity | exact Ha]. }
      rewrite Hin, andb_false_r. exact (IHl acc ps seen Hseen H).
    + destruct (inherited (key_of n)) eqn:Hi.
      * rewrite andb_false_r. cbn [andb]. exact (IHl acc ps seen Hseen H).
      * destruct (own props (key_of n)) as [child|] eqn:Hp.
        -- apply bind_Ok in H as (d & _ & H).
           rewrite (js_set_fresh acc (key_of n) d Hi Ha) in H.
           assert (Hout : existsb (String.eqb (key_of n)) seen = false).
           { destruct (existsb (String.eqb (key_of n)) seen) eqn:E;
               [|reflexivity].
             apply existsb_eqb_In, Hseen in E.
             apply own_None_iff in Ha. contradiction. }
           rewrite Hout. cbn [andb negb].
           rewrite (IHl (acc ++ [(key_of n, d)]) ps (key_of n :: seen));
             [| |exact H].
           ++ unfold keys. rewrite map_app, <- app_assoc. reflexivity.
           ++ intros k. unfold keys. rewrite map_app, in_app_iff.
              cbn [map fst In]. rewrite (Hseen k). unfold keys. tauto.
        -- cbn [andb]. exact (IHl acc ps seen Hseen H).
Qed.

(** X21.  The entries of the object that [TObject.fromXml] returns stand in
    the order of the tree, not of the template: their keys are the keys of
    the children that are declared keys and not inherited names, each at
    its first occurrence, in the order of the children.  The key of a child
    is its tag name, or ["undefined"] for a child without one such as a text
    node. *)
Theorem X21_fromXml_entries_in_tree_order :
  forall props c n t ps,
    fromXml (TObject props c) n = Ok (DObject t ps) ->
    keys ps = first_keys props (childNodes_of n) [].
Proof.
  intros props c n t ps H. rewrite fromXml_object in H.
  apply bind_Ok in H as (ps' & Hps & H). apply Ok_inj in H.
  injection H as _ <-.
  exact (fromXml_each_order props (childNodes_of n) [] ps' []
           (fun k => conj (fun H => H) (fun H => H)) Hps).
Qed.

Lemma X21_fromXml_entries_in_tree_order_witness :
  keys [("b", DValue TString (VStr "1")); ("a", DValue TString (VStr "2"))]
  = first_keys [("a", TString); ("b", TString)]
      (childNodes_of (el "x" [el "b" [txt "1"]; el "z" []; el "a" [txt "2"];
                              el "b" [txt "3"]])) [].
Proof.
  apply (X21_fromXml_entries_in_tree_order
           [("a", TString); ("b", TString)] Object_ctor
           (el "x" [el "b" [txt "1"]; el "z" []; el "a" [txt "2"];
                    el "b" [txt "3"]])
           (TObject [("a", TString); ("b", TString)] Object_ctor)).
  vm_compute. reflexivity.
Defined.

(** ** The Boolean rule, all inputs *)












(** ** Rendering intermediate objects that live in the store *)

Lemma held_at_object (h : store) (a : addr) (t : schema)
    (ps : list (string * dentity)) :
  held_at h a (DObject t ps) <->
  exists kas, nth_error h a = Some (CDObject t kas) /\
              Forall2 (fun ka kd => fst ka = fst kd /\
                                    held_at h (snd ka) (snd kd)) kas ps.
Proof.
  cbn [held_at].
  match goal with
  | |- (exists kas, _ /\ ?f kas ps) <-> _ =>
      assert (E : forall l kas, f kas l <->
        Forall2 (fun ka kd => fst ka = fst kd /\
                              held_at h (snd ka) (snd kd)) kas l)
  end.
  { induction l as [|[k' d'] l IH]; intros [|[k c] kas].
    - split; [constructor | trivial].
    - split; [contradiction | intros H; inversion H].
    - split; [contradiction | intros H; inversion H].
    - rewrite IH. split.
      + intros (E & H1 & H2). constructor; [split; assumption | exact H2].
      + intros H. inversion H as [|? ? ? ? [E H1] H2]; subst. auto. }
  split; intros (kas & Hc & H); exists kas; (split; [exact Hc|]); now apply E.
Qed.

Lemma held_at_array (h : store) (a : addr) (t : schema) (ds : list dentity) :
  held_at h a (DArray t ds) <->
  exists cs, nth_error h a = Some (CDArray t cs) /\ Forall2 (held_at h) cs ds.
Proof.
  cbn [held_at].
  match goal with
  | |- (exists cs, _ /\ ?f cs ds) <-> _ =>
      assert (E : forall l cs, f cs l <-> Forall2 (held_at h) cs l)
  end.
  { induction l as [|d' l IH]; intros [|c cs].
    - split; [constructor | trivial].
    - split; [contradiction | intros H; inversion H].
    - split; [contradiction | intros H; inversion H].
    - rewrite IH. split.
      + intros (H1 & H2). now constructor.
      + intros H. inversion H; subst. auto. }
  split; intros (cs & Hc & H); exists cs; (split; [exact Hc|]); now apply E.
Qed.

Lemma extends_cell (h h' : store) (a : addr) (c : cell) :
  extends h h' -> nth_error h a = Some c -> nth_error h' a = Some c.
Proof.
  intros He Hc. rewrite (extends_nth h h' a He); [exact Hc|].
  apply nth_error_Some. now rewrite Hc.
Qed.

Lemma Forall2_with {A B : Type} (Q : B -> Prop) (R R' : A -> B -> Prop)
    (l : list A) (l' : list B) :
  Forall Q l' -> Forall2 R l l' ->
  (forall a b, Q b -> R a b -> R' a b) -> Forall2 R' l l'.
Proof.
  intros HQ H Himp. revert HQ.
  induction H as [|a b l l' Hab _ IH]; intros HQ; constructor.
  - inversion HQ; subst. now apply Himp.
  - inversion HQ; subst. now apply IH.
Qed.

Lemma Forall2_right {A B : Type} (Q : B -> Prop) (R : A -> B -> Prop)
    (l : list A) (l' : list B) :
  Forall2 R l l' -> (forall a b, R a b -> Q b) -> Forall Q l'.
Proof.
  intros H Himp. induction H as [|a b l l' Hab _ IH]; constructor; eauto.
Qed.

(** A store that grows keeps the intermediate objects it holds. *)
Lemma held_at_extends (h h' : store) (d : dentity) :
  extends h h' -> forall a, held_at h a d -> held_at h' a d.
Proof.
  intros He.
  induction d as [t ps IH|t ds IH|t v0] using dentity_induction; intros a H.
  - apply held_at_object in H as (kas & Hc & H). apply held_at_object.
    exists kas. split; [exact (extends_cell _ _ _ _ He Hc)|].
    apply (Forall2_with _ _ _ _ _ IH H). intros ka kd Hkd [E Hd]. auto.
  - apply held_at_array in H as (cs & Hc & H). apply held_at_array.
    exists cs. split; [exact (extends_cell _ _ _ _ He Hc)|].
    apply (Forall2_with _ _ _ _ _ IH H). intros c d Hd Hh. auto.
  - destruct H as (r & Hc & Hr). exists r.
    split; [exact (extends_cell _ _ _ _ He Hc) | exact Hr].
Qed.

Lemma held_scalars (h : store) (d : dentity) :
  forall a, held_at h a d -> scalars d.
Proof.
  induction d as [t ps IH|t ds IH|t v0] using dentity_induction; intros a H.
  - apply held_at_object in H as (kas & _ & H). apply scalars_object.
    apply (Forall2_right _ _ _ _
             (Forall2_with _ _ (fun ka kd => scalars (snd kd)) _ _ IH H
                (fun ka kd Hkd Hr => Hkd (snd ka) (proj2 Hr)))).
    auto.
  - apply held_at_array in H as (cs & _ & H). apply scalars_array.
    apply (Forall2_right _ _ _ _
             (Forall2_with _ _ (fun c d => scalars d) _ _ IH H
                (fun c d Hd Hr => Hd c Hr))).
    auto.
  - destruct H as (r & _ & Hr). cbn [scalars]. now destruct v0.
Qed.

Lemma distinct_keys_object (t : schema) (ps : list (string * dentity)) :
  distinct_keys (DObject t ps) <->
  NoDup (keys ps) /\ Forall (fun kd => distinct_keys (snd kd)) ps.
Proof.
  cbn [distinct_keys]. apply and_iff_compat_l.
  induction ps as [|[k d] ps IH].
  - split; [constructor | trivial].
  - rewrite Forall_cons_iff, <- IH. reflexivity.
Qed.

Lemma distinct_keys_array (t : schema) (ds : list dentity) :
  distinct_keys (DArray t ds) <-> Forall distinct_keys ds.
Proof.
  cbn [distinct_keys]. induction ds as [|d ds IH].
  - split; [constructor | trivial].
  - rewrite Forall_cons_iff, <- IH. reflexivity.
Qed.

Lemma depth_object (t : schema) (ps : list (string * dentity)) (f : nat) :
  (depth (DObject t ps) <= S f)%nat ->
  Forall (fun kd => (depth (snd kd) <= f)%nat) ps.
Proof.
  cbn [depth]. intros H. apply le_S_n in H. revert H.
  induction ps as [|[k d] ps IH]; intros H; constructor.
  - cbn [snd]. lia.
  - apply IH. lia.
Qed.

Lemma depth_array (t : schema) (ds : list dentity) (f : nat) :
  (depth (DArray t ds) <= S f)%nat ->
  Forall (fun d => (depth d <= f)%nat) ds.
Proof.
  cbn [depth]. intros H. apply le_S_n in H. revert H.
  induction ds as [|d ds IH]; intros H; constructor.
  - lia.
  - apply IH. lia.
Qed.

Lemma depth_positive (d : dentity) : (1 <= depth d)%nat.
Proof. destruct d; cbn [depth]; lia. Qed.

Lemma toJs_store_extends (d : dentity) (h h1 : store) (r : ref) :
  scalars d -> returns (toJs d) -> toJs_store d h = Ok (r, h1) -> extends h h1.
Proof.
  intros Hs [v Hv] Hrun.
  destruct (toJs_store_spec d Hs v Hv h) as (r' & h' & Hrun' & He & _).
  rewrite Hrun in Hrun'. apply Ok_inj in Hrun'. injection Hrun' as _ <-.
  exact He.
Qed.

Section ToJsAtLoops.
Variable render : addr -> store -> outcome (ref * store).
Variables (base : store) (a result : addr).
Hypothesis result_fresh : (List.length base <= result)%nat.

(** The loop over the keys of a node in the store does what the loop over
    the entries of the node does. *)
Lemma toJs_at_each_store (t : schema) (kas : list (string * addr)) :
  nth_error base a = Some (CDObject t kas) -> NoDup (keys kas) ->
  forall kl l,
    Forall2 (fun ka kd =>
               fst ka = fst kd /\ scalars (snd kd) /\ returns (toJs (snd kd)) /\
               forall h, extends base h ->
                         render (snd ka) h = toJs_store (snd kd) h) kl l ->
    (forall ka, In ka kl -> In ka kas) ->
    forall h, extends base h ->
      toJs_at_each render a result (keys kl) h = toJs_store_each result l h.
Proof.
  intros Hcell Hnd kl l H.
  induction H as [|[k c] [k' d] kl l (E & Hs & Hret & Hrender) _ IH];
    intros Hsub h He; [reflexivity|].
  cbn [fst snd] in *. subst k'.
  cbn [keys map fst toJs_at_each toJs_store_each].
  rewrite (extends_cell _ _ _ _ He Hcell).
  rewrite (own_NoDup_In kas k c Hnd (Hsub _ (or_introl eq_refl))).
  rewrite (Hrender h He).
  destruct (toJs_store d h) as [[x h1]| |] eqn:Hrun; cbn [bind]; try reflexivity.
  cbn [fst snd].
  destruct (nth_error h1 result) as [[cn fs| | | | | | |]|]; try reflexivity.
  apply IH.
  - intros ka Hin. apply Hsub. now right.
  - apply extends_store_set; [|exact result_fresh].
    eapply extends_trans; [exact He|].
    exact (toJs_store_extends d h h1 x Hs Hret Hrun).
Qed.

(** The loop over the indices of an array node in the store does what the
    loop over the items of the node does. *)
Lemma toJs_at_items_store (t : schema) (cs : list addr) :
  nth_error base a = Some (CDArray t cs) ->
  forall cl l,
    Forall2 (fun c d =>
               scalars d /\ returns (toJs d) /\
               forall h, extends base h -> render c h = toJs_store d h) cl l ->
    forall i,
      (forall j c, nth_error cl j = Some c -> nth_error cs (i + j) = Some c) ->
      forall h, extends base h ->
        toJs_at_items render a result (seq i (List.length cl)) h
        = toJs_store_items result l h.
Proof.
  intros Hcell cl l H.
  induction H as [|c d cl l (Hs & Hret & Hrender) _ IH];
    intros i Hidx h He; [reflexivity|].
  cbn [List.length seq toJs_at_items toJs_store_items].
  rewrite (extends_cell _ _ _ _ He Hcell).
  specialize (Hidx O c eq_refl) as H0. rewrite Nat.add_0_r in H0. rewrite H0.
  rewrite (Hrender h He).
  destruct (toJs_store d h) as [[x h1]| |] eqn:Hrun; cbn [bind]; try reflexivity.
  cbn [fst snd].
  destruct (nth_error h1 result) as [[| rs | | | | | |]|]; try reflexivity.
  apply IH.
  - intros j c' Hj. replace (S i + j)%nat with (i + S j)%nat by lia.
    now apply Hidx.
  - apply extends_store_set; [|exact result_fresh].
    eapply extends_trans; [exact He|].
    exact (toJs_store_extends d h h1 x Hs Hret Hrun).
Qed.
End ToJsAtLoops.

Lemma toJs_each_children (l : list (string * dentity)) :
  forall acc fs, toJs_each l acc = Ok fs ->
                 Forall (fun kd => returns (toJs (snd kd))) l.
Proof.
  induction l as [|[k d] l IH]; intros acc fs H; constructor.
  - cbn [toJs_each] in H. apply bind_Ok in H as (x & Hx & _). now exists x.
  - cbn [toJs_each] in H. apply bind_Ok in H as (x & _ & H). eauto.
Qed.

Lemma toJs_children (d : dentity) :
  returns (toJs d) ->
  match d with
  | DObject t ps =>
      (exists props c, t = TObject props c) /\
      Forall (fun kd => returns (toJs (snd kd))) ps
  | DArray _ ds => Forall (fun i => returns (toJs i)) ds
  | DValue _ _ => True
  end.
Proof.
  intros [v Hv]. destruct d as [t ps|t ds|t v0]; [| |exact I].
  - destruct t as [props c| | | | |]; try discriminate.
    split; [eauto|]. rewrite toJs_object in Hv.
    apply bind_Ok in Hv as (fs & Hfs & _).
    exact (toJs_each_children ps _ fs Hfs).
  - rewrite toJs_array in Hv. apply bind_Ok in Hv as (xs & Hxs & _).
    apply mapM_Forall2 in Hxs.
    induction Hxs as [|i x ds xs Hi _ IH]; constructor;
      [now exists x | exact IH].
Qed.

Lemma held_keys (h : store) (kas : list (string * addr))
    (ps : list (string * dentity)) :
  Forall2 (fun ka kd => fst ka = fst kd /\ held_at h (snd ka) (snd kd)) kas ps ->
  keys kas = keys ps.
Proof.
  induction 1 as [|ka kd kas ps [E _] _ IH]; [reflexivity|].
  cbn [keys map]. rewrite E. f_equal. exact IH.
Qed.

(** With fuel for the nesting of the node, the method on the node in the
    store does what the method on the node does. *)
Lemma toJs_at_faithful (d : dentity) :
  forall base a, held_at base a d -> distinct_keys d -> returns (toJs d) ->
  forall fuel h, (depth d <= fuel)%nat -> extends base h ->
    toJs_at fuel a h = toJs_store d h.
Proof.
  induction d as [t ps IH|t ds IH|t v0] using dentity_induction;
    intros base a Hheld Hdist Hret fuel h Hfuel He;
    (destruct fuel as [|f]; [cbn [depth] in Hfuel; lia|]).
  - destruct (toJs_children _ Hret) as [(props & c & ->) Hrets].
    apply held_at_object in Hheld as (kas & Hcell & H2).
    apply distinct_keys_object in Hdist as [Hnd Hdist].
    pose proof (depth_object _ _ _ Hfuel) as Hdepth.
    cbn [toJs_at]. rewrite (extends_cell _ _ _ _ He Hcell).
    rewrite toJs_store_object. unfold new.
    destruct (alloc_object_spec (ctor_name c) (ctor_fields c) h)
      as (res & frs & h0 & Halloc & Hle & Hlen & Hext0 & _).
    rewrite Halloc.
    assert (He0 : extends base h0) by (eapply extends_trans; eauto).
    rewrite (extends_cell _ _ _ _ He0 Hcell).
    apply (toJs_at_each_store (toJs_at f) base a res) with (t := TObject props c)
                                                            (kas := kas).
    + pose proof (extends_length _ _ He). lia.
    + exact Hcell.
    + rewrite (held_keys base kas ps H2). exact Hnd.
    + assert (HQ : Forall (fun kd =>
                 (forall base a, held_at base a (snd kd) ->
                    distinct_keys (snd kd) -> returns (toJs (snd kd)) ->
                    forall fuel h, (depth (snd kd) <= fuel)%nat ->
                      extends base h ->
                      toJs_at fuel a h = toJs_store (snd kd) h) /\
                 distinct_keys (snd kd) /\ returns (toJs (snd kd)) /\
                 (depth (snd kd) <= f)%nat) ps).
      { rewrite Forall_forall in IH, Hdist, Hrets, Hdepth.
        apply Forall_forall. intros kd Hin.
        split; [exact (IH kd Hin)|]. split; [exact (Hdist kd Hin)|].
        split; [exact (Hrets kd Hin) | exact (Hdepth kd Hin)]. }
      apply (Forall2_with _ _ _ _ _ HQ H2).
      intros ka kd (Hkd & Hd1 & Hr1 & Hf1) [E Hh].
      split; [exact E|]. split; [exact (held_scalars base _ _ Hh)|].
      split; [exact Hr1|].
      intros h' He'. exact (Hkd base (snd ka) Hh Hd1 Hr1 f h' Hf1 He').
    + auto.
    + exact He0.
  - pose proof (toJs_children _ Hret) as Hrets. cbn beta iota in Hrets.
    apply held_at_array in Hheld as (cs & Hcell & H2).
    apply distinct_keys_array in Hdist.
    pose proof (depth_array _ _ _ Hfuel) as Hdepth.
    cbn [toJs_at]. rewrite (extends_cell _ _ _ _ He Hcell).
    rewrite toJs_store_array.
    apply (toJs_at_items_store (toJs_at f) base a (List.length h))
      with (t := t) (cs := cs) (i := O).
    + pose proof (extends_length _ _ He). lia.
    + exact Hcell.
    + assert (HQ : Forall (fun d =>
                 (forall base a, held_at base a d ->
                    distinct_keys d -> returns (toJs d) ->
                    forall fuel h, (depth d <= fuel)%nat -> extends base h ->
                      toJs_at fuel a h = toJs_store d h) /\
                 distinct_keys d /\ returns (toJs d) /\
                 (depth d <= f)%nat) ds).
      { rewrite Forall_forall in IH, Hdist, Hrets, Hdepth.
        apply Forall_forall. intros d Hin.
        split; [exact (IH d Hin)|]. split; [exact (Hdist d Hin)|].
        split; [exact (Hrets d Hin) | exact (Hdepth d Hin)]. }
      apply (Forall2_with _ _ _ _ _ HQ H2).
      intros c d (Hd & Hd1 & Hr1 & Hf1) Hh.
      split; [exact (held_scalars base _ _ Hh)|]. split; [exact Hr1|].
      intros h' He'. exact (Hd base c Hh Hd1 Hr1 f h' Hf1 He').
    + intros j c Hj. exact Hj.
    + eapply extends_trans; [exact He | apply extends_app].
  - destruct Hheld as (r & Hcell & Hr).
    cbn [toJs_at]. rewrite (extends_cell _ _ _ _ He Hcell).
    destruct v0; cbn in Hr; try discriminate; injection Hr as <-; reflexivity.
Qed.

Lemma toXml_store_extends (d : dentity) (name : string)
    (document : option addr) (h h1 : store) (c : addr) :
  returns (toXml d name) -> toXml_store d name document h = Ok (c, h1) ->
  extends h h1.
Proof.
  intros [n Hn] Hrun.
  destruct (toXml_store_spec d name n Hn document h) as (c' & h' & Hrun' & He & _).
  rewrite Hrun in Hrun'. apply Ok_inj in Hrun'. injection Hrun' as _ <-.
  exact He.
Qed.

Lemma appendChild_store_extends (base h1 h2 : store) (e c : addr) :
  extends base h1 -> (List.length base <= e)%nat ->
  appendChild_store h1 e c = Ok h2 -> extends base h2.
Proof.
  intros He Hle. unfold appendChild_store.
  destruct (nth_error h1 e) as [[| | |doc t kids| | | |]|]; try discriminate.
  intros H. apply Ok_inj in H; subst h2. now apply extends_store_set.
Qed.

Lemma createElement_store_fresh (name : string) (document : option addr)
    (h h0 : store) (doc element : addr) :
  createElement_store name document h = Ok (doc, element, h0) ->
  extends h h0 /\ (List.length h <= element)%nat.
Proof.
  unfold createElement_store.
  destruct document as [a|]; destruct (is_name name); try discriminate;
    intros H; apply Ok_inj in H; injection H as <- <- <-.
  - split; [apply extends_app | lia].
  - split; [rewrite <- app_assoc; apply extends_app|].
    rewrite length_app. cbn. lia.
Qed.

Lemma ref_toString_scalar (v : value) (r : ref) :
  scalar_ref v = Some r -> ref_toString r = call_toString v.
Proof. destruct v; cbn; intros H; try discriminate; now injection H as <-. Qed.

Section ToXmlAtLoops.
Variable render : addr -> string -> option addr -> store -> outcome (addr * store).
Variables (base : store) (a doc element : addr).
Hypothesis element_fresh : (List.length base <= element)%nat.

Lemma toXml_at_props_store (t : schema) (kas : list (string * addr)) :
  nth_error base a = Some (CDObject t kas) -> NoDup (keys kas) ->
  forall kl l,
    Forall2 (fun ka kd =>
               fst ka = fst kd /\ returns (toXml (snd kd) (fst kd)) /\
               forall h, extends base h ->
                 render (snd ka) (fst kd) (Some doc) h
                 = toXml_store (snd kd) (fst kd) (Some doc) h) kl l ->
    (forall ka, In ka kl -> In ka kas) ->
    forall h, extends base h ->
      toXml_at_props render a doc element (keys kl) h
      = toXml_store_props doc element l h.
Proof.
  intros Hcell Hnd kl l H.
  induction H as [|[k c] [k' d] kl l (E & Hret & Hrender) _ IH];
    intros Hsub h He; [reflexivity|].
  cbn [fst snd] in *. subst k'.
  cbn [keys map fst toXml_at_props toXml_store_props].
  rewrite (extends_cell _ _ _ _ He Hcell).
  rewrite (own_NoDup_In kas k c Hnd (Hsub _ (or_introl eq_refl))).
  rewrite (Hrender h He).
  destruct (toXml_store d k (Some doc) h) as [[c1 h1]| |] eqn:Hrun;
    cbn [bind]; try reflexivity.
  cbn [fst snd].
  destruct (appendChild_store h1 element c1) as [h2| |] eqn:Ha;
    cbn [bind]; try reflexivity.
  apply IH.
  - intros ka Hin. apply Hsub. now right.
  - apply (appendChild_store_extends base h1 h2 element c1);
      [|exact element_fresh | exact Ha].
    eapply extends_trans; [exact He|].
    exact (toXml_store_extends d k (Some doc) h h1 c1 Hret Hrun).
Qed.

Lemma toXml_at_items_store (itemName : string) (item : schema)
    (cs : list addr) :
  nth_error base a = Some (CDArray (TArray itemName item) cs) ->
  forall cl l,
    Forall2 (fun c d =>
               returns (toXml d itemName) /\
               forall h, extends base h ->
                 render c itemName (Some doc) h
                 = toXml_store d itemName (Some doc) h) cl l ->
    forall i,
      (forall j c, nth_error cl j = Some c -> nth_error cs (i + j) = Some c) ->
      forall h, extends base h ->
        toXml_at_items render a doc element (seq i (List.length cl)) h
        = toXml_store_items doc element (TArray itemName item) l h.
Proof.
  intros Hcell cl l H.
  induction H as [|c d cl l (Hret & Hrender) _ IH];
    intros i Hidx h He; [reflexivity|].
  cbn [List.length seq toXml_at_items toXml_store_items].
  rewrite (extends_cell _ _ _ _ He Hcell).
  specialize (Hidx O c eq_refl) as H0. rewrite Nat.add_0_r in H0. rewrite H0.
  rewrite (Hrender h He).
  destruct (toXml_store d itemName (Some doc) h) as [[c1 h1]| |] eqn:Hrun;
    cbn [bind]; try reflexivity.
  cbn [fst snd].
  destruct (appendChild_store h1 element c1) as [h2| |] eqn:Ha;
    cbn [bind]; try reflexivity.
  apply IH.
  - intros j c' Hj. replace (S i + j)%nat with (i + S j)%nat by lia.
    now apply Hidx.
  - apply (appendChild_store_extends base h1 h2 element c1);
      [|exact element_fresh | exact Ha].
    eapply extends_trans; [exact He|].
    exact (toXml_store_extends d itemName (Some doc) h h1 c1 Hret Hrun).
Qed.
End ToXmlAtLoops.

Lemma toXml_children (d : dentity) (name : string) :
  returns (toXml d name) ->
  match d with
  | DObject _ ps => Forall (fun kd => returns (toXml (snd kd) (fst kd))) ps
  | DArray t ds =>
      ds = [] \/
      exists itemName item,
        t = TArray itemName item /\
        Forall (fun i => returns (toXml i itemName)) ds
  | DValue _ _ => True
  end.
Proof.
  intros [n Hn]. destruct d as [t ps|t ds|t v0]; [| |exact I].
  - rewrite toXml_object in Hn. apply bind_Ok in Hn as (e & He & Hn).
    apply createElement_Ok in He; subst e.
    apply toXml_props_children in Hn as (cs & _ & Hcs).
    induction Hcs as [|kd c ps cs Hc _ IH]; constructor;
      [now exists c | exact IH].
  - destruct ds as [|d0 ds]; [now left | right].
    rewrite toXml_array in Hn. apply bind_Ok in Hn as (e & He & Hn).
    apply createElement_Ok in He; subst e.
    destruct t as [|itemName item| | | |]; try discriminate.
    exists itemName, item. split; [reflexivity|].
    apply toXml_items_children in Hn as (cs & _ & Hcs).
    induction Hcs as [|i c ds' cs Hc _ IH]; constructor;
      [now exists c | exact IH].
Qed.

Lemma toXml_at_faithful (d : dentity) :
  forall base a name document,
    held_at base a d -> distinct_keys d -> returns (toXml d name) ->
  forall fuel h, (depth d <= fuel)%nat -> extends base h ->
    toXml_at fuel a name document h = toXml_store d name document h.
Proof.
  induction d as [t ps IH|t ds IH|t v0] using dentity_induction;
    intros base a name document Hheld Hdist Hret fuel h Hfuel He;
    (destruct fuel as [|f]; [cbn [depth] in Hfuel; lia|]).
  - pose proof (toXml_children _ _ Hret) as Hrets. cbn beta iota in Hrets.
    apply held_at_object in Hheld as (kas & Hcell & H2).
    apply distinct_keys_object in Hdist as [Hnd Hdist].
    pose proof (depth_object _ _ _ Hfuel) as Hdepth.
    cbn [toXml_at]. rewrite (extends_cell _ _ _ _ He Hcell).
    rewrite toXml_store_object.
    destruct (createElement_store name document h)
      as [[[doc element] h0]| |] eqn:Hcreate; cbn [bind]; try reflexivity.
    destruct (createElement_store_fresh _ _ _ _ _ _ Hcreate) as [Hext0 Hle].
    assert (He0 : extends base h0) by (eapply extends_trans; eauto).
    rewrite (extends_cell _ _ _ _ He0 Hcell).
    apply (toXml_at_props_store (toXml_at f) base a doc element) with (t := t)
                                                                 (kas := kas).
    + pose proof (extends_length _ _ He). lia.
    + exact Hcell.
    + rewrite (held_keys base kas ps H2). exact Hnd.
    + assert (HQ : Forall (fun kd =>
                 (forall base a name document, held_at base a (snd kd) ->
                    distinct_keys (snd kd) -> returns (toXml (snd kd) name) ->
                    forall fuel h, (depth (snd kd) <= fuel)%nat ->
                      extends base h ->
                      toXml_at fuel a name document h
                      = toXml_store (snd kd) name document h) /\
                 distinct_keys (snd kd) /\
                 returns (toXml (snd kd) (fst kd)) /\
                 (depth (snd kd) <= f)%nat) ps).
      { rewrite Forall_forall in IH, Hdist, Hrets, Hdepth.
        apply Forall_forall. intros kd Hin.
        split; [exact (IH kd Hin)|]. split; [exact (Hdist kd Hin)|].
        split; [exact (Hrets kd Hin) | exact (Hdepth kd Hin)]. }
      apply (Forall2_with _ _ _ _ _ HQ H2).
      intros ka kd (Hkd & Hd1 & Hr1 & Hf1) [E Hh].
      split; [exact E|]. split; [exact Hr1|].
      intros h' He'.
      exact (Hkd base (snd ka) (fst kd) (Some doc) Hh Hd1 Hr1 f h' Hf1 He').
    + auto.
    + exact He0.
  - pose proof (toXml_children _ _ Hret) as Hrets. cbn beta iota in Hrets.
    apply held_at_array in Hheld as (cs & Hcell & H2).
    apply distinct_keys_array in Hdist.
    pose proof (depth_array _ _ _ Hfuel) as Hdepth.
    cbn [toXml_at]. rewrite (extends_cell _ _ _ _ He Hcell).
    rewrite toXml_store_array.
    destruct (createElement_store name document h)
      as [[[doc element] h0]| |] eqn:Hcreate; cbn [bind]; try reflexivity.
    destruct (createElement_store_fresh _ _ _ _ _ _ Hcreate) as [Hext0 Hle].
    assert (He0 : extends base h0) by (eapply extends_trans; eauto).
    rewrite (extends_cell _ _ _ _ He0 Hcell).
    destruct Hrets as [->|(itemName & item & -> & Hrets)].
    { inversion H2; subst. reflexivity. }
    apply (toXml_at_items_store (toXml_at f) base a doc element)
      with (cs := cs) (i := O).
    + pose proof (extends_length _ _ He). lia.
    + exact Hcell.
    + assert (HQ : Forall (fun d =>
                 (forall base a name document, held_at base a d ->
                    distinct_keys d -> returns (toXml d name) ->
                    forall fuel h, (depth d <= fuel)%nat -> extends base h ->
                      toXml_at fuel a name document h
                      = toXml_store d name document h) /\
                 distinct_keys d /\ returns (toXml d itemName) /\
                 (depth d <= f)%nat) ds).
      { rewrite Forall_forall in IH, Hdist, Hrets, Hdepth.
        apply Forall_forall. intros d Hin.
        split; [exact (IH d Hin)|]. split; [exact (Hdist d Hin)|].
        split; [exact (Hrets d Hin) | exact (Hdepth d Hin)]. }
      apply (Forall2_with _ _ _ _ _ HQ H2).
      intros c d (Hd & Hd1 & Hr1 & Hf1) Hh. split; [exact Hr1|].
      intros h' He'.
      exact (Hd base c itemName (Some doc) Hh Hd1 Hr1 f h' Hf1 He').
    + intros j c Hj. exact Hj.
    + exact He0.
  - destruct Hheld as (r & Hcell & Hr).
    cbn [toXml_at toXml_store]. rewrite (extends_cell _ _ _ _ He Hcell).
    destruct (createElement_store name document h)
      as [[[doc element] h0]| |] eqn:Hcreate; cbn [bind]; try reflexivity.
    destruct (createElement_store_fresh _ _ _ _ _ _ Hcreate) as [Hext0 Hle].
    assert (He0 : extends base h0) by (eapply extends_trans; eauto).
    rewrite (extends_cell _ _ _ _ He0 Hcell).
    now rewrite (ref_toString_scalar v0 r Hr).
Qed.

Lemma fromXml_each_NoDup (props : list (string * schema)) (l : list node) :
  forall acc ps, fromXml_each props l acc = Ok ps ->
                 NoDup (keys acc) -> NoDup (keys ps).
Proof.
  induction l as [|n l IH]; intros acc ps H Hacc.
  - simpl in H. apply Ok_inj in H. now subst ps.
  - apply fromXml_each_step in H as [H|(child & d & _ & _ & _ & _ & H)].
    + exact (IH acc ps H Hacc).
    + apply (IH _ ps H). now apply NoDup_keys_js_set.
Qed.

Lemma fromXml_distinct (t : schema) :
  forall n d, fromXml t n = Ok d -> distinct_keys d.
Proof.
  induction t as [props c IH|name item IH| | | |] using schema_induction;
    intros n d H;
    try (cbn [fromXml] in H; apply bind_Ok in H as (x & _ & H);
         apply Ok_inj in H; subst d; exact I).
  - rewrite fromXml_object in H. apply bind_Ok in H as (ps & Hps & H).
    apply Ok_inj in H; subst d. apply distinct_keys_object. split.
    + apply (fromXml_each_NoDup props _ [] ps Hps). constructor.
    + apply (fromXml_each_Forall distinct_keys props IH _ [] ps Hps).
      constructor.
  - rewrite fromXml_array in H.
    apply bind_Ok in H as (ds & Hds & H). apply Ok_inj in H; subst d.
    apply distinct_keys_array. apply mapM_Forall2 in Hds.
    induction Hds as [|x d xs ds Hd _ IHds]; constructor; eauto.
Qed.

Lemma fromJs_distinct (t : schema) :
  forall v d, fromJs t v = Ok d -> distinct_keys d.
Proof.
  induction t as [props c IH|name item IH| | | |] using schema_induction;
    intros v d H;
    try (cbn [fromJs] in H; apply bind_Ok in H as (x & _ & H);
         apply Ok_inj in H; subst d; exact I).
  - rewrite fromJs_object in H. apply bind_Ok in H as (ps & Hps & H).
    apply Ok_inj in H; subst d. apply distinct_keys_object. split.
    + apply (fromJs_each_NoDup v props [] ps Hps). split; constructor.
    + apply (fromJs_each_Forall distinct_keys v props IH [] ps Hps).
      constructor.
  - cbn [fromJs] in H. destruct v as [| | | | |xs|]; try discriminate.
    apply bind_Ok in H as (ds & Hds & H). apply Ok_inj in H; subst d.
    apply distinct_keys_array. apply mapM_Forall2 in Hds.
    induction Hds as [|x d xs ds Hd _ IHds]; constructor; eauto.
Qed.

(** Every intermediate object whose value nodes hold primitives can be
    held in a store. *)
Lemma held_somewhere (d : dentity) :
  scalars d -> forall h, exists a h', extends h h' /\ held_at h' a d.
Proof.
  induction d as [t ps IH|t ds IH|t v0] using dentity_induction; intros Hs h.
  - apply scalars_object in Hs.
    assert (G : forall h, exists kas h',
               extends h h' /\
               Forall2 (fun ka kd => fst ka = fst kd /\
                                     held_at h' (snd ka) (snd kd)) kas ps).
    { clear h. induction ps as [|[k d] ps IHps]; intros h.
      - exists [], h. split; [apply extends_refl | constructor].
      - inversion IH as [|? ? Hd IH']; subst.
        inversion Hs as [|? ? Hsd Hs']; subst. cbn [snd] in *.
        destruct (Hd Hsd h) as (c & h1 & He1 & Hc).
        destruct (IHps IH' Hs' h1) as (kas & h2 & He2 & Hkas).
        exists ((k, c) :: kas), h2.
        split; [eapply extends_trans; eauto|].
        constructor; [|exact Hkas]. split; [reflexivity|].
        exact (held_at_extends h1 h2 d He2 c Hc). }
    destruct (G h) as (kas & h' & He & Hkas).
    exists (List.length h'), (h' ++ [CDObject t kas]).
    split; [eapply extends_trans; [exact He | apply extends_app]|].
    apply held_at_object. exists kas. split.
    + rewrite nth_error_app2 by lia. now rewrite Nat.sub_diag.
    + eapply Forall2_impl; [|exact Hkas]. intros ka kd [E Hh].
      split; [exact E|].
      exact (held_at_extends h' _ (snd kd) (extends_app h' _) (snd ka) Hh).
  - apply scalars_array in Hs.
    assert (G : forall h, exists cs h',
               extends h h' /\ Forall2 (held_at h') cs ds).
    { clear h. induction ds as [|d ds IHds]; intros h.
      - exists [], h. split; [apply extends_refl | constructor].
      - inversion IH as [|? ? Hd IH']; subst.
        inversion Hs as [|? ? Hsd Hs']; subst.
        destruct (Hd Hsd h) as (c & h1 & He1 & Hc).
        destruct (IHds IH' Hs' h1) as (cs & h2 & He2 & Hcs).
        exists (c :: cs), h2.
        split; [eapply extends_trans; eauto|].
        constructor; [|exact Hcs].
        exact (held_at_extends h1 h2 d He2 c Hc). }
    destruct (G h) as (cs & h' & He & Hcs).
    exists (List.length h'), (h' ++ [CDArray t cs]).
    split; [eapply extends_trans; [exact He | apply extends_app]|].
    apply held_at_array. exists cs. split.
    + rewrite nth_error_app2 by lia. now rewrite Nat.sub_diag.
    + eapply Forall2_impl; [|exact Hcs]. intros c d Hh.
      exact (held_at_extends h' _ d (extends_app h' _) c Hh).
  - cbn [scalars] in Hs.
    assert (exists r, scalar_ref v0 = Some r) as [r Hr]
      by (destruct v0; try contradiction; eexists; reflexivity).
    exists (List.length h), (h ++ [CDValue t r]).
    split; [apply extends_app|]. exists r. split; [|exact Hr].
    rewrite nth_error_app2 by lia. now rewrite Nat.sub_diag.
Qed.

(** C9.  Rendering twice gives two independent, equal results and leaves
    the intermediate object as it was.  The intermediate object lives in
    the store with what rendering creates, and the methods read it there.
    What ingestion builds holds primitives in its value nodes and each key
    once, and [toJs] returns on it; [toXml] returns on every node whose
    names are XML names and whose values have a string form; and every
    such object can be held in a store.  For an object held in a store,
    with fuel for its nesting: [toJs] called twice returns twice, only
    adding cells; after each call the store still holds the object; both
    results stand for the value that [toJs] gives; the cells of the first
    result were all allocated by the first call and those of the second by
    the second call, so the results share no cell with one another or with
    the object, and the second call leaves the first result as it was.  The
    same holds of [toXml] called twice under the same name, each call in a
    document of its own. *)
Theorem C9_rendering_twice_is_independent :
  (forall t v d, fromJs t v = Ok d ->
     scalars d /\ distinct_keys d /\ returns (toJs d)) /\
  (forall t n d, fromXml t n = Ok d ->
     scalars d /\ distinct_keys d /\ returns (toJs d)) /\
  (forall d name, renderable d name -> returns (toXml d name)) /\
  (forall d h, scalars d -> exists a h', extends h h' /\ held_at h' a d) /\
  forall d a h fuel,
    held_at h a d -> distinct_keys d -> (depth d <= fuel)%nat ->
    (forall v, toJs d = Ok v ->
       exists r1 h1 r2 h2,
         toJs_at fuel a h = Ok (r1, h1) /\ toJs_at fuel a h1 = Ok (r2, h2) /\
         extends h h1 /\ extends h1 h2 /\
         held_at h1 a d /\ held_at h2 a d /\
         denotes_on (between (List.length h) (List.length h1)) h1 r1 v /\
         denotes_on (between (List.length h) (List.length h1)) h2 r1 v /\
         denotes_on (between (List.length h1) (List.length h2)) h2 r2 v) /\
    (forall name n, toXml d name = Ok n ->
       exists a1 h1 a2 h2,
         toXml_at fuel a name None h = Ok (a1, h1) /\
         toXml_at fuel a name None h1 = Ok (a2, h2) /\
         extends h h1 /\ extends h1 h2 /\
         held_at h1 a d /\ held_at h2 a d /\
         node_on (between (List.length h) (List.length h1)) (List.length h)
                 h1 a1 n /\
         node_on (between (List.length h) (List.length h1)) (List.length h)
                 h2 a1 n /\
         node_on (between (List.length h1) (List.length h2)) (List.length h1)
                 h2 a2 n).
Proof.
  split.
  { intros t v d H. split; [exact (fromJs_scalars t v d H)|].
    split; [exact (fromJs_distinct t v d H) | exact (fromJs_toJs_returns t v d H)]. }
  split.
  { intros t n d H. split; [exact (fromXml_scalars t n d H)|].
    split; [exact (fromXml_distinct t n d H)
           | exact (fromXml_toJs_returns t n d H)]. }
  split; [intros d name H; now apply toXml_renderable|].
  split; [intros d h Hs; exact (held_somewhere d Hs h)|].
  intros d a h fuel Hheld Hdist Hfuel.
  pose proof (held_scalars h d a Hheld) as Hs. split.
  - intros v Hv.
    assert (Hret : returns (toJs d)) by now exists v.
    destruct (toJs_store_spec d Hs v Hv h) as (r1 & h1 & H1 & E1 & D1).
    destruct (toJs_store_spec d Hs v Hv h1) as (r2 & h2 & H2 & E2 & D2).
    exists r1, h1, r2, h2.
    rewrite (toJs_at_faithful d h a Hheld Hdist Hret fuel h Hfuel
               (extends_refl h)).
    rewrite (toJs_at_faithful d h a Hheld Hdist Hret fuel h1 Hfuel E1).
    pose proof (held_at_extends h h1 d E1 a Hheld) as Hh1.
    repeat split; auto.
    + exact (held_at_extends h1 h2 d E2 a Hh1).
    + eapply denotes_change; [|exact D1].
      intros a' [B1 B2]. split; [split; assumption|].
      now apply extends_nth.
  - intros name n Hn.
    assert (Hret : returns (toXml d name)) by now exists n.
    destruct (toXml_store_spec d name n Hn None h)
      as (a1 & h1 & H1 & E1 & D1 & _).
    destruct (toXml_store_spec d name n Hn None h1)
      as (a2 & h2 & H2 & E2 & D2 & _).
    cbn [document_of] in *.
    exists a1, h1, a2, h2.
    rewrite (toXml_at_faithful d h a name None Hheld Hdist Hret fuel h Hfuel
               (extends_refl h)).
    rewrite (toXml_at_faithful d h a name None Hheld Hdist Hret fuel h1 Hfuel E1).
    pose proof (held_at_extends h h1 d E1 a Hheld) as Hh1.
    repeat split; auto.
    + exact (held_at_extends h1 h2 d E2 a Hh1).
    + eapply node_change; [|exact D1].
      intros a' [B1 B2]. split; [split; assumption|].
      now apply extends_nth.
Qed.

Lemma C9_rendering_twice_is_independent_witness :
  (exists r1 h1 r2 h2,
     toJs_at 3
       3%nat
       [CDValue TInteger (RNum (of_Z 3)); CDArray (TArray "n" TInteger) [0%nat];
        CDValue TString (RStr "x");
        CDObject (TObject [("a", TArray "n" TInteger); ("b", TString)] Object_ctor)
                 [("a", 1%nat); ("b", 2%nat)]]
     = Ok (r1, h1) /\
     toJs_at 3 3%nat h1 = Ok (r2, h2) /\
     denotes_on (between 4 (List.length h1)) h2 r1
       (VObj "Object" [("a", VArr [VNum (of_Z 3)]); ("b", VStr "x")]) /\
     denotes_on (between (List.length h1) (List.length h2)) h2 r2
       (VObj "Object" [("a", VArr [VNum (of_Z 3)]); ("b", VStr "x")])) /\
  (exists a1 h1 a2 h2,
     toXml_at 3
       3%nat "p" None
       [CDValue TInteger (RNum (of_Z 3)); CDArray (TArray "n" TInteger) [0%nat];
        CDValue TString (RStr "x");
        CDObject (TObject [("a", TArray "n" TInteger); ("b", TString)] Object_ctor)
                 [("a", 1%nat); ("b", 2%nat)]]
     = Ok (a1, h1) /\
     toXml_at 3 3%nat "p" None h1 = Ok (a2, h2) /\
     node_on (between 4 (List.length h1)) 4%nat h2 a1
       (el "p" [el "a" [el "n" [txt "3"]]; el "b" [txt "x"]]) /\
     node_on (between (List.length h1) (List.length h2)) (List.length h1) h2 a2
       (el "p" [el "a" [el "n" [txt "3"]]; el "b" [txt "x"]])).
Proof.
  pose proof (proj2 (proj2 (proj2 (proj2 C9_rendering_twice_is_independent)))
                (DObject (TObject [("a", TArray "n" TInteger); ("b", TString)]
                                  Object_ctor)
                   [("a", DArray (TArray "n" TInteger)
                            [DValue TInteger (VNum (of_Z 3))]);
                    ("b", DValue TString (VStr "x"))])
                3%nat
                [CDValue TInteger (RNum (of_Z 3));
                 CDArray (TArray "n" TInteger) [0%nat];
                 CDValue TString (RStr "x");
                 CDObject (TObject [("a", TArray "n" TInteger); ("b", TString)]
                                   Object_ctor)
                          [("a", 1%nat); ("b", 2%nat)]]
                3%nat) as H.
  destruct H as [HJ HX].
  - cbn [held_at]. eexists. split; [reflexivity|].
    split; [reflexivity|]. split.
    + eexists. split; [reflexivity|]. split; [|exact I].
      eexists. split; reflexivity.
    + split; [reflexivity|]. split; [|exact I].
      eexists. split; reflexivity.
  - cbn [distinct_keys keys map fst]. repeat split.
    repeat constructor; simpl; intuition discriminate.
  - cbn [depth]. cbn. lia.
  - split.
    + destruct (HJ (VObj "Object" [("a", VArr [VNum (of_Z 3)]); ("b", VStr "x")])
                   eq_refl)
        as (r1 & h1 & r2 & h2 & H1 & H2 & _ & _ & _ & _ & _ & D1 & D2).
      exists r1, h1, r2, h2. auto.
    + destruct (HX "p" (el "p" [el "a" [el "n" [txt "3"]]; el "b" [txt "x"]])
                   eq_refl)
        as (a1 & h1 & a2 & h2 & H1 & H2 & _ & _ & _ & _ & _ & D1 & D2).
      exists a1, h1, a2, h2. auto.
Defined.
